(** * tunelinkr: the cross-catalogue track matching core of [backend/main.py]

    A shallow embedding of the tokenizer ([normalize_string],
    [create_token_set]), the similarity scorer ([subset_similarity]), the
    per-provider classifier and ranker (the nested [process_results]) and the
    orchestrator ([find_equivalent_links]), followed by the properties of the
    specification that concern them; then of the code around them: the
    other scorer ([jaccard_similarity]), the URL helpers
    ([detect_platform], [extract_spotify_metadata],
    [extract_apple_metadata], [extract_youtube_metadata]), the endpoints
    ([get_preference], [get_track_metadata], [build_fallback_html],
    [redirect_handler], [set_preference]) and the result builder of
    [YouTubeAPI.search_track], with further properties of all of these.

    Modelling conventions.
    - A Python [str] is the [string] of its code points: the text model is
      the text of code points below 256 (Latin-1), one character of a
      [string] for each. On this text [str.lower] works character by
      character and stays in the model, and [str.lower], [str.isspace],
      [str.split], [str.strip] and the regular expression classes [\w] and
      [\s] are the tables written out below, which are those of Python for
      all 256 code points. Text with a code point from 256 on is outside the
      model, and so is [str.upper], which leaves it (on the sharp s, the
      micro sign and the y with diaeresis); [Str.upper] changes the letters
      a-z only.
    - A Python [set] of tokens is a [gset string], a [dict] keyed by the
      provider name is a [gmap string _].
    - An [Optional[int]] is an [option Z]; Python truthiness ([if x and y]) is
      [truthy], under which [None] and [0] are both false.
    - Similarities and penalties are Python floats obtained by one division of
      two set sizes, or are the literals 0.4, 0.5, 0.75, 0.05 and 0.1; they
      are modelled by the canonical rationals [Qc], on which the comparisons
      made by the code agree with the float comparisons for every token set
      of realistic size. The total penalty of an alternative is the one
      float sum of the code, of 0 or 0.1 and 0 or 0.05: the rational sum
      orders the four totals as the floats are ordered, but 3/20 stands for
      the float 0.1 + 0.05, which is 0.15000000000000002 and not the float
      0.15, so that the model says nothing of the total but its order.
    - A Python exception is the [Raise] case of [result].
    - The network is outside the model: a client is the function from its
      arguments to what it answers, [None] or the empty list on a failure,
      as the [try] blocks of the clients make it; [urlparse] and [parse_qs]
      have been applied to the url of a request. *)

From Stdlib Require Import ZArith QArith Qcanon Ascii Permutation Sorted.
From stdpp Require Import gmap strings list numbers.

Local Open Scope Z_scope.

(** ** Python strings *)

Module Str.

(** [str.isspace] on one character, which is also the class [\s] of [re]
    on a [str] pattern: TAB LF VT FF CR, FS GS RS US and the space, the
    next line control (133) and the no-break space (160). *)
Definition is_space (c : ascii) : bool :=
  let n := N_of_ascii c in
  ((9 <=? n) && (n <=? 13) || (28 <=? n) && (n <=? 32)
   || (n =? 133) || (n =? 160))%N.

(** The letters A-Z. *)
Definition is_upper (c : ascii) : bool :=
  let n := N_of_ascii c in ((65 <=? n) && (n <=? 90))%N.

(** What [re] takes for alphanumeric in a [str] pattern: a letter, a
    decimal, a digit or a number of Unicode. From 128 on these are the
    ordinal indicators (170, 186), the superscripts 2, 3 and 1 (178, 179,
    185), the micro sign (181), the fractions (188-190) and the letters
    (192-255 without the signs of multiplication, 215, and of division,
    247). *)
Definition is_alnum (c : ascii) : bool :=
  let n := N_of_ascii c in
  ((48 <=? n) && (n <=? 57) || (65 <=? n) && (n <=? 90)
   || (97 <=? n) && (n <=? 122)
   || (n =? 170) || (n =? 178) || (n =? 179) || (n =? 181) || (n =? 185)
   || (n =? 186) || (188 <=? n) && (n <=? 190)
   || (192 <=? n) && negb (n =? 215) && negb (n =? 247))%N.

(** The class [\w]: alphanumeric or the underscore. *)
Definition is_word (c : ascii) : bool :=
  is_alnum c || (N_of_ascii c =? 95)%N.

(** [c.lower()]: the capital letters, A-Z and 192-222 without the sign of
    multiplication, are 32 below their small letters; nothing else has
    another lower case. *)
Definition lower_char (c : ascii) : ascii :=
  let n := N_of_ascii c in
  if (is_upper c || (192 <=? n) && (n <=? 222) && negb (n =? 215))%N
  then ascii_of_N (n + 32) else c.

(** The letters a-z in upper case, the other characters as they are: the
    case of the ASCII letters of a text, which [str.lower] undoes. *)
Definition upper_char (c : ascii) : ascii :=
  let n := N_of_ascii c in
  if ((97 <=? n) && (n <=? 122))%N then ascii_of_N (n - 32) else c.

Fixpoint map (f : ascii -> ascii) (s : string) : string :=
  match s with
  | EmptyString => EmptyString
  | String c s' => String (f c) (map f s')
  end.

(** [re.sub('[class]', '', s)] for a one-character class: the characters
    of the class are deleted, [keep] is the complement of the class. *)
Fixpoint filter (keep : ascii -> bool) (s : string) : string :=
  match s with
  | EmptyString => EmptyString
  | String c s' => if keep c then String c (filter keep s') else filter keep s'
  end.

Fixpoint all (p : ascii -> bool) (s : string) : bool :=
  match s with
  | EmptyString => true
  | String c s' => p c && all p s'
  end.

(** [s.lower()] *)
Definition lower : string -> string := map lower_char.

(** [s] with its letters a-z in upper case, which is [s.upper()] when [s]
    is ASCII. *)
Definition upper : string -> string := map upper_char.

Fixpoint lstrip (s : string) : string :=
  match s with
  | EmptyString => EmptyString
  | String c s' => if is_space c then lstrip s' else s
  end.

Fixpoint rstrip (s : string) : string :=
  match s with
  | EmptyString => EmptyString
  | String c s' =>
      match rstrip s' with
      | EmptyString => if is_space c then EmptyString else String c EmptyString
      | r => String c r
      end
  end.

(** [s.strip()] *)
Definition strip (s : string) : string := rstrip (lstrip s).

Definition starts_with_space (s : string) : bool :=
  match s with
  | EmptyString => false
  | String c _ => is_space c
  end.

(** [re.sub('\s+', ' ', s)]: every maximal run of whitespace becomes one
    space; the space is emitted at the last character of the run. *)
Fixpoint collapse_whitespace (s : string) : string :=
  match s with
  | EmptyString => EmptyString
  | String c s' =>
      if is_space c
      then if starts_with_space s' then collapse_whitespace s'
           else String " " (collapse_whitespace s')
      else String c (collapse_whitespace s')
  end.

(** [s.split()]: the maximal runs of non-whitespace characters, in order;
    never an empty string. *)
Fixpoint split (s : string) : list string :=
  match s with
  | EmptyString => []
  | String c s' =>
      if is_space c then split s'
      else match s' with
           | EmptyString => [String c EmptyString]
           | String c' _ =>
               if is_space c' then String c EmptyString :: split s'
               else match split s' with
                    | w :: ws => String c w :: ws
                    | [] => [String c EmptyString]
                    end
           end
  end.

(** [s1 in s2]: [s1] occurs in [s2] as a contiguous substring. *)
Fixpoint contains (s1 s2 : string) : bool :=
  String.prefix s1 s2
  || match s2 with
     | EmptyString => false
     | String _ s2' => contains s1 s2'
     end.

(** Truthiness of a [str]: non-empty. *)
Definition nonempty (s : string) : bool :=
  match s with EmptyString => false | String _ _ => true end.

End Str.

(** ** Tokenizer *)

(** [normalize_string]: lowercase, delete everything that is neither a word
    character nor whitespace, collapse whitespace runs and strip. *)
Definition normalize_string (s : string) : string :=
  let s := Str.lower s in
  let s := Str.filter (fun c => Str.is_word c || Str.is_space c) s in
  Str.strip (Str.collapse_whitespace s).

Definition stop_words : gset string :=
  list_to_set ["feat"; "featuring"; "ft"; "ft."; "vs"; "vs."; "with"; "and"; "&"; "x"].

Definition is_bracket (c : ascii) : bool :=
  match c with
  | "("%char | ")"%char | "["%char | "]"%char => true
  | _ => false
  end.

(** [list(dict.fromkeys(l))]: the first occurrence of every element, in
    order. *)
Fixpoint dict_fromkeys (l : list string) : list string :=
  match l with
  | [] => []
  | x :: r => x :: List.filter (fun y => negb (String.eqb x y)) (dict_fromkeys r)
  end.

(** [x or ''] for an optional string. *)
Definition or_empty (o : option string) : string :=
  match o with Some s => s | None => EmptyString end.

Definition keep_token (token : string) : bool :=
  Str.nonempty token && negb (bool_decide (token ∈ stop_words)).

Definition create_token_set (title artist album : string) : gset string :=
  let combined := Str.strip (title +:+ " " +:+ artist +:+ " " +:+ album) in
  if negb (Str.nonempty combined) then ∅
  else
    let combined := Str.filter (fun c => negb (is_bracket c)) combined in
    let normalized := normalize_string combined in
    let tokens := Str.split normalized in
    let filtered_tokens := List.filter keep_token tokens in
    let unique_tokens := dict_fromkeys filtered_tokens in
    list_to_set unique_tokens.

(** ** Similarity scorer *)

Definition ratio (m n : nat) : Qc := Q2Qc (Z.of_nat m # Pos.of_nat n).

Definition subset_similarity (source_tokens candidate_tokens : gset string)
    (min_candidate_tokens : Z) : Qc :=
  if bool_decide (candidate_tokens = ∅) then 0%Qc
  else if Z.of_nat (size candidate_tokens) <? min_candidate_tokens then 0%Qc
  else
    let matching_tokens := size (candidate_tokens ∩ source_tokens) in
    let total_candidate_tokens := size candidate_tokens in
    ratio matching_tokens total_candidate_tokens.

(** The default of the keyword argument [min_candidate_tokens]. *)
Definition default_min_candidate_tokens : Z := 2.

(** ** Data model *)

(** One raw search result, as the providers build it: the values read by
    [track.get('title', '')], [track.get('artist', '')],
    [track.get('album', '')], [track.get('duration_ms')],
    [track.get('track_number')] and [track.get('url')]. A key that a provider
    leaves out (YouTube sets neither album, duration nor track number) reads
    as the empty string or [None]. *)
Record Track := {
  track_title : string;
  track_artist : string;
  track_album : string;
  track_duration : option Z;
  track_number : option Z;
  track_url : string
}.

(** The variables of [find_equivalent_links] that the nested
    [process_results] closes over. *)
Record Source := {
  title : string;
  artist : string;
  source_duration_ms : option Z;
  source_album : option string;
  source_track_number : option Z
}.

(** The dictionaries appended to [exact_candidates] and [alt_candidates]. *)
Record ExactCandidate := {
  ex_track : Track;
  ex_similarity : Qc;
  ex_duration_diff : Z;
  ex_album_match : bool;
  ex_missing_data_penalty : Qc;
  ex_track_number_match : bool
}.

Record AltCandidate := {
  alt_track : Track;
  alt_similarity : Qc;
  alt_duration_diff : Z;
  alt_version_penalty : Qc;
  alt_missing_data_penalty : Qc;
  alt_total_penalty : Qc;
  alt_service : string
}.

(** The dictionaries stored in [alt_dict]. *)
Record AltItem := {
  item_title : string;
  item_artist : string;
  item_album : string;
  item_url : string;
  item_durationMs : option Z;
  item_service : string
}.

Inductive exn : Type := UnboundLocalError.

Inductive result (A : Type) : Type :=
| Return (a : A)
| Raise (e : exn).
Arguments Return {A} a.
Arguments Raise {A} e.

Global Instance result_bind : MBind result := fun A B k r =>
  match r with
  | Return a => k a
  | Raise e => Raise e
  end.

(** Truthiness of an [Optional[int]]: [None] and [0] are false. *)
Definition truthy (o : option Z) : bool :=
  match o with
  | Some n => negb (n =? 0)
  | None => false
  end.

(** The float literals of the classifier. *)
Definition q0_4 : Qc := Q2Qc (2 # 5).
Definition q0_75 : Qc := Q2Qc (3 # 4).
Definition q0_5 : Qc := Q2Qc (1 # 2).
Definition q0_05 : Qc := Q2Qc (1 # 20).
Definition q0_1 : Qc := Q2Qc (1 # 10).

(** ** Candidate classifier: the body of the loop of [process_results] *)

Definition source_exact_tokens (src : Source) : gset string :=
  create_token_set (title src) (artist src) (or_empty (source_album src)).

Definition source_alt_tokens (src : Source) : gset string :=
  create_token_set (title src) (artist src) "".

(** Lines 505-507. *)
Definition track_number_match_of (source_track_number track_number : option Z) : bool :=
  if truthy source_track_number && truthy track_number
  then bool_decide (source_track_number = track_number)
  else false.

(** The values of the four locals after lines 510-519. The local
    [exact_duration_tolerance] is assigned only inside the [if]; outside it
    keeps the binding it had, which is none at all in the first iteration. *)
Record Gate := {
  exact_duration_ok : bool;
  alt_duration_ok : bool;
  duration_diff : Z;
  exact_duration_tolerance : option Z
}.

(** [if source_duration_ms and track_duration:] is entered when both values
    are set and neither is 0. *)
Definition duration_gate (source_duration_ms track_duration : option Z)
    (track_number_match : bool) (tolerance_before : option Z) : Gate :=
  match source_duration_ms, track_duration with
  | Some s, Some t =>
      if truthy (Some s) && truthy (Some t) then
        let duration_diff := Z.abs (s - t) in
        let exact_duration_tolerance := if track_number_match then 5000 else 1000 in
        {| exact_duration_ok := duration_diff <=? exact_duration_tolerance;
           alt_duration_ok := duration_diff <=? 10000;
           duration_diff := duration_diff;
           exact_duration_tolerance := Some exact_duration_tolerance |}
      else {| exact_duration_ok := true; alt_duration_ok := true;
              duration_diff := 0; exact_duration_tolerance := tolerance_before |}
  | _, _ => {| exact_duration_ok := true; alt_duration_ok := true;
               duration_diff := 0; exact_duration_tolerance := tolerance_before |}
  end.

(** [not track_album or track_album.strip() == ''] *)
Definition album_missing (track_album : string) : bool :=
  negb (Str.nonempty track_album) || String.eqb (Str.strip track_album) "".

(** Line 540: [track_album.lower() == (source_album or '').lower() if
    source_album else False]. *)
Definition album_match_of (source_album : option string) (track_album : string) : bool :=
  if Str.nonempty (or_empty source_album)
  then String.eqb (Str.lower track_album) (Str.lower (or_empty source_album))
  else false.

Definition version_words : list string :=
  ["live"; "remix"; "cover"; "acoustic"; "demo"].

(** [any(word in t for word in version_words)] *)
Definition has_version (t : string) : bool :=
  existsb (fun word => Str.contains word t) version_words.

(** Lines 550-563. *)
Definition version_penalty_of (source_title track_title : string) : Qc :=
  let title_lower := Str.lower track_title in
  let source_title_lower := Str.lower source_title in
  let candidate_has_version := has_version title_lower in
  let source_has_version := has_version source_title_lower in
  if candidate_has_version && negb source_has_version then q0_1 else 0%Qc.

(** What one iteration does to the two candidate lists. *)
Inductive Outcome : Type :=
| Exact (c : ExactCandidate)
| Alternative (c : AltCandidate)
| NoMatch.

(** Lines 530-586, once the similarities, the track number flag and the
    gate are known. [total_penalty] is the sum of line 569, which the code
    takes on floats. *)
Definition classify (src : Source) (service_name : string) (track : Track)
    (exact_similarity alt_similarity : Qc) (track_number_match : bool)
    (g : Gate) : Outcome :=
  let exact_threshold := if track_number_match then q0_4 else q0_75 in
  if bool_decide (exact_threshold ≤ exact_similarity)%Qc && exact_duration_ok g then
    Exact {| ex_track := track;
             ex_similarity := exact_similarity;
             ex_duration_diff := duration_diff g;
             ex_album_match := album_match_of (source_album src) (track_album track);
             ex_missing_data_penalty :=
               if album_missing (track_album track) then q0_05 else 0%Qc;
             ex_track_number_match := track_number_match |}
  else if bool_decide (q0_5 ≤ alt_similarity)%Qc && alt_duration_ok g then
    let version_penalty := version_penalty_of (title src) (track_title track) in
    let missing_data_penalty :=
      if album_missing (track_album track) then q0_05 else 0%Qc in
    let total_penalty := (version_penalty + missing_data_penalty)%Qc in
    Alternative {| alt_track := track;
                   alt_similarity := alt_similarity;
                   alt_duration_diff := duration_diff g;
                   alt_version_penalty := version_penalty;
                   alt_missing_data_penalty := missing_data_penalty;
                   alt_total_penalty := total_penalty;
                   alt_service := service_name |}
  else NoMatch.

(** The locals of [process_results] that live across iterations;
    [tolerance] is the binding of [exact_duration_tolerance], [None] while
    the name is unbound. *)
Record Locals := {
  exact_candidates : list ExactCandidate;
  alt_candidates : list AltCandidate;
  tolerance : option Z
}.

Definition record_outcome (st : Locals) (tol : option Z) (o : Outcome) : Locals :=
  match o with
  | Exact c => {| exact_candidates := exact_candidates st ++ [c];
                  alt_candidates := alt_candidates st; tolerance := tol |}
  | Alternative c => {| exact_candidates := exact_candidates st;
                        alt_candidates := alt_candidates st ++ [c]; tolerance := tol |}
  | NoMatch => {| exact_candidates := exact_candidates st;
                  alt_candidates := alt_candidates st; tolerance := tol |}
  end.

(** The gate of one iteration (lines 505-519). *)
Definition gate_of (src : Source) (st : Locals) (track : Track) : Gate :=
  duration_gate (source_duration_ms src) (track_duration track)
    (track_number_match_of (source_track_number src) (track_number track))
    (tolerance st).

(** Lines 497-502: the two similarities of a candidate. *)
Definition exact_similarity_of (src : Source) (track : Track) : Qc :=
  let candidate_exact_tokens :=
    create_token_set (track_title track) (track_artist track) (track_album track) in
  subset_similarity (source_exact_tokens src) candidate_exact_tokens
    default_min_candidate_tokens.

Definition alt_similarity_of (src : Source) (track : Track) : Qc :=
  let candidate_alt_tokens :=
    create_token_set (track_title track) (track_artist track) "" in
  subset_similarity (source_alt_tokens src) candidate_alt_tokens
    default_min_candidate_tokens.

(** The outcome of one iteration that gets past the debug output. *)
Definition outcome_of (src : Source) (service_name : string) (st : Locals)
    (track : Track) : Outcome :=
  classify src service_name track
    (exact_similarity_of src track) (alt_similarity_of src track)
    (track_number_match_of (source_track_number src) (track_number track))
    (gate_of src st track).

(** One iteration (lines 489-586). The debug output of line 525 formats the
    local [exact_duration_tolerance]; reading it while it is unbound raises
    [UnboundLocalError], before the candidate is classified. *)
Definition process_track (src : Source) (service_name : string) (st : Locals)
    (track : Track) : result Locals :=
  let g := gate_of src st track in
  match exact_duration_tolerance g with
  | None => Raise UnboundLocalError
  | Some _ =>
      Return (record_outcome st (exact_duration_tolerance g)
                (outcome_of src service_name st track))
  end.

Fixpoint for_each {S A : Type} (body : S -> A -> result S) (st : S) (l : list A)
    : result S :=
  match l with
  | [] => Return st
  | a :: r => st' ← body st a; for_each body st' r
  end.

Definition initial_locals : Locals :=
  {| exact_candidates := []; alt_candidates := []; tolerance := None |}.

(** ** Ranker *)

(** Python compares tuples lexicographically: the first pair of components
    that differ decides. *)
Definition lex (c1 c2 : comparison) : comparison :=
  match c1 with Eq => c2 | _ => c1 end.

Definition bool_compare (a b : bool) : comparison :=
  match a, b with
  | false, true => Lt
  | true, false => Gt
  | _, _ => Eq
  end.

Definition exact_key (x : ExactCandidate) : Qc * bool * bool * Qc * Z :=
  (ex_similarity x, ex_album_match x, ex_track_number_match x,
   (- ex_missing_data_penalty x)%Qc, - ex_duration_diff x).

Definition exact_key_compare (k1 k2 : Qc * bool * bool * Qc * Z) : comparison :=
  let '(s1, a1, t1, p1, d1) := k1 in
  let '(s2, a2, t2, p2, d2) := k2 in
  lex (s1 ?= s2)%Qc (lex (bool_compare a1 a2) (lex (bool_compare t1 t2)
    (lex (p1 ?= p2)%Qc (d1 ?= d2)))).

Definition alt_key (x : AltCandidate) : Qc * Qc * Z :=
  ((- alt_similarity x)%Qc, alt_total_penalty x, alt_duration_diff x).

Definition alt_key_compare (k1 k2 : Qc * Qc * Z) : comparison :=
  let '(s1, p1, d1) := k1 in
  let '(s2, p2, d2) := k2 in
  lex (s1 ?= s2)%Qc (lex (p1 ?= p2)%Qc (d1 ?= d2)).

(** [max(first :: rest, key=key)]: the first element whose key no other
    element exceeds. *)
Fixpoint max_by {A K : Type} (cmp : K -> K -> comparison) (key : A -> K)
    (max_item : A) (rest : list A) : A :=
  match rest with
  | [] => max_item
  | item :: rest' =>
      max_by cmp key
        (match cmp (key item) (key max_item) with Gt => item | _ => max_item end)
        rest'
  end.

(** [l.sort(key=key)]: the stable ascending sort. *)
Fixpoint insert_by {A K : Type} (cmp : K -> K -> comparison) (key : A -> K)
    (x : A) (l : list A) : list A :=
  match l with
  | [] => [x]
  | y :: r =>
      match cmp (key y) (key x) with
      | Lt => y :: insert_by cmp key x r
      | _ => x :: y :: r
      end
  end.

Fixpoint sort_by {A K : Type} (cmp : K -> K -> comparison) (key : A -> K)
    (l : list A) : list A :=
  match l with
  | [] => []
  | x :: r => insert_by cmp key x (sort_by cmp key r)
  end.

Definition best_exact_of (first : ExactCandidate) (rest : list ExactCandidate)
    : ExactCandidate :=
  max_by exact_key_compare exact_key first rest.

Definition rank_alternatives (l : list AltCandidate) : list AltCandidate :=
  sort_by alt_key_compare alt_key l.

Definition alt_item (service_name : string) (candidate : AltCandidate) : AltItem :=
  let track := alt_track candidate in
  {| item_title := track_title track;
     item_artist := track_artist track;
     item_album := track_album track;
     item_url := track_url track;
     item_durationMs := track_duration track;
     item_service := service_name |}.

(** Lines 588-622: what [process_results] stores once its loop is over. *)
Definition store_links (service_name : string) (exact_candidates : list ExactCandidate)
    (links_dict : gmap string string) : gmap string string :=
  match exact_candidates with
  | [] => links_dict
  | first :: rest => <[service_name := track_url (ex_track (best_exact_of first rest))]> links_dict
  end.

Definition store_alternatives (service_name : string) (alt_candidates : list AltCandidate)
    (alt_dict : gmap string (list AltItem)) : gmap string (list AltItem) :=
  match alt_candidates with
  | [] => alt_dict
  | _ => <[service_name := alt_item service_name <$> rank_alternatives alt_candidates]> alt_dict
  end.

(** ** Orchestrator *)

Definition process_results (src : Source) (service_name : string) (results : list Track)
    (links_dict : gmap string string) (alt_dict : gmap string (list AltItem))
    : result (gmap string string * gmap string (list AltItem)) :=
  st ← for_each (process_track src service_name) initial_locals results;
  Return (store_links service_name (exact_candidates st) links_dict,
          store_alternatives service_name (alt_candidates st) alt_dict).

(** A catalogue client: [search_track(title, artist)] answers with a list of
    raw results, the empty list on any failure. *)
Record Provider := { search_track : string -> string -> list Track }.

Definition find_equivalent_links (title artist : string)
    (spotify_api itunes_api yt_api : Provider)
    (source_duration_ms : option Z) (source_album : option string)
    (source_track_number : option Z)
    : result (gmap string string * gmap string (list AltItem)) :=
  let src := {| title := title; artist := artist;
                source_duration_ms := source_duration_ms;
                source_album := source_album;
                source_track_number := source_track_number |} in
  let links : gmap string string := ∅ in
  let alternatives : gmap string (list AltItem) := ∅ in
  let spotify_results := search_track spotify_api title artist in
  '(links, alternatives) ← process_results src "spotify" spotify_results links alternatives;
  let apple_results := search_track itunes_api title artist in
  '(links, alternatives) ← process_results src "apple" apple_results links alternatives;
  let yt_results := search_track yt_api title artist in
  '(links, alternatives) ← process_results src "youtube" yt_results links alternatives;
  Return (links, alternatives).

(** The three calls of [process_results] at the end of
    [find_equivalent_links], for any list of providers with their results. *)
Fixpoint run_providers (src : Source) (providers : list (string * list Track))
    (links : gmap string string) (alternatives : gmap string (list AltItem))
    : result (gmap string string * gmap string (list AltItem)) :=
  match providers with
  | [] => Return (links, alternatives)
  | (service_name, results) :: rest =>
      '(links, alternatives) ← process_results src service_name results links alternatives;
      run_providers src rest links alternatives
  end.

(** Whether the loop of [process_results] reaches line 525 with
    [exact_duration_tolerance] unbound: there is a first result and its
    iteration does not enter the [if] of line 513. *)
Definition trips_debug_output (src : Source) (results : list Track) : bool :=
  match results with
  | [] => false
  | track :: _ => negb (truthy (source_duration_ms src) && truthy (track_duration track))
  end.

(** ** The specification's wording, for comparison with the code *)

(** The duration check of step 4 of the classifier: evaluated when both
    sides have a duration. *)
Definition spec_duration_gate (source_duration_ms track_duration : option Z)
    (track_number_match : bool) : bool * bool :=
  match source_duration_ms, track_duration with
  | Some s, Some t =>
      let duration_diff := Z.abs (s - t) in
      (duration_diff <=? (if track_number_match then 5000 else 1000),
       duration_diff <=? 10000)
  | _, _ => (true, true)
  end.

(** A duration of the data model: an optional integer that is not negative. *)
Definition valid_duration (d : option Z) : Prop :=
  match d with Some n => 0 ≤ n | None => True end.

(** A track number of the data model: an optional integer from 1 on. *)
Definition valid_track_number (n : option Z) : Prop :=
  match n with Some k => 1 ≤ k | None => True end.

(** Step 3: both track numbers are set and they are equal. *)
Definition spec_track_number_match (source_track_number track_number : option Z) : bool :=
  match source_track_number, track_number with
  | Some a, Some b => a =? b
  | _, _ => false
  end.

(** Step 6: [0.05 if candidate.album is empty else 0]. *)
Definition spec_missing_album_penalty (album : string) : Qc :=
  if String.eqb album "" then q0_05 else 0%Qc.

(** Step 6: the candidate album and the source album are both non-empty and
    equal up to case. *)
Definition spec_album_match (source_album : option string) (album : string) : bool :=
  Str.nonempty album && Str.nonempty (or_empty source_album)
  && String.eqb (Str.lower album) (Str.lower (or_empty source_album)).

(** An unknown duration and a duration of 0 read alike. *)
Definition forget_zero (d : option Z) : option Z :=
  if truthy d then d else None.

(** Punctuation: a character that is neither a word character nor
    whitespace. *)
Definition is_punctuation (c : ascii) : bool :=
  negb (Str.is_word c || Str.is_space c).

Definition without_punctuation (s : string) : string :=
  Str.filter (fun c => negb (is_punctuation c)) s.






(** The ranking order of the specification on exact candidates: [a] wins
    over [b] on the first of similarity (higher), album match (true), track
    number match (true), missing album penalty (lower) and duration
    difference (lower) on which they differ. *)
Definition beats (a b : ExactCandidate) : Prop :=
  (ex_similarity b < ex_similarity a)%Qc
  ∨ ex_similarity a = ex_similarity b
    ∧ (ex_album_match a = true ∧ ex_album_match b = false
       ∨ ex_album_match a = ex_album_match b
         ∧ (ex_track_number_match a = true ∧ ex_track_number_match b = false
            ∨ ex_track_number_match a = ex_track_number_match b
              ∧ ((ex_missing_data_penalty a < ex_missing_data_penalty b)%Qc
                 ∨ ex_missing_data_penalty a = ex_missing_data_penalty b
                   ∧ ex_duration_diff a < ex_duration_diff b))).

(** The order of the specification on alternatives: similarity descending,
    then total penalty ascending, then duration difference ascending. *)
Definition alt_not_after (a b : AltCandidate) : Prop :=
  (alt_similarity b < alt_similarity a)%Qc
  ∨ alt_similarity a = alt_similarity b
    ∧ ((alt_total_penalty a < alt_total_penalty b)%Qc
       ∨ alt_total_penalty a = alt_total_penalty b
         ∧ alt_duration_diff a ≤ alt_duration_diff b).

(** What the ranker needs of a three-way comparison: it is antisymmetric and
    "not greater" is transitive. *)
Definition cmp_laws {X : Type} (cmp : X → X → comparison) : Prop :=
  (∀ x y, cmp y x = CompOpp (cmp x y))
  ∧ (∀ x y z, cmp x y ≠ Gt → cmp y z ≠ Gt → cmp x z ≠ Gt).

(** ** Sample requests *)

Module Sample.

(** The source of the end-to-end scenarios of the specification. *)
Definition yellow : Source :=
  {| title := "Yellow"; artist := "Coldplay";
     source_duration_ms := Some 266773;
     source_album := Some "Parachutes";
     source_track_number := Some 1 |}.

Definition yellow_itunes : Track :=
  {| track_title := "Yellow"; track_artist := "Coldplay";
     track_album := "Parachutes"; track_duration := Some 266000;
     track_number := Some 1;
     track_url := "https://music.apple.com/us/album/yellow/1122782080?i=1122782283" |}.

(** The same record with an album of one space. *)
Definition yellow_blank_album : Track :=
  {| track_title := "Yellow"; track_artist := "Coldplay";
     track_album := " "; track_duration := Some 266000;
     track_number := Some 1;
     track_url := "https://open.spotify.com/track/3AJwUDP919kvQ9QcozQPxg" |}.

(** The same record with a duration of 0. *)
Definition yellow_zero_duration : Track :=
  {| track_title := "Yellow"; track_artist := "Coldplay";
     track_album := "Parachutes"; track_duration := Some 0;
     track_number := Some 1;
     track_url := "https://open.spotify.com/track/3AJwUDP919kvQ9QcozQPxg" |}.

(** What [YouTubeAPI.search_track] builds: title, channel and url only. *)
Definition yellow_live_youtube : Track :=
  {| track_title := "Yellow - Live"; track_artist := "Coldplay";
     track_album := ""; track_duration := None; track_number := None;
     track_url := "https://www.youtube.com/watch?v=1mB0tP1I-14" |}.

Definition yellow_video_youtube : Track :=
  {| track_title := "Coldplay - Yellow (Official Video)"; track_artist := "Coldplay";
     track_album := ""; track_duration := None; track_number := None;
     track_url := "https://www.youtube.com/watch?v=yKNxeF4KMsY" |}.

Definition parachutes_title_track : Track :=
  {| track_title := "Parachutes"; track_artist := "Coldplay";
     track_album := ""; track_duration := Some 266000; track_number := Some 7;
     track_url := "https://open.spotify.com/track/4ZK8lPAWWpMaTyvPbxm8ts" |}.

(** Two exact candidates of equal similarity: the first has the album of
    the source and is 4.5 s off, the second has another album and the
    duration of the source. *)
Definition same_album_far : ExactCandidate :=
  {| ex_track := yellow_itunes; ex_similarity := Q2Qc 1;
     ex_duration_diff := 4500; ex_album_match := true;
     ex_missing_data_penalty := Q2Qc 0; ex_track_number_match := true |}.

Definition other_album_near : ExactCandidate :=
  {| ex_track := yellow_blank_album; ex_similarity := Q2Qc 1;
     ex_duration_diff := 0; ex_album_match := false;
     ex_missing_data_penalty := Q2Qc 0; ex_track_number_match := true |}.

(** The locals after an iteration that assigned the tolerance. *)
Definition later_iteration : Locals :=
  {| exact_candidates := []; alt_candidates := []; tolerance := Some 5000 |}.

(** An answer with two exact candidates, the one with the album of the
    source second, and an alternative, which has no duration. *)
Definition ranked_answer : list Track :=
  [yellow_blank_album; yellow_itunes; yellow_live_youtube].


(** A client that answers every query with the same results. *)
Definition answering (results : list Track) : Provider :=
  {| search_track := fun _ _ => results |}.

End Sample.

(** ** Further definitions *)

(** A string in which every whitespace character is one space that no
    whitespace follows. *)
Fixpoint single_spaced (s : string) : bool :=
  match s with
  | EmptyString => true
  | String c s' =>
      (if Str.is_space c
       then Ascii.eqb c " " && negb (Str.starts_with_space s')
       else true)
      && single_spaced s'
  end.

(** A character that a token can hold: a word character that [str.lower]
    leaves alone. *)
Definition is_token_char (c : ascii) : bool :=
  Str.is_word c && Ascii.eqb (Str.lower_char c) c.

(** The tokens of one metadata field. *)
Definition field_tokens (field : string) : gset string :=
  list_to_set
    (List.filter keep_token (Str.split (without_punctuation (Str.lower field)))).


Inductive arithmetic_error : Type := ZeroDivisionError.

(** [jaccard_similarity]: the division of two lengths raises
    [ZeroDivisionError] when the union is empty. *)
Definition jaccard_similarity (set1 set2 : gset string) : arithmetic_error + Qc :=
  let intersection := set1 ∩ set2 in
  let union := set1 ∪ set2 in
  if (size union =? 0)%nat then inl ZeroDivisionError
  else inr (ratio (size intersection) (size union)).


(** The candidate that an outcome appends to [exact_candidates], and the
    one it appends to [alt_candidates]. *)
Definition exact_of (o : Outcome) : option ExactCandidate :=
  match o with Exact c => Some c | _ => None end.

Definition alternative_of (o : Outcome) : option AltCandidate :=
  match o with Alternative c => Some c | _ => None end.

(** The outcome of a result, which does not depend on the iteration. *)
Definition outcome (src : Source) (service_name : string) (track : Track) : Outcome :=
  outcome_of src service_name initial_locals track.


(** ** URL helpers *)

Module Url.

(** [s.split(sep)] for a one-character separator: the pieces between the
    separators, the empty ones included; [''.split(sep)] is [['']]. *)
Fixpoint split_on (sep : ascii) (s : string) : list string :=
  match s with
  | EmptyString => [EmptyString]
  | String c s' =>
      if Ascii.eqb c sep then EmptyString :: split_on sep s'
      else match split_on sep s' with
           | w :: ws => String c w :: ws
           | [] => [String c EmptyString]
           end
  end.

(** [[p for p in path.split('/') if p]] *)
Definition path_parts (path : string) : list string :=
  List.filter Str.nonempty (split_on "/" path).

(** The class [[A-Za-z0-9]]. *)
Definition is_ascii_alnum (c : ascii) : bool :=
  let n := N_of_ascii c in
  ((48 <=? n) && (n <=? 57) || (65 <=? n) && (n <=? 90)
   || (97 <=? n) && (n <=? 122))%N.

(** [c.isdigit()]: 0-9 and the superscripts 2, 3 and 1 (178, 179, 185). *)
Definition is_digit (c : ascii) : bool :=
  let n := N_of_ascii c in
  ((48 <=? n) && (n <=? 57) || (n =? 178) || (n =? 179) || (n =? 185))%N.

(** [s.isdigit()]: at least one character, all of them digits. *)
Definition isdigit (s : string) : bool := Str.nonempty s && Str.all is_digit s.

Fixpoint take_while (p : ascii -> bool) (s : string) : string :=
  match s with
  | EmptyString => EmptyString
  | String c s' => if p c then String c (take_while p s') else EmptyString
  end.

(** What is left of [s] after the prefix [p], if [s] starts with it. *)
Fixpoint strip_prefix (p s : string) : option string :=
  match p, s with
  | EmptyString, _ => Some s
  | String a p', String b s' => if Ascii.eqb a b then strip_prefix p' s' else None
  | String _ _, EmptyString => None
  end.

(** [/track/([A-Za-z0-9]{10,})] at the start of [s]: the greedy group. *)
Definition match_track_group (s : string) : option string :=
  match strip_prefix "/track/" s with
  | Some rest =>
      let group := take_while is_ascii_alnum rest in
      if (10 <=? String.length group)%nat then Some group else None
  | None => None
  end.

(** The lazy [.*?] in front of it: the pattern is tried at every position
    in turn, and [.] does not step over a newline. *)
Fixpoint search_track_group (s : string) : option string :=
  match match_track_group s with
  | Some group => Some group
  | None =>
      match s with
      | EmptyString => None
      | String c s' =>
          if Ascii.eqb c "010" then None else search_track_group s'
      end
  end.

(** [re.match(r"/.*?/track/([A-Za-z0-9]{10,})", path)], its group 1. *)
Definition match_spotify_path (path : string) : option string :=
  match path with
  | String "/" rest => search_track_group rest
  | _ => None
  end.

Definition extract_spotify_metadata (path : string) : option string :=
  match match_spotify_path path with
  | Some track_id => Some track_id
  | None =>
      match path_parts path with
      | p0 :: p1 :: _ => if String.eqb p0 "track" then Some p1 else None
      | _ => None
      end
  end.

(** [parts[-1]] of a list that is not empty. *)
Fixpoint last_part (parts : list string) : option string :=
  match parts with
  | [] => None
  | [p] => Some p
  | _ :: parts' => last_part parts'
  end.

(** The dictionary of [parse_qs(query)]: a name is mapped to the list of
    its values, which is never empty; the pair is the first value and the
    others. *)
Definition extract_apple_metadata (path : string)
    (qs : gmap string (string * list string)) : option string :=
  match qs !! "i" with
  | Some (first, _) => Some first
  | None =>
      match last_part (path_parts path) with
      | Some p => if isdigit p then Some p else None
      | None => None
      end
  end.

Definition extract_youtube_metadata (path : string)
    (qs : gmap string (string * list string)) : option string :=
  match qs !! "v" with
  | Some (first, _) => Some first
  | None => last_part (path_parts path)
  end.

(** [detect_platform] on [urlparse(url).netloc]. *)
Definition detect_platform (netloc : string) : option string :=
  let host := Str.lower netloc in
  if Str.contains "spotify" host then Some "spotify"
  else if Str.contains "music.apple.com" host || Str.contains "itunes.apple.com" host
  then Some "apple"
  else if Str.contains "youtube.com" host || Str.contains "youtu.be" host
  then Some "youtube"
  else None.

End Url.


(** ** The redirect endpoint *)

Module Handler.

(** The fields that the code reads in the JSON document of a Spotify track
    ([name], the [name] of the first of [artists], [duration_ms], the
    [name] of [album], [track_number]) and in the first result of an iTunes
    lookup. *)
Record SpotifyTrackData := {
  sp_name : option string;
  sp_artist_name : option string;
  sp_duration_ms : option Z;
  sp_album_name : option string;
  sp_track_number : option Z
}.

Record ITunesTrackData := {
  trackName : option string;
  artistName : option string;
  trackViewUrl : option string;
  trackTimeMillis : option Z;
  collectionName : option string;
  trackNumber : option Z
}.

(** [SpotifyAPI.get_track] and [ITunesAPI.lookup_track]: the document of a
    track id, [None] on any failure. *)
Record MetadataClients := {
  get_track : string -> option SpotifyTrackData;
  lookup_track : string -> option ITunesTrackData
}.

(** What [urlparse(url)] returns, with its query already through
    [parse_qs]. *)
Record ParseResult := {
  netloc : string;
  path : string;
  query : gmap string (string * list string)
}.

(** Truthiness of an [Optional[str]]: [None] and [''] are false. *)
Definition truthy_str (o : option string) : bool :=
  match o with
  | Some s => Str.nonempty s
  | None => false
  end.

(** [get_preference], on the cookies of the request. *)
Definition get_preference (cookies : gmap string string) (pref_param : option string)
    : option string :=
  if truthy_str pref_param then Some (Str.lower (or_empty pref_param))
  else
    let cookie := cookies !! "music_pref" in
    if truthy_str cookie then Some (Str.lower (or_empty cookie))
    else None.

Definition get_track_metadata (platform : string) (track_id : option string)
    (clients : MetadataClients)
    : option string * option string * gmap string string :=
  if String.eqb platform "spotify" && truthy_str track_id then
    match get_track clients (or_empty track_id) with
    | Some data =>
        (sp_name data, sp_artist_name data,
         {[ "spotify" := "https://open.spotify.com/track/" +:+ or_empty track_id ]})
    | None => (None, None, ∅)
    end
  else if String.eqb platform "apple" && truthy_str track_id then
    match lookup_track clients (or_empty track_id) with
    | Some data =>
        let track_url := trackViewUrl data in
        (trackName data, artistName data,
         {[ "apple" :=
              if truthy_str track_url then or_empty track_url
              else "https://music.apple.com/us/album/" +:+ or_empty track_id
                   +:+ "?i=" +:+ or_empty track_id ]})
    | None => (None, None, ∅)
    end
  else if String.eqb platform "youtube" && truthy_str track_id then
    (None, None, {[ "youtube" := "https://www.youtube.com/watch?v=" +:+ or_empty track_id ]})
  else (None, None, ∅).

(** Lines 735-753 of [redirect_handler]: duration, album and track number
    of the source. *)
Definition source_details (platform : string) (track_id : option string)
    (clients : MetadataClients) : option Z * option string * option Z :=
  if String.eqb platform "spotify" && truthy_str track_id then
    match get_track clients (or_empty track_id) with
    | Some sdata => (sp_duration_ms sdata, sp_album_name sdata, sp_track_number sdata)
    | None => (None, None, None)
    end
  else if String.eqb platform "apple" && truthy_str track_id then
    match lookup_track clients (or_empty track_id) with
    | Some adata => (trackTimeMillis adata, collectionName adata, trackNumber adata)
    | None => (None, None, None)
    end
  else (None, None, None).

(** Lines 721-728. *)
Definition extract_track_id (platform : string) (parsed : ParseResult) : option string :=
  if String.eqb platform "spotify" then Url.extract_spotify_metadata (path parsed)
  else if String.eqb platform "apple"
  then Url.extract_apple_metadata (path parsed) (query parsed)
  else if String.eqb platform "youtube"
  then Url.extract_youtube_metadata (path parsed) (query parsed)
  else None.

(** [str.title()] on text whose letters are the ASCII letters: the first
    letter of every run of letters in upper case, its other letters in
    lower case. (The title case of the sharp s, the micro sign and the y
    with diaeresis is outside the text model.) *)
Definition is_lower (c : ascii) : bool :=
  let n := N_of_ascii c in ((97 <=? n) && (n <=? 122))%N.

Fixpoint title_from (previous_is_cased : bool) (s : string) : string :=
  match s with
  | EmptyString => EmptyString
  | String c s' =>
      if is_lower c
      then String (if previous_is_cased then c else Str.upper_char c) (title_from true s')
      else if Str.is_upper c
      then String (if previous_is_cased then Str.lower_char c else c) (title_from true s')
      else String c (title_from false s')
  end.

Definition str_title (s : string) : string := title_from false s.

(** What an f-string makes of an [Optional[str]]. *)
Definition format_str (o : option string) : string :=
  match o with
  | Some s => s
  | None => "None"
  end.

Definition dquote : string := String "034"%char EmptyString.

Definition newline : string := String "010"%char EmptyString.

(** Lines 661-667. *)
Definition html_head (title artist : option string) : string :=
  newline +:+ "    <html>" +:+ newline
  +:+ "    <head><title>Couldn't find a match</title></head>" +:+ newline
  +:+ "    <body style=" +:+ dquote +:+ "font-family:sans-serif;padding:2em;"
  +:+ dquote +:+ ">" +:+ newline
  +:+ "      <h1>Couldn't automatically find a match</h1>" +:+ newline
  +:+ "      <p>We couldn't find an equivalent link for <strong>"
  +:+ format_str title +:+ "</strong> by <strong>" +:+ format_str artist
  +:+ "</strong> on the requested service.</p>" +:+ newline +:+ "    ".

Definition anchor (url label : string) : string :=
  "<li><a href=" +:+ dquote +:+ url +:+ dquote +:+ " target=" +:+ dquote
  +:+ "_blank" +:+ dquote +:+ ">" +:+ label +:+ "</a></li>".

(** The dash of the labels, U+2014: it is outside the text model and stands
    here as the three bytes of its UTF-8 encoding. *)
Definition em_dash : string := "—".

(** Lines 673-681, for an item of [find_equivalent_links]. *)
Definition alternative_anchor (service : string) (item : AltItem) : string :=
  let t := item_title item in
  let ar := item_artist item in
  let al := item_album item in
  let url := item_url item in
  let label := str_title service +:+ ": " +:+ t +:+ " " +:+ em_dash +:+ " " +:+ ar in
  let label :=
    if Str.nonempty al then label +:+ " " +:+ em_dash +:+ " " +:+ al else label in
  anchor url label.

Definition concat_map {A : Type} (f : A -> string) (l : list A) : string :=
  foldr (fun a html => f a +:+ html) "" l.

(** Lines 669-686; [alternatives] is the dictionary in the order of its
    insertions. *)
Definition html_alternatives (alternatives : list (string * list AltItem)) : string :=
  match alternatives with
  | [] => ""
  | _ =>
      "<h2>We did find similar songs:</h2><ul>"
      +:+ concat_map (fun '(service, items) =>
                        concat_map (alternative_anchor service) items) alternatives
      +:+ "</ul>"
  end.

(** Lines 688-692. *)
Definition html_links (links : gmap string string) : string :=
  "<p>Please select your preferred platform:</p><ul>"
  +:+ concat_map (fun service =>
                    match links !! service with
                    | Some url => anchor url (str_title service)
                    | None => ""
                    end) ["spotify"; "apple"; "youtube"]
  +:+ "</ul></body></html>".

(** [build_fallback_html]; [None] for [alternatives] is the default of the
    parameter. *)
Definition build_fallback_html (title artist : option string)
    (links : gmap string string) (user_pref : string)
    (alternatives : option (list (string * list AltItem))) : string :=
  let alternatives := default [] alternatives in
  html_head title artist +:+ html_alternatives alternatives +:+ html_links links.

(** The responses of the endpoints: a 302 redirect, with the [music_pref]
    cookie it sets if any; a 200 page; and the JSON document of
    [set_preference], with its [pref] and the [music_pref] cookie it sets. *)
Inductive Response : Type :=
| RedirectResponse (url : string) (music_pref : option string)
| HTMLResponse (content : string)
| PreferenceResponse (pref : string) (music_pref : string).

(** What leaves an endpoint: the [HTTPException] it raises itself, the
    [ValueError] of [urlparse], or an exception of the matching core. *)
Inductive handler_error : Type :=
| HTTPException (status_code : Z)
| ValueError
| Uncaught (e : exn).

(** Lines 758-785: the user prefers another service than the one of the
    url. The local [alternatives] is assigned only when the search runs. *)
Definition redirect_to_preferred (user_pref : string) (title artist : option string)
    (links : gmap string string) (spotify_api itunes_api yt_api : Provider)
    (source_duration_ms : option Z) (source_album : option string)
    (source_track_number : option Z) : handler_error + Response :=
  let target_url := links !! user_pref in
  let searched :=
    if negb (truthy_str target_url) && truthy_str title && truthy_str artist then
      match find_equivalent_links (or_empty title) (or_empty artist)
              spotify_api itunes_api yt_api
              source_duration_ms source_album source_track_number with
      | Raise e => inl (Uncaught e)
      | Return (equivalent_links, alt_matches) =>
          let links := links ∪ equivalent_links in
          let alternatives : list (string * list AltItem) :=
            [(user_pref, default [] (alt_matches !! user_pref))] in
          inr (links, Some alternatives, links !! user_pref)
      end
    else inr (links, None, target_url) in
  match searched with
  | inl e => inl e
  | inr (links, alternatives, target_url) =>
      if truthy_str target_url
      then inr (RedirectResponse (or_empty target_url) (Some user_pref))
      else match alternatives with
           | None => inl (Uncaught UnboundLocalError)
           | Some alternatives =>
               let html := build_fallback_html title artist links user_pref
                             (Some alternatives) in
               inr (HTMLResponse html)
           end
  end.

(** [redirect_handler]; [urlparse_url] is what [urlparse(url)] makes of
    the url, [None] when it raises [ValueError], as it does on a url with
    an unmatched bracket in its host: line 715 calls it outside any [try],
    before [detect_platform], which would answer [None]. The details of
    the source are fetched through clients of their own (lines 740 and
    746). *)
Definition redirect_handler (cookies : gmap string string) (url : string)
    (pref : option string) (urlparse_url : option ParseResult)
    (clients details_clients : MetadataClients)
    (spotify_api itunes_api yt_api : Provider) : handler_error + Response :=
  if negb (Str.nonempty url) then inl (HTTPException 400)
  else
    let user_pref := get_preference cookies pref in
    match urlparse_url with
    | None => inl ValueError
    | Some parsed =>
        match Url.detect_platform (netloc parsed) with
        | None => inr (RedirectResponse url None)
        | Some platform =>
            let track_id := extract_track_id platform parsed in
            let '(title, artist, links) :=
              get_track_metadata platform track_id clients in
            let links := <[platform := url]> links in
            let '(source_duration_ms, source_album, source_track_number) :=
              source_details platform track_id details_clients in
            if truthy_str user_pref && negb (String.eqb (or_empty user_pref) platform)
            then redirect_to_preferred (or_empty user_pref) title artist links
                   spotify_api itunes_api yt_api
                   source_duration_ms source_album source_track_number
            else inr (RedirectResponse url
                        (if truthy_str user_pref then user_pref else None))
        end
    end.

(** [set_preference]. *)
Definition set_preference (pref : string) : handler_error + Response :=
  if negb (Str.nonempty pref) then inl (HTTPException 400)
  else inr (PreferenceResponse pref (Str.lower pref)).

End Handler.


Module HandlerSample.

(** The Spotify document of Yellow, as far as the code reads it. *)
Definition yellow_document : Handler.SpotifyTrackData :=
  {| Handler.sp_name := Some "Yellow";
     Handler.sp_artist_name := Some "Coldplay";
     Handler.sp_duration_ms := Some 266773;
     Handler.sp_album_name := Some "Parachutes";
     Handler.sp_track_number := Some 1 |}.

Definition clients : Handler.MetadataClients :=
  {| Handler.get_track := fun _ => Some yellow_document;
     Handler.lookup_track := fun _ => None |}.

Definition offline : Handler.MetadataClients :=
  {| Handler.get_track := fun _ => None; Handler.lookup_track := fun _ => None |}.

Definition yellow_url : string :=
  "https://open.spotify.com/track/3AJwUDP919kvQ9QcozQPxg".

Definition yellow_parsed : Handler.ParseResult :=
  {| Handler.netloc := "open.spotify.com";
     Handler.path := "/track/3AJwUDP919kvQ9QcozQPxg";
     Handler.query := ∅ |}.

End HandlerSample.


(** ** The YouTube client *)

Module YouTube.

(** An item of the [search.list] answer, as far as the code reads it; a
    field is [None] when the key is absent. *)
Record ItemId := { videoId : option string }.

Record Snippet := {
  snippet_title : option string;
  channelTitle : option string
}.

Record Item := {
  item_id : option ItemId;
  item_snippet : option Snippet
}.

Inductive lookup_error : Type := KeyError.

(** The body of the loop of lines 281-288: an item without a video id is
    skipped, a missing key raises. *)
Definition result_of (item : Item) : lookup_error + option Track :=
  match item_id item with
  | None => inl KeyError
  | Some i =>
      let video_id := videoId i in
      if Handler.truthy_str video_id then
        match item_snippet item with
        | None => inl KeyError
        | Some snippet =>
            match snippet_title snippet, channelTitle snippet with
            | Some t, Some channel =>
                inr (Some {| track_title := t; track_artist := channel;
                             track_album := ""; track_duration := None;
                             track_number := None;
                             track_url := "https://www.youtube.com/watch?v="
                                          +:+ or_empty video_id |})
            | _, _ => inl KeyError
            end
        end
      else inr None
  end.

Fixpoint results_of (items : list Item) : lookup_error + list Track :=
  match items with
  | [] => inr []
  | item :: items' =>
      match result_of item with
      | inl e => inl e
      | inr r =>
          match results_of items' with
          | inl e => inl e
          | inr results => inr (match r with Some t => t :: results | None => results end)
          end
      end
  end.

(** [YouTubeAPI.search_track]; [get q] is the [items] of the answer to the
    query [q], [None] when the request or its decoding raises. *)
Definition search_track (api_key : option string)
    (get : string -> option (list Item)) (title artist : string) : list Track :=
  if negb (Handler.truthy_str api_key) then []
  else
    let query := title +:+ " " +:+ artist in
    match get query with
    | None => []
    | Some items =>
        match results_of items with
        | inl _ => []
        | inr results => results
        end
    end.

Definition api (api_key : option string) (get : string -> option (list Item))
    : Provider :=
  Build_Provider (search_track api_key get).

End YouTube.

(** * Properties *)

(** ** Strings *)

Lemma app_empty_l (s : string) : "" +:+ s = s.
Proof. reflexivity. Qed.

Lemma app_cons (c : ascii) (s t : string) : String c s +:+ t = String c (s +:+ t).
Proof. reflexivity. Qed.

Lemma app_empty_r (s : string) : s +:+ "" = s.
Proof. induction s as [|c s IH]; [done|]. by rewrite app_cons, IH. Qed.

Lemma app_assoc_str (s t u : string) : (s +:+ t) +:+ u = s +:+ (t +:+ u).
Proof. induction s as [|c s IH]; [done|]. by rewrite !app_cons, IH. Qed.

Lemma map_app_str (f : ascii → ascii) (s t : string) :
  Str.map f (s +:+ t) = Str.map f s +:+ Str.map f t.
Proof. induction s as [|c s IH]; [done|]. rewrite app_cons. simpl. by rewrite IH. Qed.

Lemma filter_app_str (p : ascii → bool) (s t : string) :
  Str.filter p (s +:+ t) = Str.filter p s +:+ Str.filter p t.
Proof.
  induction s as [|c s IH]; [done|]. rewrite app_cons. simpl.
  destruct (p c); by rewrite IH.
Qed.

Lemma filter_map_str (p : ascii → bool) (f : ascii → ascii) (s : string) :
  (∀ c, p (f c) = p c) → Str.filter p (Str.map f s) = Str.map f (Str.filter p s).
Proof.
  intros Hp. induction s as [|c s IH]; [done|]. simpl. rewrite Hp.
  destruct (p c); simpl; by rewrite IH.
Qed.

Lemma filter_filter_str (p q : ascii → bool) (s : string) :
  (∀ c, p c = true → q c = true) →
  Str.filter p (Str.filter q s) = Str.filter p s.
Proof.
  intros Hpq. induction s as [|c s IH]; [done|]. simpl.
  destruct (q c) eqn:Hq; simpl.
  - destruct (p c); by rewrite IH.
  - destruct (p c) eqn:Hpc; [|done]. apply Hpq in Hpc. congruence.
Qed.

Lemma filter_ext_str (p q : ascii → bool) (s : string) :
  (∀ c, p c = q c) → Str.filter p s = Str.filter q s.
Proof.
  intros Hpq. induction s as [|c s IH]; [done|]. simpl. by rewrite Hpq, IH.
Qed.

Lemma filter_all_str (p : ascii → bool) (s : string) :
  Str.all p s = true → Str.filter p s = s.
Proof.
  induction s as [|c s IH]; [done|]. simpl. intros [Hc Hs]%andb_true_iff.
  by rewrite Hc, IH.
Qed.

Lemma map_id_str (f : ascii → ascii) (p : ascii → bool) (s : string) :
  (∀ c, p c = true → f c = c) → Str.all p s = true → Str.map f s = s.
Proof.
  intros Hf. induction s as [|c s IH]; [done|]. simpl.
  intros [Hc Hs]%andb_true_iff. by rewrite Hf, IH.
Qed.

Lemma all_app_str (p : ascii → bool) (s t : string) :
  Str.all p (s +:+ t) = Str.all p s && Str.all p t.
Proof.
  induction s as [|c s IH]; [done|]. rewrite app_cons. simpl.
  by rewrite IH, andb_assoc.
Qed.

(** *** Character tables *)

Lemma is_space_lower (c : ascii) : Str.is_space (Str.lower_char c) = Str.is_space c.
Proof. destruct c as [[] [] [] [] [] [] [] []]; reflexivity. Qed.

Lemma is_word_lower (c : ascii) : Str.is_word (Str.lower_char c) = Str.is_word c.
Proof. destruct c as [[] [] [] [] [] [] [] []]; reflexivity. Qed.

Lemma is_bracket_lower (c : ascii) : is_bracket (Str.lower_char c) = is_bracket c.
Proof. destruct c as [[] [] [] [] [] [] [] []]; reflexivity. Qed.

Lemma lower_char_space (c : ascii) : Str.is_space c = true → Str.lower_char c = c.
Proof. destruct c as [[] [] [] [] [] [] [] []]; (reflexivity || discriminate). Qed.

Lemma lower_char_idem (c : ascii) : Str.lower_char (Str.lower_char c) = Str.lower_char c.
Proof. destruct c as [[] [] [] [] [] [] [] []]; reflexivity. Qed.

Lemma lower_upper_char (c : ascii) : Str.lower_char (Str.upper_char c) = Str.lower_char c.
Proof. destruct c as [[] [] [] [] [] [] [] []]; reflexivity. Qed.

Lemma bracket_is_punctuation (c : ascii) :
  Str.is_word c || Str.is_space c = true → negb (is_bracket c) = true.
Proof. destruct c as [[] [] [] [] [] [] [] []]; (reflexivity || discriminate). Qed.

Lemma lower_idem (s : string) : Str.lower (Str.lower s) = Str.lower s.
Proof.
  unfold Str.lower. induction s as [|c s IH]; [done|]. simpl.
  by rewrite lower_char_idem, IH.
Qed.

Lemma lower_upper (s : string) : Str.lower (Str.upper s) = Str.lower s.
Proof.
  unfold Str.lower, Str.upper. induction s as [|c s IH]; [done|]. simpl.
  by rewrite lower_upper_char, IH.
Qed.

Lemma lower_empty (s : string) : Str.lower s = "" → s = "".
Proof. by destruct s. Qed.

(** *** [strip] *)

Lemma lstrip_decomp (s : string) :
  ∃ l, Str.all Str.is_space l = true ∧ s = l +:+ Str.lstrip s.
Proof.
  induction s as [|c s (l & Hl & IH)]; [by exists ""|]. simpl.
  destruct (Str.is_space c) eqn:Hc.
  - exists (String c l). split; [simpl; by rewrite Hc|]. by rewrite app_cons, <- IH.
  - by exists "".
Qed.

Lemma rstrip_decomp (s : string) :
  ∃ r, Str.all Str.is_space r = true ∧ s = Str.rstrip s +:+ r.
Proof.
  induction s as [|c s (r & Hr & IH)]; [by exists ""|]. simpl.
  destruct (Str.rstrip s) as [|c' s'] eqn:Hs.
  - rewrite app_empty_l in IH. subst r.
    destruct (Str.is_space c) eqn:Hc.
    + exists (String c s). split; [simpl; by rewrite Hc|done].
    + by exists s.
  - exists r. split; [done|]. by rewrite app_cons, <- IH.
Qed.

Lemma strip_decomp (s : string) :
  ∃ l r, Str.all Str.is_space l = true ∧ Str.all Str.is_space r = true
         ∧ s = l +:+ Str.strip s +:+ r.
Proof.
  destruct (lstrip_decomp s) as (l & Hl & Hs).
  destruct (rstrip_decomp (Str.lstrip s)) as (r & Hr & Hs').
  exists l, r. unfold Str.strip. by rewrite <- Hs', <- Hs.
Qed.

Lemma lstrip_all_space (s : string) : Str.all Str.is_space s = true → Str.lstrip s = "".
Proof.
  induction s as [|c s IH]; [done|]. simpl. intros [Hc Hs]%andb_true_iff.
  rewrite Hc. by apply IH.
Qed.

Lemma strip_empty_iff (s : string) : Str.strip s = "" ↔ Str.all Str.is_space s = true.
Proof.
  split.
  - intros H. destruct (strip_decomp s) as (l & r & Hl & Hr & Hs).
    rewrite Hs, H, !all_app_str, Hl, Hr. done.
  - intros H. unfold Str.strip. by rewrite lstrip_all_space.
Qed.

(** *** [split] *)

Lemma split_cons_space (c : ascii) (s : string) :
  Str.is_space c = true → Str.split (String c s) = Str.split s.
Proof. intros H. simpl. by rewrite H. Qed.

Lemma split_cons_word (c : ascii) (s : string) :
  Str.is_space c = false →
  Str.split (String c s)
  = if Str.starts_with_space s || negb (Str.nonempty s)
    then String c "" :: Str.split s
    else match Str.split s with
         | w :: ws => String c w :: ws
         | [] => [String c ""]
         end.
Proof.
  intros H. cbn [Str.split]. rewrite H.
  destruct s as [|c' s']; [done|]. cbn [Str.starts_with_space Str.nonempty negb].
  rewrite orb_false_r. by destruct (Str.is_space c').
Qed.

Lemma split_all_space (s : string) : Str.all Str.is_space s = true → Str.split s = [].
Proof.
  induction s as [|c s IH]; [done|]. cbn [Str.all]. intros [Hc Hs]%andb_true_iff.
  rewrite split_cons_space by done. by apply IH.
Qed.

Lemma split_app_space_l (l s : string) :
  Str.all Str.is_space l = true → Str.split (l +:+ s) = Str.split s.
Proof.
  induction l as [|c l IH]; [done|]. cbn [Str.all]. intros [Hc Hl]%andb_true_iff.
  rewrite app_cons, split_cons_space by done. by apply IH.
Qed.

Lemma all_space_head (r : string) :
  Str.all Str.is_space r = true →
  Str.starts_with_space r || negb (Str.nonempty r) = true.
Proof. destruct r as [|c r]; [done|]. simpl. by intros [-> _]%andb_true_iff. Qed.

Lemma split_app_space_r (s r : string) :
  Str.all Str.is_space r = true → Str.split (s +:+ r) = Str.split s.
Proof.
  intros Hr. induction s as [|c s IH].
  - rewrite app_empty_l. by apply split_all_space.
  - rewrite app_cons. destruct (Str.is_space c) eqn:Hc.
    + by rewrite !split_cons_space.
    + rewrite !split_cons_word by done. rewrite IH.
      destruct s as [|c' s'].
      * rewrite app_empty_l, all_space_head by done. done.
      * by rewrite app_cons.
Qed.

Lemma split_strip (s : string) : Str.split (Str.strip s) = Str.split s.
Proof.
  destruct (strip_decomp s) as (l & r & Hl & Hr & Hs).
  rewrite Hs at 2. rewrite split_app_space_l, split_app_space_r; done.
Qed.

Lemma collapse_head (s : string) :
  Str.starts_with_space (Str.collapse_whitespace s) = Str.starts_with_space s
  ∧ Str.nonempty (Str.collapse_whitespace s) = Str.nonempty s.
Proof.
  induction s as [|c s [IH1 IH2]]; [done|]. cbn [Str.collapse_whitespace].
  destruct (Str.is_space c) eqn:Hc; [|simpl; by rewrite Hc].
  destruct (Str.starts_with_space s) eqn:Hs.
  - rewrite IH1, IH2. simpl. rewrite Hc. split; [done|].
    destruct s; [done|done].
  - simpl. by rewrite Hc.
Qed.

Lemma split_collapse (s : string) :
  Str.split (Str.collapse_whitespace s) = Str.split s.
Proof.
  induction s as [|c s IH]; [done|]. cbn [Str.collapse_whitespace].
  destruct (Str.is_space c) eqn:Hc.
  - rewrite (split_cons_space c) by done.
    destruct (Str.starts_with_space s); [done|]. by rewrite split_cons_space.
  - rewrite !split_cons_word by done.
    destruct (collapse_head s) as [-> ->]. by rewrite IH.
Qed.

(** ** Tokenizer *)

(** The text that decides the tokens: lowercased, without punctuation. *)
Lemma canon_app (s t : string) :
  without_punctuation (Str.lower (s +:+ t))
  = without_punctuation (Str.lower s) +:+ without_punctuation (Str.lower t).
Proof. unfold without_punctuation, Str.lower. by rewrite map_app_str, filter_app_str. Qed.

Lemma is_punctuation_lower (c : ascii) :
  negb (is_punctuation (Str.lower_char c)) = negb (is_punctuation c).
Proof. unfold is_punctuation. by rewrite is_word_lower, is_space_lower. Qed.

Lemma canon_commute (s : string) :
  without_punctuation (Str.lower s) = Str.lower (without_punctuation s).
Proof. apply filter_map_str, is_punctuation_lower. Qed.

Lemma canon_all_space (s : string) :
  Str.all Str.is_space s = true → without_punctuation (Str.lower s) = s.
Proof.
  intros H. unfold Str.lower.
  rewrite (map_id_str _ Str.is_space) by (done || apply lower_char_space).
  apply filter_all_str. clear -H. induction s as [|c s IH]; [done|].
  simpl in *. apply andb_true_iff in H as [Hc Hs].
  unfold is_punctuation at 1. rewrite Hc, orb_true_r. simpl. by apply IH.
Qed.

Lemma canon_without_brackets (s : string) :
  without_punctuation (Str.lower (Str.filter (λ c, negb (is_bracket c)) s))
  = without_punctuation (Str.lower s).
Proof.
  unfold Str.lower.
  rewrite <- (filter_map_str (λ c, negb (is_bracket c)))
    by (intros c; by rewrite is_bracket_lower).
  apply filter_filter_str. intros c Hc. apply bracket_is_punctuation.
  unfold is_punctuation in Hc. by apply negb_true_iff, negb_false_iff in Hc.
Qed.

Lemma split_canon_strip (s : string) :
  Str.split (without_punctuation (Str.lower (Str.strip s)))
  = Str.split (without_punctuation (Str.lower s)).
Proof.
  destruct (strip_decomp s) as (l & r & Hl & Hr & Hs).
  rewrite Hs at 2. rewrite !canon_app, (canon_all_space l), (canon_all_space r) by done.
  by rewrite split_app_space_l, split_app_space_r.
Qed.

Lemma split_nonempty (s : string) : Forall (λ w, Str.nonempty w = true) (Str.split s).
Proof.
  induction s as [|c s IH]; [constructor|].
  destruct (Str.is_space c) eqn:Hc.
  - by rewrite split_cons_space.
  - rewrite split_cons_word by done.
    destruct (_ || _); [by constructor|].
    destruct (Str.split s) as [|w ws]; [by repeat constructor|].
    inversion IH; subst. by constructor.
Qed.

Lemma elem_of_dict_fromkeys (x : string) (l : list string) :
  x ∈ dict_fromkeys l ↔ x ∈ l.
Proof.
  induction l as [|y l IH]; [done|]. simpl.
  rewrite !elem_of_cons, <- IH, !list_elem_of_In, filter_In, <- !list_elem_of_In.
  rewrite negb_true_iff, String.eqb_neq.
  destruct (decide (x = y)) as [->|Hxy]; [tauto|]. split.
  - intros [?|[? _]]; tauto.
  - intros [?|?]; [tauto|]. right. split; [done|congruence].
Qed.

Lemma list_to_set_dict_fromkeys (l : list string) :
  list_to_set (dict_fromkeys l) =@{gset string} list_to_set l.
Proof. apply set_eq. intros x. by rewrite !elem_of_list_to_set, elem_of_dict_fromkeys. Qed.

(** The tokens are those of the lowercased text without its punctuation. *)
Lemma create_token_set_canon (title artist album : string) :
  create_token_set title artist album
  = list_to_set
      (List.filter keep_token
         (Str.split (without_punctuation
                       (Str.lower (title +:+ " " +:+ artist +:+ " " +:+ album))))).
Proof.
  unfold create_token_set.
  set (combined := title +:+ " " +:+ artist +:+ " " +:+ album).
  destruct (Str.nonempty (Str.strip combined)) eqn:Hne; simpl.
  - rewrite list_to_set_dict_fromkeys. unfold normalize_string.
    rewrite split_strip, split_collapse.
    rewrite (filter_ext_str _ (λ c, negb (is_punctuation c)))
      by (intros c; unfold is_punctuation; by rewrite negb_involutive).
    fold (without_punctuation
            (Str.lower (Str.filter (λ c, negb (is_bracket c)) (Str.strip combined)))).
    by rewrite canon_without_brackets, split_canon_strip.
  - assert (Hs : Str.strip combined = "") by (by destruct (Str.strip combined)).
    apply strip_empty_iff in Hs.
    by rewrite canon_all_space, split_all_space.
Qed.



Lemma create_token_set_ext (t t' a a' al al' : string) :
  without_punctuation (Str.lower t) = without_punctuation (Str.lower t') →
  without_punctuation (Str.lower a) = without_punctuation (Str.lower a') →
  without_punctuation (Str.lower al) = without_punctuation (Str.lower al') →
  create_token_set t a al = create_token_set t' a' al'.
Proof.
  intros Ht Ha Hal. rewrite !create_token_set_canon, !canon_app.
  by rewrite Ht, Ha, Hal.
Qed.




(** Uppercasing a field, or putting one punctuation character anywhere in
    it, changes nothing. *)
Lemma create_token_set_upper (title artist album : string) :
  create_token_set (Str.upper title) (Str.upper artist) (Str.upper album)
  = create_token_set title artist album.
Proof. apply create_token_set_ext; by rewrite lower_upper. Qed.

Lemma create_token_set_insert_punctuation (u v artist album : string) (c : ascii) :
  is_punctuation c = true →
  create_token_set (u +:+ String c v) artist album
  = create_token_set (u +:+ v) artist album.
Proof.
  intros Hc. apply create_token_set_ext; [|done|done].
  rewrite !canon_commute. f_equal. unfold without_punctuation.
  rewrite !filter_app_str. simpl. by rewrite Hc.
Qed.

(** ** Similarity scorer *)

Lemma Zpos_of_nat (n : nat) : (0 < n)%nat → Z.pos (Pos.of_nat n) = Z.of_nat n.
Proof.
  destruct n as [|n]; [lia|]. intros _.
  rewrite <- Pos.of_nat_succ, Zpos_P_of_succ_nat. lia.
Qed.

Lemma ratio_bounds (m n : nat) : (m ≤ n)%nat → (0 < n)%nat → (0 ≤ ratio m n ≤ 1)%Qc.
Proof.
  intros Hmn Hn. unfold ratio, Qcle; simpl. rewrite !Qred_correct.
  unfold Qle; simpl. rewrite Zpos_of_nat by done. lia.
Qed.

Lemma ratio_full (n : nat) : (0 < n)%nat → ratio n n = 1%Qc.
Proof.
  intros Hn. apply Qc_is_canon. unfold ratio; simpl. rewrite !Qred_correct.
  unfold Qeq; simpl. rewrite Zpos_of_nat by done. lia.
Qed.

Lemma ratio_div (m n : nat) :
  (0 < n)%nat → ratio m n = (Qc_of_Z (Z.of_nat m) / Qc_of_Z (Z.of_nat n))%Qc.
Proof.
  intros Hn. apply Qc_is_canon. unfold ratio, Qcdiv, Qcmult, Qcinv; simpl.
  rewrite !Qred_correct. destruct n as [|n]; [lia|].
  unfold Qeq, Qmult, Qinv; simpl. rewrite Pos.mul_1_l, Pos.of_nat_succ. lia.
Qed.

Lemma subset_similarity_low (A B : gset string) (k : Z) :
  B = ∅ ∨ Z.of_nat (size B) < k → subset_similarity A B k = 0%Qc.
Proof.
  intros H. unfold subset_similarity. case_bool_decide; [done|].
  destruct H as [->|H]; [done|].
  destruct (Z.ltb_spec (Z.of_nat (size B)) k); [done|lia].
Qed.

Lemma subset_similarity_ratio (A B : gset string) (k : Z) :
  B ≠ ∅ → k ≤ Z.of_nat (size B) →
  subset_similarity A B k = ratio (size (B ∩ A)) (size B).
Proof.
  intros Hne Hk. unfold subset_similarity. case_bool_decide; [done|].
  destruct (Z.ltb_spec (Z.of_nat (size B)) k); [lia|done].
Qed.

Lemma size_two_nonempty (B : gset string) : (2 ≤ size B)%nat → B ≠ ∅ ∧ (0 < size B)%nat.
Proof. intros H. split; [|lia]. intros ->. rewrite size_empty in H. lia. Qed.

(** C3. With the default [min_candidate_tokens = 2]: [subset_similarity A B]
    is 0 when [B] is empty or has fewer than two tokens, whatever [A] is;
    otherwise it is [|B ∩ A| / |B|]; it is 1 when [B ⊆ A] and [B] has at
    least two tokens; and it always lies between 0 and 1. *)
Theorem C3_subset_similarity (A B : gset string) :
  (B = ∅ ∨ (size B < 2)%nat →
     subset_similarity A B default_min_candidate_tokens = 0%Qc)
  ∧ ((2 ≤ size B)%nat →
     subset_similarity A B default_min_candidate_tokens
     = (Qc_of_Z (Z.of_nat (size (B ∩ A))) / Qc_of_Z (Z.of_nat (size B)))%Qc)
  ∧ (B ⊆ A → (2 ≤ size B)%nat →
     subset_similarity A B default_min_candidate_tokens = 1%Qc)
  ∧ (0 ≤ subset_similarity A B default_min_candidate_tokens ≤ 1)%Qc.
Proof.
  unfold default_min_candidate_tokens.
  assert (Hb : (0 ≤ subset_similarity A B 2 ≤ 1)%Qc).
  { destruct (decide (B = ∅ ∨ Z.of_nat (size B) < 2)) as [H|H].
    - rewrite subset_similarity_low by exact H. done.
    - assert (B ≠ ∅) by tauto. assert (2 ≤ Z.of_nat (size B)) by lia.
      rewrite subset_similarity_ratio by assumption.
      apply ratio_bounds; [apply subseteq_size, intersection_subseteq_l|lia]. }
  split; [|split; [|split]]; try exact Hb.
  - intros H. apply subset_similarity_low. destruct H; [by left|right; lia].
  - intros H. destruct (size_two_nonempty B H) as [Hne Hpos].
    rewrite subset_similarity_ratio; [by apply ratio_div|exact Hne|lia].
  - intros Hsub H. destruct (size_two_nonempty B H) as [Hne Hpos].
    rewrite subset_similarity_ratio; [|exact Hne|lia].
    rewrite (subseteq_intersection_1_L B A Hsub). by apply ratio_full.
Qed.

Lemma C3_subset_similarity_witness :
  subset_similarity (list_to_set ["yellow"; "coldplay"; "parachutes"])
    (list_to_set ["yellow"; "coldplay"]) default_min_candidate_tokens = 1%Qc
  ∧ subset_similarity (list_to_set ["yellow"; "coldplay"])
      (list_to_set ["yellow"]) default_min_candidate_tokens = 0%Qc.
Proof.
  split.
  - apply (C3_subset_similarity _ _); [|vm_compute; lia].
    apply (bool_decide_unpack _). vm_compute. exact I.
  - apply (C3_subset_similarity _ _). right. vm_compute. lia.
Defined.

(** ** Duration gate *)

Lemma truthy_Some (n : Z) : truthy (Some n) = negb (n =? 0).
Proof. reflexivity. Qed.

Lemma truthy_false (d : option Z) : truthy d = false ↔ d = None ∨ d = Some 0.
Proof.
  destruct d as [n|]; simpl.
  - destruct (Z.eqb_spec n 0) as [->|Hn]; simpl.
    + split; [by right|done].
    + split; [done|]. intros [H|H]; [done|]. by injection H.
  - split; [by left|done].
Qed.

Lemma duration_gate_skipped (sd td : option Z) (tnm : bool) (tol : option Z) :
  truthy sd = false ∨ truthy td = false →
  duration_gate sd td tnm tol
  = {| exact_duration_ok := true; alt_duration_ok := true;
       duration_diff := 0; exact_duration_tolerance := tol |}.
Proof.
  intros H. unfold duration_gate. destruct sd as [s|], td as [t|]; try done.
  destruct H as [-> | ->]; [done|]. by rewrite andb_false_r.
Qed.

Lemma duration_gate_evaluated (s t : Z) (tnm : bool) (tol : option Z) :
  s ≠ 0 → t ≠ 0 →
  duration_gate (Some s) (Some t) tnm tol
  = {| exact_duration_ok := Z.abs (s - t) <=? (if tnm then 5000 else 1000);
       alt_duration_ok := Z.abs (s - t) <=? 10000;
       duration_diff := Z.abs (s - t);
       exact_duration_tolerance := Some (if tnm then 5000 else 1000) |}.
Proof.
  intros Hs Ht. unfold duration_gate. rewrite !truthy_Some.
  destruct (Z.eqb_spec s 0), (Z.eqb_spec t 0); done.
Qed.

(** C2, as the code has it. The duration comparison is made exactly when
    both durations are set and different from 0: then the difference is
    [|source - candidate|], the exact gate allows 5000 ms when the track
    numbers match and 1000 ms otherwise, and the alternative gate allows
    10000 ms. When either duration is missing or 0, both gates are open. *)
Theorem C2_duration_gate (sd td : option Z) (tnm : bool) (tol : option Z) :
  (∀ s t, sd = Some s → td = Some t → s ≠ 0 → t ≠ 0 →
     exact_duration_ok (duration_gate sd td tnm tol)
       = (Z.abs (s - t) <=? (if tnm then 5000 else 1000))
     ∧ alt_duration_ok (duration_gate sd td tnm tol) = (Z.abs (s - t) <=? 10000)
     ∧ duration_diff (duration_gate sd td tnm tol) = Z.abs (s - t))
  ∧ (sd = None ∨ sd = Some 0 ∨ td = None ∨ td = Some 0 →
     exact_duration_ok (duration_gate sd td tnm tol) = true
     ∧ alt_duration_ok (duration_gate sd td tnm tol) = true).
Proof.
  split.
  - intros s t -> -> Hs Ht. by rewrite duration_gate_evaluated.
  - intros H. rewrite duration_gate_skipped; [done|].
    rewrite !truthy_false. tauto.
Qed.

Lemma C2_duration_gate_witness :
  exact_duration_ok (duration_gate (Some 266773) (Some 262273) true None) = true
  ∧ exact_duration_ok (duration_gate (Some 266773) (Some 262273) false None) = false
  ∧ exact_duration_ok (duration_gate (Some 266773) None false None) = true.
Proof.
  split; [|split].
  - destruct (C2_duration_gate (Some 266773) (Some 262273) true None) as [H _].
    destruct (H 266773 262273) as [-> _]; [reflexivity|reflexivity|lia|lia|reflexivity].
  - destruct (C2_duration_gate (Some 266773) (Some 262273) false None) as [H _].
    destruct (H 266773 262273) as [-> _]; [reflexivity|reflexivity|lia|lia|reflexivity].
  - destruct (C2_duration_gate (Some 266773) None false None) as [_ H].
    apply H. right; right; left; reflexivity.
Defined.

(** C2 as worded fails for a duration of 0, which the data model allows: the
    source lasts 0 ms, the candidate 20 s, and the exact gate is open
    although the difference exceeds the tolerance. *)
Lemma C2_counterexample :
  ¬ (∀ sd td tnm tol, valid_duration sd → valid_duration td →
       (exact_duration_ok (duration_gate sd td tnm tol),
        alt_duration_ok (duration_gate sd td tnm tol))
       = spec_duration_gate sd td tnm).
Proof.
  intros H. specialize (H (Some 0) (Some 20000) false None).
  simpl in H. discriminate H; lia.
Qed.

(** C10. When the source duration or the candidate duration is 0 or absent,
    the comparison is skipped: both gates are open, the duration difference
    is 0, the tolerance is not assigned, every candidate recorded by the
    iteration carries a difference of 0, whatever the other duration is, and
    the gate cannot tell 0 from an absent duration. *)
Theorem C10_zero_duration_is_unknown (src : Source) (service_name : string)
    (st : Locals) (track : Track) :
  source_duration_ms src = None ∨ source_duration_ms src = Some 0
  ∨ track_duration track = None ∨ track_duration track = Some 0 →
  exact_duration_ok (gate_of src st track) = true
  ∧ alt_duration_ok (gate_of src st track) = true
  ∧ duration_diff (gate_of src st track) = 0
  ∧ exact_duration_tolerance (gate_of src st track) = tolerance st
  ∧ (∀ c, outcome_of src service_name st track = Exact c → ex_duration_diff c = 0)
  ∧ (∀ c, outcome_of src service_name st track = Alternative c → alt_duration_diff c = 0)
  ∧ (∀ tnm tol,
       duration_gate (source_duration_ms src) (track_duration track) tnm tol
       = duration_gate (forget_zero (source_duration_ms src))
           (forget_zero (track_duration track)) tnm tol).
Proof.
  intros H.
  assert (Hf : truthy (source_duration_ms src) = false
               ∨ truthy (track_duration track) = false).
  { rewrite !truthy_false. tauto. }
  assert (Hg : gate_of src st track
               = {| exact_duration_ok := true; alt_duration_ok := true;
                    duration_diff := 0; exact_duration_tolerance := tolerance st |}).
  { unfold gate_of. by apply duration_gate_skipped. }
  rewrite Hg. simpl. repeat split.
  - intros c. unfold outcome_of, classify. rewrite Hg. simpl.
    repeat case_match; intros [= <-]; done.
  - intros c. unfold outcome_of, classify. rewrite Hg. simpl.
    repeat case_match; intros [= <-]; done.
  - intros tnm tol. rewrite duration_gate_skipped by done.
    rewrite duration_gate_skipped; [done|].
    unfold forget_zero. destruct Hf as [-> | ->]; [by left|by right].
Qed.

(** ** Candidate classifier *)

Lemma album_missing_blank (album : string) :
  album_missing album = Str.all Str.is_space album.
Proof.
  unfold album_missing. destruct album as [|c album]; [done|]. simpl negb.
  rewrite orb_false_l. apply eq_true_iff_eq.
  by rewrite String.eqb_eq, strip_empty_iff.
Qed.

Lemma album_match_spec (source_album : option string) (album : string) :
  album_match_of source_album album = spec_album_match source_album album.
Proof.
  unfold album_match_of, spec_album_match.
  destruct (Str.nonempty (or_empty source_album)) eqn:Hs; [|by rewrite andb_false_r].
  rewrite andb_true_r. destruct album as [|c album]; [|done].
  simpl. by destruct (or_empty source_album).
Qed.

Lemma track_number_match_spec (a b : option Z) :
  valid_track_number a → valid_track_number b →
  track_number_match_of a b = spec_track_number_match a b.
Proof.
  unfold track_number_match_of.
  destruct a as [a|], b as [b|]; simpl; rewrite ?andb_false_r; try done.
  intros Ha Hb.
  destruct (Z.eqb_spec a 0); [lia|]. destruct (Z.eqb_spec b 0); [lia|]. simpl.
  case_bool_decide as H; destruct (Z.eqb_spec a b); congruence.
Qed.

Lemma gate_tolerance_bound (src : Source) (st : Locals) (track : Track) :
  is_Some (tolerance st)
  ∨ (truthy (source_duration_ms src) = true ∧ truthy (track_duration track) = true) →
  is_Some (exact_duration_tolerance (gate_of src st track)).
Proof.
  unfold gate_of, duration_gate. intros H.
  destruct (source_duration_ms src) as [s|], (track_duration track) as [t|];
    try (destruct H as [H|[H1 H2]]; done).
  destruct (truthy (Some s) && truthy (Some t)) eqn:Hst; [done|].
  destruct H as [H|[H1 H2]]; [done|]. by rewrite H1, H2 in Hst.
Qed.

Lemma process_track_bound (src : Source) (service_name : string) (st : Locals)
    (track : Track) :
  is_Some (exact_duration_tolerance (gate_of src st track)) →
  process_track src service_name st track
  = Return (record_outcome st (exact_duration_tolerance (gate_of src st track))
              (outcome_of src service_name st track)).
Proof. unfold process_track. by intros [tol ->]. Qed.

Lemma process_track_unbound (src : Source) (service_name : string) (st : Locals)
    (track : Track) :
  tolerance st = None →
  truthy (source_duration_ms src) = false ∨ truthy (track_duration track) = false →
  process_track src service_name st track = Raise UnboundLocalError.
Proof.
  intros Hst H. unfold process_track, gate_of.
  rewrite duration_gate_skipped by done. simpl. by rewrite Hst.
Qed.

Lemma classify_exact_iff (src : Source) (service_name : string) (track : Track)
    (es als : Qc) (tnm : bool) (g : Gate) :
  (∃ c, classify src service_name track es als tnm g = Exact c)
  ↔ ((if tnm then q0_4 else q0_75) ≤ es)%Qc ∧ exact_duration_ok g = true.
Proof.
  unfold classify.
  destruct (bool_decide ((if tnm then q0_4 else q0_75) ≤ es)%Qc) eqn:Hs;
    [apply bool_decide_eq_true in Hs|apply bool_decide_eq_false in Hs].
  - destruct (exact_duration_ok g); simpl.
    + split; [done|eauto].
    + split; [|intros [_ ?]; done]. intros [c Hc]. by repeat case_match.
  - simpl. split; [|intros [? _]; done]. intros [c Hc]. by repeat case_match.
Qed.

Lemma classify_alternative_iff (src : Source) (service_name : string) (track : Track)
    (es als : Qc) (tnm : bool) (g : Gate) :
  (∃ c, classify src service_name track es als tnm g = Alternative c)
  ↔ ¬ (∃ c, classify src service_name track es als tnm g = Exact c)
    ∧ (q0_5 ≤ als)%Qc ∧ alt_duration_ok g = true.
Proof.
  rewrite classify_exact_iff. unfold classify.
  destruct (bool_decide ((if tnm then q0_4 else q0_75) ≤ es)%Qc && exact_duration_ok g)
    eqn:He.
  - apply andb_true_iff in He as [He1%bool_decide_eq_true He2].
    split; [by intros [c Hc]|]. intros [Hn _]. by destruct Hn.
  - assert (Hn : ¬ (((if tnm then q0_4 else q0_75) ≤ es)%Qc ∧ exact_duration_ok g = true)).
    { intros [H1 H2]. by rewrite (bool_decide_eq_true_2 _ H1), H2 in He. }
    destruct (bool_decide (q0_5 ≤ als)%Qc) eqn:Ha;
      [apply bool_decide_eq_true in Ha|apply bool_decide_eq_false in Ha].
    + destruct (alt_duration_ok g); simpl.
      * split; [done|eauto].
      * split; [by intros [c Hc]|]. by intros (_ & _ & ?).
    + simpl. split; [by intros [c Hc]|]. by intros (_ & ? & _).
Qed.

Lemma classify_exact_fields (src : Source) (service_name : string) (track : Track)
    (es als : Qc) (tnm : bool) (g : Gate) (c : ExactCandidate) :
  classify src service_name track es als tnm g = Exact c →
  c = {| ex_track := track; ex_similarity := es; ex_duration_diff := duration_diff g;
         ex_album_match := album_match_of (source_album src) (track_album track);
         ex_missing_data_penalty :=
           if album_missing (track_album track) then q0_05 else 0%Qc;
         ex_track_number_match := tnm |}.
Proof. unfold classify. repeat case_match; intros [= <-]; done. Qed.

Lemma classify_alternative_fields (src : Source) (service_name : string) (track : Track)
    (es als : Qc) (tnm : bool) (g : Gate) (c : AltCandidate) :
  classify src service_name track es als tnm g = Alternative c →
  c = {| alt_track := track; alt_similarity := als;
         alt_duration_diff := duration_diff g;
         alt_version_penalty := version_penalty_of (title src) (track_title track);
         alt_missing_data_penalty :=
           if album_missing (track_album track) then q0_05 else 0%Qc;
         alt_total_penalty :=
           (version_penalty_of (title src) (track_title track)
            + (if album_missing (track_album track) then q0_05 else 0))%Qc;
         alt_service := service_name |}.
Proof. unfold classify. repeat case_match; intros [= <-]; done. Qed.

(** When an iteration gets past the debug output, the candidate goes to
    exactly one place: the exact list, the alternative list, or nowhere. *)
Lemma process_track_one_outcome (src : Source) (service_name : string)
    (st st' : Locals) (track : Track) :
  process_track src service_name st track = Return st' →
  (∃ c, exact_candidates st' = exact_candidates st ++ [c]
        ∧ alt_candidates st' = alt_candidates st)
  ∨ (∃ c, exact_candidates st' = exact_candidates st
          ∧ alt_candidates st' = alt_candidates st ++ [c])
  ∨ (exact_candidates st' = exact_candidates st
     ∧ alt_candidates st' = alt_candidates st).
Proof.
  unfold process_track. destruct (exact_duration_tolerance _); [|done].
  intros [= <-]. destruct (outcome_of src service_name st track); simpl; eauto.
Qed.

(** Past the debug output, a candidate that is not exact is recorded as an
    alternative exactly when its alternative similarity reaches 0.5 and the
    alternative gate is open, with the penalties of the specification. *)
Lemma alternative_past_debug_output (src : Source) (service_name : string)
    (st : Locals) (track : Track) :
  is_Some (tolerance st)
  ∨ (truthy (source_duration_ms src) = true ∧ truthy (track_duration track) = true) →
  let g := gate_of src st track in
  let o := outcome_of src service_name st track in
  process_track src service_name st track
  = Return (record_outcome st (exact_duration_tolerance g) o)
  ∧ ((∃ c, o = Alternative c)
     ↔ ¬ (∃ c, o = Exact c)
       ∧ (q0_5 ≤ alt_similarity_of src track)%Qc ∧ alt_duration_ok g = true)
  ∧ (∀ c, o = Alternative c →
       alt_version_penalty c
       = (if has_version (Str.lower (track_title track))
             && negb (has_version (Str.lower (title src)))
          then q0_1 else 0%Qc)
       ∧ alt_missing_data_penalty c
         = (if Str.all Str.is_space (track_album track) then q0_05 else 0%Qc)
       ∧ alt_total_penalty c = (alt_version_penalty c + alt_missing_data_penalty c)%Qc)
  ∧ (o = NoMatch
     ↔ ¬ (∃ c, o = Exact c)
       ∧ ¬ ((q0_5 ≤ alt_similarity_of src track)%Qc ∧ alt_duration_ok g = true)).
Proof.
  intros Hb g o. subst g o. split; [|split; [|split]].
  - by apply process_track_bound, gate_tolerance_bound.
  - apply classify_alternative_iff.
  - intros c Hc. apply classify_alternative_fields in Hc. subst c. simpl.
    by rewrite album_missing_blank.
  - unfold outcome_of.
    pose proof (classify_alternative_iff src service_name track
                  (exact_similarity_of src track) (alt_similarity_of src track)
                  (track_number_match_of (source_track_number src) (track_number track))
                  (gate_of src st track)) as Ha.
    destruct (classify _ _ _ _ _ _ _) as [c|c|] eqn:E.
    + split; [done|]. intros [Hn _]. destruct Hn. eauto.
    + split; [done|]. intros [Hn Hm]. destruct Hm. apply Ha. eauto.
    + split; [|done]. intros _. split; [by intros [c Hc]|].
      intros Hm. destruct (proj2 Ha) as [c Hc]; [|done].
      split; [by intros [c Hc]|done].
Qed.

(** C1, as the code has it. Take a candidate whose iteration gets past the
    debug output (the tolerance was assigned by an earlier iteration, or both
    durations are set and not 0), with track numbers from 1 on. The
    candidate is recorded as exact if and only if its exact similarity
    reaches the threshold, 0.4 when both track numbers are set and equal and
    0.75 otherwise, and the exact duration gate is open. The recorded
    candidate has [album_match] true exactly when both albums are non-empty
    and equal up to case, a missing album penalty of 0.05 when the candidate
    album is empty or all whitespace and of 0 otherwise, and the track number
    flag. *)
Theorem C1_exact_classification (src : Source) (service_name : string)
    (st : Locals) (track : Track) :
  valid_track_number (source_track_number src) →
  valid_track_number (track_number track) →
  is_Some (tolerance st)
  ∨ (truthy (source_duration_ms src) = true ∧ truthy (track_duration track) = true) →
  let tnm := spec_track_number_match (source_track_number src) (track_number track) in
  let g := gate_of src st track in
  let o := outcome_of src service_name st track in
  process_track src service_name st track
  = Return (record_outcome st (exact_duration_tolerance g) o)
  ∧ ((∃ c, o = Exact c)
     ↔ ((if tnm then q0_4 else q0_75) ≤ exact_similarity_of src track)%Qc
       ∧ exact_duration_ok g = true)
  ∧ (∀ c, o = Exact c →
       ex_track c = track
       ∧ ex_similarity c = exact_similarity_of src track
       ∧ ex_album_match c = spec_album_match (source_album src) (track_album track)
       ∧ ex_missing_data_penalty c
         = (if Str.all Str.is_space (track_album track) then q0_05 else 0%Qc)
       ∧ ex_track_number_match c = tnm).
Proof.
  intros Hs Ht Hb tnm g o. subst tnm g o. split; [|split].
  - by apply process_track_bound, gate_tolerance_bound.
  - unfold outcome_of. rewrite classify_exact_iff.
    by rewrite track_number_match_spec.
  - intros c Hc. unfold outcome_of in Hc. apply classify_exact_fields in Hc.
    subst c. simpl.
    by rewrite album_match_spec, album_missing_blank, track_number_match_spec.
Qed.

Lemma C1_exact_classification_witness :
  ∃ c, outcome_of Sample.yellow "apple" initial_locals Sample.yellow_itunes = Exact c.
Proof.
  destruct (C1_exact_classification Sample.yellow "apple" initial_locals
              Sample.yellow_itunes) as (_ & H & _).
  - simpl. lia.
  - simpl. lia.
  - right. split; reflexivity.
  - apply H. split; [|reflexivity].
    apply (bool_decide_unpack _). vm_compute. exact I.
Defined.

(** C1 as worded fails on the penalty: an album of one space is not empty,
    yet the recorded exact candidate carries the penalty 0.05. *)
Lemma C1_counterexample :
  ¬ (∀ src service_name track st',
       process_track src service_name initial_locals track = Return st' →
       ∀ c, c ∈ exact_candidates st' →
            ex_missing_data_penalty c = spec_missing_album_penalty (track_album track)).
Proof.
  intros H.
  assert (Ho : ∃ c, outcome_of Sample.yellow "spotify" initial_locals
                      Sample.yellow_blank_album = Exact c
                    ∧ ex_missing_data_penalty c = q0_05).
  { eexists. split; [vm_compute; reflexivity|reflexivity]. }
  destruct Ho as (c & Hc & Hp).
  assert (Hb : is_Some (exact_duration_tolerance
                          (gate_of Sample.yellow initial_locals Sample.yellow_blank_album))).
  { apply gate_tolerance_bound. right. split; reflexivity. }
  specialize (H Sample.yellow "spotify" Sample.yellow_blank_album _
                (process_track_bound _ "spotify" _ _ Hb)).
  rewrite Hc in H. specialize (H c). cbn [record_outcome exact_candidates] in H.
  rewrite Hp in H. specialize (H (list_elem_of_here _ _)).
  apply (f_equal this) in H. vm_compute in H. discriminate H.
Qed.

Lemma C10_zero_duration_is_unknown_witness :
  ∃ c, outcome_of Sample.yellow "spotify" Sample.later_iteration
         Sample.yellow_zero_duration = Exact c
       ∧ ex_duration_diff c = 0.
Proof.
  eexists. split; [vm_compute; reflexivity|].
  refine (proj1 (proj2 (proj2 (proj2 (proj2
    (C10_zero_duration_is_unknown Sample.yellow "spotify" Sample.later_iteration
       Sample.yellow_zero_duration _))))) _ _).
  - right; right; right. reflexivity.
  - vm_compute. reflexivity.
Defined.

(** C4, at a failing input. The live version found on YouTube has no
    duration. Its alternative similarity is 2/3, the alternative gate is
    open, it is not an exact match and the classifier would record it as an
    alternative with a version penalty of 0.1; but the iteration raises at
    the debug output, and with it the whole pass over the provider. *)
Theorem C4_alternative_lost_to_unbound_local :
  (q0_5 ≤ alt_similarity_of Sample.yellow Sample.yellow_live_youtube)%Qc
  ∧ alt_duration_ok (gate_of Sample.yellow initial_locals Sample.yellow_live_youtube) = true
  ∧ (∃ c, outcome_of Sample.yellow "youtube" initial_locals Sample.yellow_live_youtube
          = Alternative c
          ∧ alt_version_penalty c = q0_1)
  ∧ process_track Sample.yellow "youtube" initial_locals Sample.yellow_live_youtube
    = Raise UnboundLocalError
  ∧ process_results Sample.yellow "youtube" [Sample.yellow_live_youtube] ∅ ∅
    = Raise UnboundLocalError.
Proof.
  split; [|split; [|split; [|split]]].
  - apply (bool_decide_unpack _). vm_compute. exact I.
  - reflexivity.
  - eexists. split; [vm_compute; reflexivity|]. apply Qc_is_canon. reflexivity.
  - reflexivity.
  - reflexivity.
Qed.

(** C8, at a failing input. For the first YouTube result of a request the
    iteration assigns no outcome at all: it raises before the candidate is
    classified, and the exception leaves [find_equivalent_links]. *)
Theorem C8_no_outcome_on_unbound_local :
  process_track Sample.yellow "youtube" initial_locals Sample.yellow_video_youtube
  = Raise UnboundLocalError
  ∧ find_equivalent_links "Yellow" "Coldplay"
      (Sample.answering []) (Sample.answering [Sample.yellow_itunes])
      (Sample.answering [Sample.yellow_video_youtube])
      (Some 266773) (Some "Parachutes") (Some 1)
    = Raise UnboundLocalError.
Proof. split; vm_compute; reflexivity. Qed.

(** ** Ranker *)

Section Comparisons.
Context {X : Type}.

Lemma cmp_laws_refl (cmp : X → X → comparison) (x : X) :
  cmp_laws cmp → cmp x x = Eq.
Proof. intros [Ha _]. specialize (Ha x x). by destruct (cmp x x). Qed.

Lemma cmp_laws_lt_le (cmp : X → X → comparison) (x y z : X) :
  cmp_laws cmp → cmp x y = Lt → cmp y z ≠ Gt → cmp x z = Lt.
Proof.
  intros [Ha Ht] Hxy Hyz.
  assert (Hxz : cmp x z ≠ Gt) by (apply (Ht x y z); congruence).
  destruct (cmp x z) eqn:E; try done.
  assert (Hzx : cmp z x ≠ Gt) by (rewrite (Ha x z), E; done).
  pose proof (Ht y z x Hyz Hzx) as Hyx. rewrite (Ha x y), Hxy in Hyx. done.
Qed.

Lemma cmp_laws_le_lt (cmp : X → X → comparison) (x y z : X) :
  cmp_laws cmp → cmp x y ≠ Gt → cmp y z = Lt → cmp x z = Lt.
Proof.
  intros [Ha Ht] Hxy Hyz.
  assert (Hxz : cmp x z ≠ Gt) by (apply (Ht x y z); congruence).
  destruct (cmp x z) eqn:E; try done.
  assert (Hzx : cmp z x ≠ Gt) by (rewrite (Ha x z), E; done).
  pose proof (Ht z x y Hzx Hxy) as Hzy. rewrite (Ha y z), Hyz in Hzy. done.
Qed.

Lemma cmp_laws_eq_eq (cmp : X → X → comparison) (x y z : X) :
  cmp_laws cmp → cmp x y = Eq → cmp y z = Eq → cmp x z = Eq.
Proof.
  intros [Ha Ht] Hxy Hyz.
  assert (Hxz : cmp x z ≠ Gt) by (apply (Ht x y z); congruence).
  assert (Hzx : cmp z x ≠ Gt).
  { apply (Ht z y x); rewrite Ha; [rewrite Hyz|rewrite Hxy]; done. }
  rewrite (Ha x z) in Hzx. by destruct (cmp x z).
Qed.

(** Comparing on one component after another keeps the laws. *)
Lemma lex_laws (c1 c2 : X → X → comparison) :
  cmp_laws c1 → cmp_laws c2 → cmp_laws (λ x y, lex (c1 x y) (c2 x y)).
Proof.
  intros H1 H2. split.
  - intros x y. rewrite (proj1 H1 x y), (proj1 H2 x y).
    by destruct (c1 x y).
  - intros x y z Hxy Hyz.
    destruct (c1 x y) eqn:E1; simpl in Hxy; try done;
      destruct (c1 y z) eqn:E2; simpl in Hyz; try done.
    + rewrite (cmp_laws_eq_eq c1 x y z) by done. simpl.
      by apply (proj2 H2 x y z).
    + rewrite (cmp_laws_le_lt c1 x y z) by (done || congruence). done.
    + rewrite (cmp_laws_lt_le c1 x y z) by (done || congruence). done.
    + rewrite (cmp_laws_lt_le c1 x y z) by (done || congruence). done.
Qed.

Lemma Qc_cmp_laws (f : X → Qc) : cmp_laws (λ x y, (f x ?= f y)%Qc).
Proof.
  split.
  - intros x y. unfold Qccompare. symmetry. apply Qcompare_antisym.
  - intros x y z. rewrite <- !Qcle_alt. apply Qcle_trans.
Qed.

Lemma Z_cmp_laws (f : X → Z) : cmp_laws (λ x y, f x ?= f y).
Proof.
  split.
  - intros x y. apply Z.compare_antisym.
  - intros x y z. apply Z.le_trans.
Qed.

Lemma bool_cmp_laws (f : X → bool) : cmp_laws (λ x y, bool_compare (f x) (f y)).
Proof.
  split.
  - intros x y. by destruct (f x), (f y).
  - intros x y z. by destruct (f x), (f y), (f z).
Qed.
End Comparisons.

Section Ranking.
Context {A K : Type} (cmp : K → K → comparison) (key : A → K).
Hypothesis laws : cmp_laws cmp.

Lemma max_by_spec (rest : list A) (m : A) :
  max_by cmp key m rest ∈ m :: rest
  ∧ ∀ x, x ∈ m :: rest → cmp (key x) (key (max_by cmp key m rest)) ≠ Gt.
Proof.
  revert m. induction rest as [|item rest IH]; intros m; simpl.
  - split; [apply list_elem_of_here|].
    intros x ->%list_elem_of_singleton. by rewrite cmp_laws_refl.
  - set (m' := match cmp (key item) (key m) with Gt => item | _ => m end).
    destruct (IH m') as [Hin Hmax]. split.
    + apply elem_of_cons in Hin as [Hin|Hin].
      * rewrite Hin. unfold m'. destruct (cmp (key item) (key m));
          rewrite !elem_of_cons; auto.
      * rewrite !elem_of_cons; auto.
    + assert (Hm' : cmp (key m') (key (max_by cmp key m' rest)) ≠ Gt).
      { apply Hmax, list_elem_of_here. }
      assert (Hm : cmp (key m) (key m') ≠ Gt ∧ cmp (key item) (key m') ≠ Gt).
      { unfold m'. destruct (cmp (key item) (key m)) eqn:E.
        - rewrite cmp_laws_refl by done. by rewrite E.
        - rewrite cmp_laws_refl by done. by rewrite E.
        - rewrite cmp_laws_refl by done. split; [|done].
          by rewrite (proj1 laws (key item) (key m)), E. }
      intros x. rewrite !elem_of_cons. intros [->|[->|Hx]].
      * apply (proj2 laws _ (key m')); tauto.
      * apply (proj2 laws _ (key m')); tauto.
      * apply Hmax. rewrite elem_of_cons. auto.
Qed.

Lemma insert_by_perm (x : A) (l : list A) : insert_by cmp key x l ≡ₚ x :: l.
Proof.
  induction l as [|y l IH]; simpl; [done|].
  destruct (cmp (key y) (key x)); try done.
  by rewrite IH, Permutation_swap.
Qed.

Lemma sort_by_perm (l : list A) : sort_by cmp key l ≡ₚ l.
Proof.
  induction l as [|x l IH]; simpl; [done|]. by rewrite insert_by_perm, IH.
Qed.

Lemma insert_by_sorted (x : A) (l : list A) :
  StronglySorted (λ a b, cmp (key a) (key b) ≠ Gt) l →
  StronglySorted (λ a b, cmp (key a) (key b) ≠ Gt) (insert_by cmp key x l).
Proof.
  induction 1 as [|y l Hl IH Hy]; simpl.
  - by repeat constructor.
  - destruct (cmp (key y) (key x)) eqn:E.
    + constructor; [by constructor|]. constructor.
      * by rewrite (proj1 laws (key y) (key x)), E.
      * eapply Forall_impl; [|exact Hy]. intros z Hz. simpl in Hz.
        apply (proj2 laws _ (key y)); [|done].
        by rewrite (proj1 laws (key y) (key x)), E.
    + constructor; [done|]. rewrite insert_by_perm. constructor; [|done].
      by rewrite E.
    + constructor; [by constructor|]. constructor.
      * by rewrite (proj1 laws (key y) (key x)), E.
      * eapply Forall_impl; [|exact Hy]. intros z Hz. simpl in Hz.
        apply (proj2 laws _ (key y)); [|done].
        by rewrite (proj1 laws (key y) (key x)), E.
Qed.

Lemma sort_by_sorted (l : list A) :
  StronglySorted (λ a b, cmp (key a) (key b) ≠ Gt) (sort_by cmp key l).
Proof.
  induction l as [|x l IH]; simpl; [constructor|]. by apply insert_by_sorted.
Qed.
End Ranking.

Lemma StronglySorted_weaken {A : Type} (R S : A → A → Prop) (l : list A) :
  (∀ a b, R a b → S a b) → StronglySorted R l → StronglySorted S l.
Proof.
  intros HRS. induction 1 as [|x l Hl IH Hx]; constructor; [done|].
  eapply Forall_impl; [|exact Hx]. auto.
Qed.

Lemma cmp_laws_ext {X : Type} (c c' : X → X → comparison) :
  (∀ x y, c x y = c' x y) → cmp_laws c → cmp_laws c'.
Proof.
  intros He [Ha Ht]. split.
  - intros x y. rewrite <- !He. apply Ha.
  - intros x y z. rewrite <- !He. apply Ht.
Qed.

Lemma exact_key_laws : cmp_laws exact_key_compare.
Proof.
  eapply cmp_laws_ext; [|apply (lex_laws _ _ (Qc_cmp_laws (λ k, k.1.1.1.1))
    (lex_laws _ _ (bool_cmp_laws (λ k, k.1.1.1.2))
      (lex_laws _ _ (bool_cmp_laws (λ k, k.1.1.2))
        (lex_laws _ _ (Qc_cmp_laws (λ k, k.1.2)) (Z_cmp_laws (λ k, k.2))))))].
  by intros [[[[s1 a1] t1] p1] d1] [[[[s2 a2] t2] p2] d2].
Qed.

Lemma alt_key_laws : cmp_laws alt_key_compare.
Proof.
  eapply cmp_laws_ext; [|apply (lex_laws _ _ (Qc_cmp_laws (λ k, k.1.1))
    (lex_laws _ _ (Qc_cmp_laws (λ k, k.1.2)) (Z_cmp_laws (λ k, k.2))))].
  by intros [[s1 p1] d1] [[s2 p2] d2].
Qed.

Lemma Qccompare_refl (x : Qc) : (x ?= x)%Qc = Eq.
Proof. by apply Qceq_alt. Qed.

Lemma Qcopp_lt_swap (x y : Qc) : (x < y)%Qc → (- y < - x)%Qc.
Proof.
  unfold Qclt, Qcopp. simpl. rewrite !Qred_correct. apply Qopp_lt_compat.
Qed.

Lemma Qccompare_opp_gt (x y : Qc) : (x < y)%Qc → (- x ?= - y)%Qc = Gt.
Proof. intros H. apply Qcgt_alt. by apply Qcopp_lt_swap. Qed.

Lemma bool_compare_refl (b : bool) : bool_compare b b = Eq.
Proof. by destruct b. Qed.

(** A candidate that wins in the order of the specification has the greater
    key in the order of Python tuples. *)
Lemma beats_compare (a b : ExactCandidate) :
  beats a b → exact_key_compare (exact_key a) (exact_key b) = Gt.
Proof.
  unfold beats, exact_key, exact_key_compare.
  intros [Hs|[-> Hs]].
  { apply Qcgt_alt in Hs. by rewrite Hs. }
  rewrite Qccompare_refl. simpl.
  destruct Hs as [[-> ->]|[-> Hs]]; [done|]. rewrite bool_compare_refl. simpl.
  destruct Hs as [[-> ->]|[-> Hs]]; [done|]. rewrite bool_compare_refl. simpl.
  destruct Hs as [Hs|[-> Hs]].
  { by rewrite Qccompare_opp_gt. }
  rewrite Qccompare_refl. simpl. apply Z.compare_gt_iff. lia.
Qed.

Lemma Qcopp_lt_inv (x y : Qc) : (- x < - y)%Qc → (y < x)%Qc.
Proof.
  intros H. apply Qcopp_lt_swap in H. by rewrite !Qcopp_involutive in H.
Qed.

(** A sort by the Python key is a sort in the order of the specification. *)
Lemma alt_compare_not_after (a b : AltCandidate) :
  alt_key_compare (alt_key a) (alt_key b) ≠ Gt → alt_not_after a b.
Proof.
  unfold alt_key, alt_key_compare, alt_not_after.
  destruct (- alt_similarity a ?= - alt_similarity b)%Qc eqn:Es; simpl; [| |done].
  - apply Qceq_alt, (inj Qcopp) in Es. rewrite Es.
    destruct (alt_total_penalty a ?= alt_total_penalty b)%Qc eqn:Ep; simpl; [| |done].
    + apply Qceq_alt in Ep. rewrite Ep. intros Hd. right. split; [done|].
      right. split; [done|]. by apply Z.compare_le_iff.
    + apply Qclt_alt in Ep. intros _. right. split; [done|]. by left.
  - apply Qclt_alt, Qcopp_lt_inv in Es. intros _. by left.
Qed.


(** ** Orchestrator *)

Lemma process_track_tolerance (src : Source) (service_name : string)
    (st st' : Locals) (track : Track) :
  process_track src service_name st track = Return st' → is_Some (tolerance st').
Proof.
  unfold process_track.
  destruct (exact_duration_tolerance (gate_of src st track)) as [tol|] eqn:E; [|done].
  intros [= <-]. destruct (outcome_of src service_name st track); simpl; eauto.
Qed.

(** Once the tolerance is assigned, the rest of the loop runs to its end. *)
Lemma for_each_later (src : Source) (service_name : string) (results : list Track)
    (st : Locals) :
  is_Some (tolerance st) →
  ∃ st', for_each (process_track src service_name) st results = Return st'.
Proof.
  revert st. induction results as [|track results IH]; intros st Hst; [by eexists|].
  cbn [for_each]. rewrite process_track_bound by (apply gate_tolerance_bound; by left).
  cbn [mbind result_bind]. apply IH.
  eapply process_track_tolerance, process_track_bound, gate_tolerance_bound. by left.
Qed.

Lemma for_each_passes (src : Source) (service_name : string) (results : list Track) :
  trips_debug_output src results = false →
  ∃ st, for_each (process_track src service_name) initial_locals results = Return st.
Proof.
  destruct results as [|track results]; [by eexists|]. simpl trips_debug_output.
  intros [H1 H2]%negb_false_iff%andb_true_iff. cbn [for_each].
  assert (Hb : is_Some (exact_duration_tolerance (gate_of src initial_locals track))).
  { apply gate_tolerance_bound. by right. }
  rewrite process_track_bound by done. cbn [mbind result_bind].
  apply for_each_later. eapply process_track_tolerance. by apply process_track_bound.
Qed.

Lemma for_each_trips (src : Source) (service_name : string) (results : list Track) :
  trips_debug_output src results = true →
  for_each (process_track src service_name) initial_locals results
  = Raise UnboundLocalError.
Proof.
  destruct results as [|track results]; [done|]. simpl trips_debug_output.
  intros H%negb_true_iff%andb_false_iff. cbn [for_each].
  by rewrite process_track_unbound.
Qed.

(** [process_results] raises exactly when its first result trips the debug
    output. *)
Lemma process_results_raises (src : Source) (service_name : string)
    (results : list Track) (links_dict : gmap string string)
    (alt_dict : gmap string (list AltItem)) :
  trips_debug_output src results = true →
  process_results src service_name results links_dict alt_dict = Raise UnboundLocalError.
Proof. intros H. unfold process_results. by rewrite for_each_trips. Qed.

Lemma process_results_returns (src : Source) (service_name : string)
    (results : list Track) (links_dict : gmap string string)
    (alt_dict : gmap string (list AltItem)) :
  trips_debug_output src results = false →
  ∃ st, for_each (process_track src service_name) initial_locals results = Return st
        ∧ process_results src service_name results links_dict alt_dict
          = Return (store_links service_name (exact_candidates st) links_dict,
                    store_alternatives service_name (alt_candidates st) alt_dict).
Proof.
  intros H. destruct (for_each_passes src service_name results H) as [st Hst].
  exists st. split; [done|]. unfold process_results. by rewrite Hst.
Qed.

Lemma process_results_nil (src : Source) (service_name : string)
    (links_dict : gmap string string) (alt_dict : gmap string (list AltItem)) :
  process_results src service_name [] links_dict alt_dict = Return (links_dict, alt_dict).
Proof. reflexivity. Qed.

Lemma store_links_other (service_name k : string) (exacts : list ExactCandidate)
    (links_dict : gmap string string) :
  k ≠ service_name → store_links service_name exacts links_dict !! k = links_dict !! k.
Proof.
  intros Hk. destruct exacts; simpl; [done|]. by rewrite lookup_insert_ne.
Qed.

Lemma store_alternatives_other (service_name k : string) (alts : list AltCandidate)
    (alt_dict : gmap string (list AltItem)) :
  k ≠ service_name →
  store_alternatives service_name alts alt_dict !! k = alt_dict !! k.
Proof.
  intros Hk. destruct alts; simpl; [done|]. by rewrite lookup_insert_ne.
Qed.

(** A pass over one provider writes under the name of that provider only. *)
Lemma process_results_other (src : Source) (service_name k : string)
    (results : list Track) (links_dict links' : gmap string string)
    (alt_dict alt' : gmap string (list AltItem)) :
  process_results src service_name results links_dict alt_dict = Return (links', alt') →
  k ≠ service_name →
  links' !! k = links_dict !! k ∧ alt' !! k = alt_dict !! k.
Proof.
  unfold process_results.
  destruct (for_each _ _ _) as [st|e]; [|done]. cbn [mbind result_bind].
  intros [= <- <-] Hk. by rewrite store_links_other, store_alternatives_other.
Qed.

Lemma run_providers_other (src : Source) (providers : list (string * list Track))
    (k : string) (links links' : gmap string string)
    (alternatives alternatives' : gmap string (list AltItem)) :
  run_providers src providers links alternatives = Return (links', alternatives') →
  k ∉ providers.*1 →
  links' !! k = links !! k ∧ alternatives' !! k = alternatives !! k.
Proof.
  revert links alternatives.
  induction providers as [|[name results] providers IH]; intros links alternatives.
  - by intros [= <- <-].
  - cbn [run_providers fmap list_fmap fst].
    destruct (process_results src name results links alternatives) as [[l a]|e] eqn:E;
      [|done].
    cbn [mbind result_bind]. intros Hrun Hk. apply not_elem_of_cons in Hk as [Hk1 Hk2].
    destruct (IH _ _ Hrun Hk2) as [-> ->].
    by apply (process_results_other src name k results links l alternatives a).
Qed.

Lemma run_providers_skip_empty (src : Source) (before after : list (string * list Track))
    (service_name : string) (links : gmap string string)
    (alternatives : gmap string (list AltItem)) :
  run_providers src (before ++ (service_name, []) :: after) links alternatives
  = run_providers src (before ++ after) links alternatives.
Proof.
  revert links alternatives.
  induction before as [|[name results] before IH]; intros links alternatives.
  - reflexivity.
  - cbn [app run_providers].
    destruct (process_results src name results links alternatives) as [[l a]|e];
      [|done].
    cbn [mbind result_bind]. apply IH.
Qed.

Lemma find_equivalent_links_run (title artist : string)
    (spotify_api itunes_api yt_api : Provider) (source_duration_ms : option Z)
    (source_album : option string) (source_track_number : option Z) :
  find_equivalent_links title artist spotify_api itunes_api yt_api
    source_duration_ms source_album source_track_number
  = run_providers
      {| title := title; artist := artist; source_duration_ms := source_duration_ms;
         source_album := source_album; source_track_number := source_track_number |}
      [("spotify", search_track spotify_api title artist);
       ("apple", search_track itunes_api title artist);
       ("youtube", search_track yt_api title artist)] ∅ ∅.
Proof.
  unfold find_equivalent_links. cbn [run_providers].
  destruct (process_results _ "spotify" _ _ _) as [[l1 a1]|e]; [|done].
  cbn [mbind result_bind].
  destruct (process_results _ "apple" _ _ _) as [[l2 a2]|e]; [|done].
  cbn [mbind result_bind].
  by destruct (process_results _ "youtube" _ _ _) as [[l3 a3]|e].
Qed.

(** C9. A provider whose search returns the empty list leaves both
    dictionaries as they are: the outcome of the request, a result or an
    exception, is the one of the request without that provider, and a
    returned result has no entry under the name of that provider in [links]
    or in [alternatives]. *)
Theorem C9_empty_provider_contributes_nothing :
  (∀ src before after service_name links alternatives,
     run_providers src (before ++ (service_name, []) :: after) links alternatives
     = run_providers src (before ++ after) links alternatives)
  ∧ (∀ title artist spotify_api itunes_api yt_api sd sa stn,
       let src := {| title := title; artist := artist; source_duration_ms := sd;
                     source_album := sa; source_track_number := stn |} in
       let out := find_equivalent_links title artist spotify_api itunes_api yt_api
                    sd sa stn in
       let spotify := ("spotify", search_track spotify_api title artist) in
       let apple := ("apple", search_track itunes_api title artist) in
       let youtube := ("youtube", search_track yt_api title artist) in
       (search_track spotify_api title artist = [] →
          out = run_providers src [apple; youtube] ∅ ∅
          ∧ ∀ links alternatives, out = Return (links, alternatives) →
              links !! "spotify" = None ∧ alternatives !! "spotify" = None)
       ∧ (search_track itunes_api title artist = [] →
          out = run_providers src [spotify; youtube] ∅ ∅
          ∧ ∀ links alternatives, out = Return (links, alternatives) →
              links !! "apple" = None ∧ alternatives !! "apple" = None)
       ∧ (search_track yt_api title artist = [] →
          out = run_providers src [spotify; apple] ∅ ∅
          ∧ ∀ links alternatives, out = Return (links, alternatives) →
              links !! "youtube" = None ∧ alternatives !! "youtube" = None)).
Proof.
  split; [apply run_providers_skip_empty|].
  intros title artist spotify_api itunes_api yt_api sd sa stn src out spotify apple youtube.
  subst out spotify apple youtube. rewrite find_equivalent_links_run. fold src.
  split; [|split]; intros Hnil; rewrite Hnil.
  - pose proof (run_providers_skip_empty src []
        [("apple", search_track itunes_api title artist);
         ("youtube", search_track yt_api title artist)] "spotify" ∅ ∅) as E.
    cbn [app] in E. rewrite E.
    split; [done|]. intros l a Hrun.
    rewrite <- (lookup_empty (M:=gmap string) (A:=string) "spotify").
    rewrite <- (lookup_empty (M:=gmap string) (A:=list AltItem) "spotify").
    apply (run_providers_other _ _ _ _ _ _ _ Hrun).
    cbn. rewrite !not_elem_of_cons. repeat split; try done. apply not_elem_of_nil.
  - pose proof (run_providers_skip_empty src
        [("spotify", search_track spotify_api title artist)]
        [("youtube", search_track yt_api title artist)] "apple" ∅ ∅) as E.
    cbn [app] in E. rewrite E.
    split; [done|]. intros l a Hrun.
    rewrite <- (lookup_empty (M:=gmap string) (A:=string) "apple").
    rewrite <- (lookup_empty (M:=gmap string) (A:=list AltItem) "apple").
    apply (run_providers_other _ _ _ _ _ _ _ Hrun).
    cbn. rewrite !not_elem_of_cons. repeat split; try done. apply not_elem_of_nil.
  - pose proof (run_providers_skip_empty src
        [("spotify", search_track spotify_api title artist);
         ("apple", search_track itunes_api title artist)] [] "youtube" ∅ ∅) as E.
    cbn [app] in E. rewrite E.
    split; [done|]. intros l a Hrun.
    rewrite <- (lookup_empty (M:=gmap string) (A:=string) "youtube").
    rewrite <- (lookup_empty (M:=gmap string) (A:=list AltItem) "youtube").
    apply (run_providers_other _ _ _ _ _ _ _ Hrun).
    cbn. rewrite !not_elem_of_cons. repeat split; try done. apply not_elem_of_nil.
Qed.

Lemma C9_empty_provider_contributes_nothing_witness :
  find_equivalent_links "Yellow" "Coldplay"
    (Sample.answering []) (Sample.answering [Sample.yellow_itunes])
    (Sample.answering []) (Some 266773) (Some "Parachutes") (Some 1)
  = run_providers Sample.yellow
      [("apple", [Sample.yellow_itunes]); ("youtube", [])] ∅ ∅.
Proof.
  apply (proj2 C9_empty_provider_contributes_nothing "Yellow" "Coldplay"
           (Sample.answering []) (Sample.answering [Sample.yellow_itunes])
           (Sample.answering []) (Some 266773) (Some "Parachutes") (Some 1)).
  reflexivity.
Defined.

(** *** A source without tokens *)

Lemma ratio_zero (n : nat) : ratio 0 n = 0%Qc.
Proof. apply Qc_is_canon. unfold ratio. simpl. by rewrite Qred_correct. Qed.

Lemma subset_similarity_no_source (B : gset string) (k : Z) :
  subset_similarity ∅ B k = 0%Qc.
Proof.
  unfold subset_similarity. repeat case_match; try done.
  by rewrite (right_absorb_L ∅ (∩)), size_empty, ratio_zero.
Qed.

Lemma classify_zero (src : Source) (service_name : string) (track : Track)
    (tnm : bool) (g : Gate) :
  classify src service_name track 0%Qc 0%Qc tnm g = NoMatch.
Proof. unfold classify. by destruct tnm. Qed.

Lemma outcome_no_tokens (src : Source) (service_name : string) (st : Locals)
    (track : Track) :
  source_exact_tokens src = ∅ → source_alt_tokens src = ∅ →
  outcome_of src service_name st track = NoMatch.
Proof.
  intros He Ha. unfold outcome_of, exact_similarity_of, alt_similarity_of.
  rewrite He, Ha, !subset_similarity_no_source. apply classify_zero.
Qed.

Lemma process_track_no_tokens (src : Source) (service_name : string)
    (st st' : Locals) (track : Track) :
  source_exact_tokens src = ∅ → source_alt_tokens src = ∅ →
  process_track src service_name st track = Return st' →
  exact_candidates st' = exact_candidates st ∧ alt_candidates st' = alt_candidates st.
Proof.
  intros He Ha. unfold process_track.
  destruct (exact_duration_tolerance (gate_of src st track)) as [tol|]; [|done].
  rewrite outcome_no_tokens by done. by intros [= <-].
Qed.

Lemma for_each_no_tokens (src : Source) (service_name : string)
    (results : list Track) (st st' : Locals) :
  source_exact_tokens src = ∅ → source_alt_tokens src = ∅ →
  for_each (process_track src service_name) st results = Return st' →
  exact_candidates st' = exact_candidates st ∧ alt_candidates st' = alt_candidates st.
Proof.
  intros He Ha. revert st. induction results as [|track results IH]; intros st.
  - by intros [= <-].
  - cbn [for_each].
    destruct (process_track src service_name st track) as [st1|e] eqn:E; [|done].
    cbn [mbind result_bind]. intros H.
    destruct (process_track_no_tokens _ _ _ _ _ He Ha E) as [<- <-]. by apply IH.
Qed.

Lemma process_results_no_tokens (src : Source) (service_name : string)
    (results : list Track) (links_dict : gmap string string)
    (alt_dict : gmap string (list AltItem)) :
  source_exact_tokens src = ∅ → source_alt_tokens src = ∅ →
  trips_debug_output src results = false →
  process_results src service_name results links_dict alt_dict
  = Return (links_dict, alt_dict).
Proof.
  intros He Ha Ht.
  destruct (process_results_returns src service_name results links_dict alt_dict Ht)
    as (st & Hst & ->).
  destruct (for_each_no_tokens _ _ _ _ _ He Ha Hst) as [-> ->]. done.
Qed.

(** C7, as the code has it. [find_equivalent_links] has no guard of its
    own. When the source has no token at all (title, artist and album are
    all missing or empty, or hold nothing but punctuation and stop words),
    every candidate scores 0 and is rejected, so that the request returns
    empty links and empty alternatives whatever the providers answer, as long
    as no pass trips the debug output. *)
Theorem C7_no_tokens_no_links (title artist : string)
    (spotify_api itunes_api yt_api : Provider) (sd : option Z)
    (sa : option string) (stn : option Z) :
  let src := {| title := title; artist := artist; source_duration_ms := sd;
                source_album := sa; source_track_number := stn |} in
  source_exact_tokens src = ∅ → source_alt_tokens src = ∅ →
  trips_debug_output src (search_track spotify_api title artist) = false →
  trips_debug_output src (search_track itunes_api title artist) = false →
  trips_debug_output src (search_track yt_api title artist) = false →
  find_equivalent_links title artist spotify_api itunes_api yt_api sd sa stn
  = Return (∅, ∅).
Proof.
  intros src He Ha H1 H2 H3. unfold find_equivalent_links. fold src.
  rewrite (process_results_no_tokens src "spotify") by done.
  cbn [mbind result_bind].
  rewrite (process_results_no_tokens src "apple") by done.
  cbn [mbind result_bind].
  by rewrite (process_results_no_tokens src "youtube") by done.
Qed.

Lemma C7_no_tokens_no_links_witness :
  find_equivalent_links "" "" (Sample.answering [Sample.yellow_itunes])
    (Sample.answering [Sample.yellow_blank_album; Sample.yellow_live_youtube])
    (Sample.answering []) (Some 266773) None (Some 1)
  = Return (∅, ∅).
Proof.
  apply (C7_no_tokens_no_links "" "" (Sample.answering [Sample.yellow_itunes])
           (Sample.answering [Sample.yellow_blank_album; Sample.yellow_live_youtube])
           (Sample.answering []) (Some 266773) None (Some 1)); reflexivity.
Defined.

(** C7 as worded fails when one of title and artist is there: without a
    title, the artist and the album of the source still make an exact match
    of the track named after the album. *)
Lemma C7_counterexample :
  ¬ (∀ title artist spotify_api itunes_api yt_api sd sa stn,
       title = "" ∨ artist = "" →
       find_equivalent_links title artist spotify_api itunes_api yt_api sd sa stn
       = Return (∅, ∅)).
Proof.
  intros H.
  specialize (H "" "Coldplay" (Sample.answering [Sample.parachutes_title_track])
                (Sample.answering []) (Sample.answering [])
                (Some 266773) (Some "Parachutes") None (or_introl eq_refl)).
  assert (E : ∃ links alternatives,
            find_equivalent_links "" "Coldplay"
              (Sample.answering [Sample.parachutes_title_track])
              (Sample.answering []) (Sample.answering [])
              (Some 266773) (Some "Parachutes") None = Return (links, alternatives)
            ∧ links !! "spotify"
              = Some (track_url Sample.parachutes_title_track)).
  { eexists _, _. split; vm_compute; reflexivity. }
  destruct E as (links & alternatives & E & Hl).
  rewrite H in E. injection E as <- <-. by rewrite lookup_empty in Hl.
Qed.

(** ** The scenarios of the specification *)

Example normalize_string_example :
  normalize_string "  Yellow (Live) -  Feat. X! " = "yellow live feat x".
Proof. reflexivity. Qed.

Example create_token_set_example :
  create_token_set "Yellow (Live)" "Coldplay feat. X" ""
  = list_to_set ["yellow"; "live"; "coldplay"].
Proof. vm_compute. reflexivity. Qed.

(** Scenario 1: the same track with a duration 773 ms off and the same track
    number is the exact match of its provider. *)
Example scenario_exact_link :
  find_equivalent_links "Yellow" "Coldplay"
    (Sample.answering []) (Sample.answering [Sample.yellow_itunes])
    (Sample.answering []) (Some 266773) (Some "Parachutes") (Some 1)
  = Return ({[ "apple" := track_url Sample.yellow_itunes ]}, ∅).
Proof. vm_compute. reflexivity. Qed.

(** Scenario 2, after a result that has a duration: the live version is an
    alternative with the version penalty. *)
Example scenario_live_alternative :
  ∃ c, outcome_of Sample.yellow "spotify" Sample.later_iteration
         Sample.yellow_live_youtube = Alternative c
       ∧ alt_similarity c = ratio 2 3
       ∧ alt_version_penalty c = q0_1
       ∧ alt_total_penalty c = Q2Qc (3 # 20).
Proof.
  eexists. split; [vm_compute; reflexivity|].
  repeat split; apply Qc_is_canon; reflexivity.
Qed.

(** Scenario 3: a candidate with a single token scores 0. *)
Example scenario_single_token :
  subset_similarity (source_alt_tokens Sample.yellow)
    (create_token_set "Yellow" "" "") default_min_candidate_tokens = 0%Qc.
Proof. apply subset_similarity_low. right. vm_compute. reflexivity. Qed.

(** The duration tolerance of the specification: 4.5 s off passes the exact
    gate with matching track numbers and fails it without. *)
Example duration_tolerance_example :
  exact_duration_ok (duration_gate (Some 266773) (Some 262273) true None) = true
  ∧ exact_duration_ok (duration_gate (Some 266773) (Some 262273) false None) = false.
Proof. split; reflexivity. Qed.

(** * Further properties *)

(** ** Tokenizer *)

Lemma all_lstrip (p : ascii → bool) (s : string) :
  Str.all p s = true → Str.all p (Str.lstrip s) = true.
Proof.
  induction s as [|c s IH]; [done|]. simpl. intros H.
  destruct (Str.is_space c); [|done]. apply IH.
  by apply andb_true_iff in H as [_ ?].
Qed.

Lemma all_rstrip (p : ascii → bool) (s : string) :
  Str.all p s = true → Str.all p (Str.rstrip s) = true.
Proof.
  induction s as [|c s IH]; [done|]. simpl. intros [Hc Hs]%andb_true_iff.
  specialize (IH Hs). destruct (Str.rstrip s) as [|c' r].
  - destruct (Str.is_space c); simpl; [done|]. by rewrite Hc.
  - cbn [Str.all] in *. by rewrite Hc, IH.
Qed.

Lemma all_strip (p : ascii → bool) (s : string) :
  Str.all p s = true → Str.all p (Str.strip s) = true.
Proof. intros H. by apply all_rstrip, all_lstrip. Qed.

Lemma all_collapse (p : ascii → bool) (s : string) :
  p " "%char = true → Str.all p s = true →
  Str.all p (Str.collapse_whitespace s) = true.
Proof.
  intros Hsp. induction s as [|c s IH]; [done|]. cbn [Str.all Str.collapse_whitespace].
  intros [Hc Hs]%andb_true_iff. specialize (IH Hs).
  destruct (Str.is_space c); [destruct (Str.starts_with_space s)|];
    cbn [Str.all]; by rewrite ?Hsp, ?Hc, ?IH.
Qed.

Lemma all_filter_str (p : ascii → bool) (s : string) :
  Str.all p (Str.filter p s) = true.
Proof.
  induction s as [|c s IH]; [done|]. simpl. destruct (p c) eqn:Hc; [|done].
  simpl. by rewrite Hc.
Qed.

Lemma all_filter_keeps (p q : ascii → bool) (s : string) :
  Str.all p s = true → Str.all p (Str.filter q s) = true.
Proof.
  induction s as [|c s IH]; [done|]. simpl. intros [Hc Hs]%andb_true_iff.
  destruct (q c); simpl; rewrite ?Hc; by apply IH.
Qed.

Lemma all_lower_fixed (s : string) :
  Str.all (λ c, Ascii.eqb (Str.lower_char c) c) (Str.lower s) = true.
Proof.
  unfold Str.lower. induction s as [|c s IH]; [done|]. simpl.
  by rewrite lower_char_idem, Ascii.eqb_refl.
Qed.

Lemma lower_fixed (s : string) :
  Str.all (λ c, Ascii.eqb (Str.lower_char c) c) s = true → Str.lower s = s.
Proof.
  apply map_id_str. intros c Hc. by apply Ascii.eqb_eq.
Qed.

Lemma rstrip_head (s : string) :
  Str.starts_with_space (Str.rstrip s) = true → Str.starts_with_space s = true.
Proof.
  destruct s as [|c s]; [done|]. simpl.
  destruct (Str.rstrip s); [destruct (Str.is_space c) eqn:Hc|]; simpl; congruence.
Qed.

Lemma rstrip_idem (s : string) : Str.rstrip (Str.rstrip s) = Str.rstrip s.
Proof.
  induction s as [|c s IH]; [done|]. cbn [Str.rstrip].
  destruct (Str.rstrip s) as [|c' r] eqn:E.
  - destruct (Str.is_space c) eqn:Hc; [done|]. simpl. by rewrite Hc.
  - cbn [Str.rstrip]. cbn [Str.rstrip] in IH. by rewrite IH.
Qed.

Lemma lstrip_no_space (s : string) :
  Str.starts_with_space s = false → Str.lstrip s = s.
Proof. destruct s as [|c s]; [done|]. simpl. by intros ->. Qed.

Lemma lstrip_head (s : string) : Str.starts_with_space (Str.lstrip s) = false.
Proof.
  induction s as [|c s IH]; [done|]. simpl.
  destruct (Str.is_space c) eqn:Hc; [done|]. simpl. done.
Qed.

Lemma strip_idem (s : string) : Str.strip (Str.strip s) = Str.strip s.
Proof.
  unfold Str.strip. rewrite (lstrip_no_space (Str.rstrip _)); [apply rstrip_idem|].
  destruct (Str.starts_with_space (Str.rstrip (Str.lstrip s))) eqn:E; [|done].
  apply rstrip_head in E. by rewrite lstrip_head in E.
Qed.

Lemma single_spaced_collapse (s : string) :
  single_spaced (Str.collapse_whitespace s) = true.
Proof.
  induction s as [|c s IH]; [done|]. cbn [Str.collapse_whitespace].
  destruct (Str.is_space c) eqn:Hc.
  - destruct (Str.starts_with_space s) eqn:Hs; [done|].
    cbn [single_spaced]. rewrite IH. destruct (collapse_head s) as [-> _].
    by rewrite Hs.
  - cbn [single_spaced]. by rewrite Hc, IH.
Qed.

Lemma collapse_single_spaced (s : string) :
  single_spaced s = true → Str.collapse_whitespace s = s.
Proof.
  induction s as [|c s IH]; [done|]. cbn [single_spaced Str.collapse_whitespace].
  intros [Hc Hs]%andb_true_iff. rewrite (IH Hs).
  destruct (Str.is_space c); [|done].
  apply andb_true_iff in Hc as [Hc%Ascii.eqb_eq Hn%negb_true_iff].
  by rewrite Hn, Hc.
Qed.

Lemma single_spaced_lstrip (s : string) :
  single_spaced s = true → single_spaced (Str.lstrip s) = true.
Proof.
  induction s as [|c s IH]; [done|]. intros H. cbn [Str.lstrip].
  destruct (Str.is_space c); [|done]. apply IH.
  cbn [single_spaced] in H. by apply andb_true_iff in H as [_ ?].
Qed.

Lemma single_spaced_rstrip (s : string) :
  single_spaced s = true → single_spaced (Str.rstrip s) = true.
Proof.
  induction s as [|c s IH]; [done|]. cbn [single_spaced Str.rstrip].
  intros [Hc Hs]%andb_true_iff. specialize (IH Hs).
  destruct (Str.rstrip s) as [|c' r] eqn:E.
  - destruct (Str.is_space c) eqn:Hsp; [done|]. simpl. by rewrite Hsp.
  - cbn [single_spaced] in *. rewrite IH, andb_true_r.
    destruct (Str.is_space c); [|done].
    apply andb_true_iff in Hc as [Hc Hn]. rewrite Hc. simpl.
    destruct (Str.is_space c') eqn:Hc'; [|done].
    assert (Str.starts_with_space s = true).
    { apply rstrip_head. by rewrite E. }
    by rewrite H in Hn.
Qed.

(** X1. [normalize_string] is idempotent: its result is lowercase, without
    punctuation, single-spaced and stripped, and normalizing it again
    changes nothing. *)
Theorem normalize_string_idempotent (s : string) :
  normalize_string (normalize_string s) = normalize_string s.
Proof.
  set (n := normalize_string s).
  assert (Hl : Str.all (λ c, Ascii.eqb (Str.lower_char c) c) n = true).
  { apply all_strip, all_collapse; [done|]. apply all_filter_keeps, all_lower_fixed. }
  assert (Hk : Str.all (λ c, Str.is_word c || Str.is_space c) n = true).
  { apply all_strip, all_collapse; [done|]. apply all_filter_str. }
  assert (Ht : single_spaced n = true).
  { unfold n, normalize_string, Str.strip.
    apply single_spaced_rstrip, single_spaced_lstrip, single_spaced_collapse. }
  unfold normalize_string at 1.
  rewrite (lower_fixed n Hl), (filter_all_str _ n Hk), (collapse_single_spaced n Ht).
  apply strip_idem.
Qed.

Lemma split_head_word (s : string) :
  Str.starts_with_space s = false → Str.nonempty s = true → Str.split s ≠ [].
Proof.
  destruct s as [|c s]; [done|]. simpl Str.starts_with_space. intros Hc _.
  rewrite split_cons_word by done.
  destruct (_ || _); [done|]. by destruct (Str.split s).
Qed.

Lemma split_app_sep (x y : string) (c : ascii) :
  Str.is_space c = true →
  Str.split (x +:+ String c y) = Str.split x ++ Str.split y.
Proof.
  intros Hc. induction x as [|d x IH].
  - by rewrite app_empty_l, split_cons_space.
  - rewrite app_cons. destruct (Str.is_space d) eqn:Hd.
    + by rewrite !split_cons_space.
    + rewrite !split_cons_word by done. rewrite IH.
      destruct x as [|e x].
      * rewrite app_empty_l. simpl. by rewrite Hc.
      * rewrite app_cons. cbn [Str.starts_with_space Str.nonempty negb].
        rewrite !orb_false_r. destruct (Str.is_space e) eqn:He; [done|].
        pose proof (split_head_word (String e x)) as Hne.
        destruct (Str.split (String e x)) as [|w ws]; [|done].
        by destruct Hne.
Qed.

Lemma field_tokens_alone (field : string) :
  create_token_set field "" "" = field_tokens field.
Proof.
  rewrite create_token_set_canon. unfold field_tokens.
  rewrite canon_app. by rewrite split_app_space_r.
Qed.

Lemma create_token_set_fields (title artist album : string) :
  create_token_set title artist album
  = field_tokens title ∪ field_tokens artist ∪ field_tokens album.
Proof.
  rewrite create_token_set_canon. unfold field_tokens.
  rewrite !canon_app.
  change (without_punctuation (Str.lower " ")) with " ".
  rewrite !app_cons, !app_empty_l, !split_app_sep by done.
  rewrite !filter_app, !list_to_set_app_L. by rewrite (assoc_L (∪)).
Qed.

Lemma field_tokens_empty : field_tokens "" = ∅.
Proof. reflexivity. Qed.

Lemma alt_tokens_subseteq (title artist album : string) :
  create_token_set title artist "" ⊆ create_token_set title artist album.
Proof.
  rewrite !create_token_set_fields. intros x. rewrite !elem_of_union.
  intros [[?|?]|H]; [tauto|tauto|]. by apply elem_of_empty in H.
Qed.

(** X2. The token set of a record is the union of the token sets of its three
    fields, so that the order of the fields does not matter, and the album
    adds its own tokens and nothing else: the tokens used for the
    alternative similarity are among those used for the exact similarity. *)
Theorem token_set_union_of_fields (title artist album : string) :
  create_token_set title artist album
  = create_token_set title "" "" ∪ create_token_set artist "" ""
    ∪ create_token_set album "" ""
  ∧ create_token_set title artist album = create_token_set artist title album
  ∧ create_token_set title artist album = create_token_set album artist title
  ∧ create_token_set title artist "" ⊆ create_token_set title artist album.
Proof.
  split; [|split; [|split]]; [| | |apply alt_tokens_subseteq];
    rewrite ?field_tokens_alone, !create_token_set_fields; [done| |];
    apply set_eq; intros x; rewrite !elem_of_union; tauto.
Qed.

Lemma split_words_all (p : ascii → bool) (s : string) :
  Str.all (λ c, Str.is_space c || p c) s = true →
  Forall (λ w, Str.all p w = true) (Str.split s).
Proof.
  induction s as [|c s IH]; [constructor|]. cbn [Str.all].
  intros [Hc Hs]%andb_true_iff. specialize (IH Hs).
  destruct (Str.is_space c) eqn:Hsp.
  - by rewrite split_cons_space.
  - rewrite split_cons_word by done. simpl in Hc.
    destruct (_ || _).
    + constructor; [simpl; by rewrite Hc|done].
    + destruct (Str.split s) as [|w ws]; [constructor; [simpl; by rewrite Hc|done]|].
      inversion IH as [|? ? Hw Hws]; subst. constructor; [|done].
      simpl. by rewrite Hc, Hw.
Qed.

Lemma canon_chars (s : string) :
  Str.all (λ c, Str.is_space c || is_token_char c)
    (without_punctuation (Str.lower s)) = true.
Proof.
  unfold without_punctuation, Str.lower, is_token_char, is_punctuation.
  induction s as [|c s IH]; [done|]. simpl.
  destruct (Str.is_word (Str.lower_char c) || Str.is_space (Str.lower_char c)) eqn:E;
    simpl; [|done].
  rewrite IH, andb_true_r, lower_char_idem, Ascii.eqb_refl, andb_true_r.
  by rewrite orb_comm.
Qed.

(** X3. Every token is made of word characters only, none of them uppercase:
    a token holds no whitespace and no punctuation, and lowercasing it
    changes nothing. *)
Theorem tokens_are_lowercase_words (title artist album token : string) :
  token ∈ create_token_set title artist album →
  Str.all Str.is_word token = true
  ∧ Str.all (λ c, negb (Str.is_space c)) token = true
  ∧ Str.lower token = token.
Proof.
  rewrite create_token_set_canon, elem_of_list_to_set, list_elem_of_In, filter_In.
  intros [Hin _].
  pose proof (split_words_all is_token_char _ (canon_chars
                (title +:+ " " +:+ artist +:+ " " +:+ album))) as Hall.
  rewrite Forall_forall in Hall. specialize (Hall _ Hin).
  assert (H : ∀ q : ascii → bool, (∀ c, is_token_char c = true → q c = true) →
              Str.all q token = true).
  { intros q Hq. clear -Hall Hq. induction token as [|c w IH]; [done|].
    simpl in *. apply andb_true_iff in Hall as [Hc Hw].
    by rewrite (Hq c Hc), IH. }
  split; [|split].
  - apply H. intros c. unfold is_token_char. by intros [? _]%andb_true_iff.
  - apply H. intros c. unfold is_token_char.
    destruct c as [[] [] [] [] [] [] [] []]; (reflexivity || discriminate).
  - apply lower_fixed, H. intros c. unfold is_token_char.
    by intros [_ ?]%andb_true_iff.
Qed.

Lemma tokens_are_lowercase_words_witness :
  Str.lower "coldplay" = "coldplay".
Proof.
  apply (tokens_are_lowercase_words "Yellow (Live)" "COLDPLAY" "" "coldplay").
  apply (bool_decide_unpack _). vm_compute. exact I.
Defined.

(** ** Similarity scorer *)

Lemma ratio_le (m m' n : nat) :
  (m ≤ m')%nat → (0 < n)%nat → (ratio m n ≤ ratio m' n)%Qc.
Proof.
  intros Hm Hn. unfold ratio, Qcle; simpl. rewrite !Qred_correct.
  unfold Qle; simpl. rewrite Zpos_of_nat by done. nia.
Qed.

Lemma ratio_le_den (m n n' : nat) :
  (0 < n)%nat → (n ≤ n')%nat → (ratio m n' ≤ ratio m n)%Qc.
Proof.
  intros Hn Hn'. unfold ratio, Qcle; simpl. rewrite !Qred_correct.
  unfold Qle; simpl. rewrite !Zpos_of_nat by lia. nia.
Qed.

Lemma ratio_one_iff (m n : nat) : (0 < n)%nat → ratio m n = 1%Qc ↔ m = n.
Proof.
  intros Hn. split; [|intros ->; by apply ratio_full].
  intros H. apply (f_equal this) in H. unfold ratio in H. simpl in H.
  assert (Hq : (Z.of_nat m # Pos.of_nat n) == 1).
  { rewrite <- (Qred_correct (Z.of_nat m # Pos.of_nat n)), H. reflexivity. }
  unfold Qeq in Hq. simpl in Hq. rewrite Zpos_of_nat in Hq by done. lia.
Qed.

Lemma ratio_zero_iff (m n : nat) : ratio m n = 0%Qc ↔ m = 0%nat.
Proof.
  split; [|intros ->; apply ratio_zero].
  intros H. apply (f_equal this) in H. unfold ratio in H. simpl in H.
  assert (Hq : (Z.of_nat m # Pos.of_nat n) == 0).
  { rewrite <- (Qred_correct (Z.of_nat m # Pos.of_nat n)), H. reflexivity. }
  unfold Qeq in Hq. simpl in Hq. lia.
Qed.

(** X4. More source tokens never lower the similarity of a candidate. *)
Theorem subset_similarity_monotone (A A' B : gset string) (k : Z) :
  A ⊆ A' → (subset_similarity A B k ≤ subset_similarity A' B k)%Qc.
Proof.
  intros HA. unfold subset_similarity.
  case_bool_decide as HB; [done|].
  destruct (Z.of_nat (size B) <? k); [done|].
  apply ratio_le.
  - apply subseteq_size. intros x. rewrite !elem_of_intersection. intros [? ?].
    split; [done|]. by apply HA.
  - destruct (decide (size B = 0%nat)) as [H0|]; [|lia].
    apply size_empty_iff in H0. by destruct HB; apply leibniz_equiv.
Qed.

Lemma subset_similarity_monotone_witness :
  (subset_similarity (list_to_set ["yellow"]) (list_to_set ["yellow"; "coldplay"]) 2
   ≤ subset_similarity (list_to_set ["yellow"; "coldplay"])
       (list_to_set ["yellow"; "coldplay"]) 2)%Qc.
Proof.
  apply subset_similarity_monotone. apply (bool_decide_unpack _). vm_compute. exact I.
Defined.

(** X5. For a candidate with at least two tokens the similarity is 1 exactly
    when every candidate token is a source token, and 0 exactly when none
    is. *)
Theorem subset_similarity_extremes (A B : gset string) :
  (2 ≤ size B)%nat →
  (subset_similarity A B default_min_candidate_tokens = 1%Qc ↔ B ⊆ A)
  ∧ (subset_similarity A B default_min_candidate_tokens = 0%Qc ↔ B ∩ A = ∅).
Proof.
  intros HB. destruct (size_two_nonempty B HB) as [Hne Hpos].
  unfold default_min_candidate_tokens.
  rewrite subset_similarity_ratio by (done || lia).
  rewrite ratio_one_iff by done. rewrite ratio_zero_iff. split.
  - split.
    + intros Hs. assert (HE : B ∩ A = B).
      { apply set_subseteq_size_eq; [apply intersection_subseteq_l|lia]. }
      rewrite <- HE. apply intersection_subseteq_r.
    + intros Hs. by rewrite (subseteq_intersection_1_L B A Hs).
  - rewrite size_empty_iff. by unfold_leibniz.
Qed.

Lemma subset_similarity_extremes_witness :
  subset_similarity (list_to_set ["parachutes"]) (list_to_set ["yellow"; "coldplay"])
    default_min_candidate_tokens = 0%Qc.
Proof.
  apply subset_similarity_extremes; [vm_compute; lia|].
  apply (bool_decide_unpack _). vm_compute. exact I.
Defined.

Lemma union_size_zero (A B : gset string) :
  size (A ∪ B) = 0%nat ↔ A = ∅ ∧ B = ∅.
Proof.
  rewrite size_empty_iff. unfold_leibniz. split.
  - intros H. split; apply set_equiv; intros x; split; try done;
      intros Hx; apply (proj1 (H x)); rewrite elem_of_union; auto.
  - intros [-> ->]. by rewrite (left_id ∅ (∪)).
Qed.

(** X6. [jaccard_similarity] raises [ZeroDivisionError] exactly when both sets
    are empty; otherwise it returns a value between 0 and 1 that does not
    depend on the order of its arguments and is 1 exactly for equal sets. *)
Theorem jaccard_similarity_spec (A B : gset string) :
  (jaccard_similarity A B = inl ZeroDivisionError ↔ A = ∅ ∧ B = ∅)
  ∧ jaccard_similarity A B = jaccard_similarity B A
  ∧ (∀ q, jaccard_similarity A B = inr q →
       (0 ≤ q ≤ 1)%Qc ∧ (q = 1%Qc ↔ A = B)).
Proof.
  unfold jaccard_similarity. split; [|split].
  - destruct (Nat.eqb_spec (size (A ∪ B)) 0) as [H0|H0].
    + split; [|done]. intros _. by apply union_size_zero.
    + split; [done|]. intros H. by apply union_size_zero in H.
  - by rewrite (comm_L (∪) A B), (comm_L (∩) A B).
  - intros q. destruct (Nat.eqb_spec (size (A ∪ B)) 0) as [H0|H0]; [done|].
    intros [= <-].
    assert (Hsub : A ∩ B ⊆ A ∪ B).
    { intros x. rewrite elem_of_intersection, elem_of_union. tauto. }
    split.
    + apply ratio_bounds; [by apply subseteq_size|lia].
    + rewrite ratio_one_iff by lia. split.
      * intros Hs.
        assert (HE : A ∩ B = A ∪ B) by (apply set_subseteq_size_eq; [done|lia]).
        apply set_eq. intros x.
        assert (Hx : x ∈ A ∩ B ↔ x ∈ A ∪ B) by (by rewrite HE).
        rewrite elem_of_intersection, elem_of_union in Hx. tauto.
      * intros ->. by rewrite (idemp_L (∩) B), (idemp_L (∪) B).
Qed.

Lemma jaccard_similarity_spec_witness :
  ∃ q, jaccard_similarity (list_to_set ["yellow"; "coldplay"])
         (list_to_set ["yellow"; "live"]) = inr q
       ∧ (0 ≤ q ≤ 1)%Qc.
Proof.
  destruct (jaccard_similarity_spec (list_to_set ["yellow"; "coldplay"])
              (list_to_set ["yellow"; "live"])) as (_ & _ & H).
  eexists. split; [vm_compute; reflexivity|].
  apply H. vm_compute. reflexivity.
Defined.

(** X7. The Jaccard similarity never exceeds the subset similarity of a
    candidate with at least two tokens. *)
Theorem jaccard_below_subset_similarity (A B : gset string) (q : Qc) :
  (2 ≤ size B)%nat → jaccard_similarity A B = inr q →
  (q ≤ subset_similarity A B default_min_candidate_tokens)%Qc.
Proof.
  intros HB. destruct (size_two_nonempty B HB) as [Hne Hpos].
  unfold jaccard_similarity, default_min_candidate_tokens.
  destruct (Nat.eqb_spec (size (A ∪ B)) 0) as [H0|H0]; [done|]. intros [= <-].
  rewrite subset_similarity_ratio by (done || lia).
  rewrite (comm_L (∩) A B). apply ratio_le_den; [done|].
  apply subseteq_size, union_subseteq_r.
Qed.

Lemma jaccard_below_subset_similarity_witness :
  ∃ q, jaccard_similarity (list_to_set ["yellow"; "coldplay"; "parachutes"])
         (list_to_set ["yellow"; "coldplay"]) = inr q
       ∧ (q ≤ subset_similarity (list_to_set ["yellow"; "coldplay"; "parachutes"])
                (list_to_set ["yellow"; "coldplay"]) default_min_candidate_tokens)%Qc.
Proof.
  eexists. split; [vm_compute; reflexivity|].
  apply jaccard_below_subset_similarity; [vm_compute; lia|vm_compute; reflexivity].
Defined.

(** ** Candidate classifier and ranker *)

Lemma duration_gate_flags (sd td : option Z) (tnm : bool) (tol tol' : option Z) :
  exact_duration_ok (duration_gate sd td tnm tol)
  = exact_duration_ok (duration_gate sd td tnm tol')
  ∧ alt_duration_ok (duration_gate sd td tnm tol)
    = alt_duration_ok (duration_gate sd td tnm tol')
  ∧ duration_diff (duration_gate sd td tnm tol)
    = duration_diff (duration_gate sd td tnm tol').
Proof.
  unfold duration_gate. destruct sd as [s|], td as [t|]; try done.
  by destruct (truthy (Some s) && truthy (Some t)).
Qed.

Lemma classify_gate_flags (src : Source) (service_name : string) (track : Track)
    (es als : Qc) (tnm : bool) (g g' : Gate) :
  exact_duration_ok g = exact_duration_ok g' →
  alt_duration_ok g = alt_duration_ok g' →
  duration_diff g = duration_diff g' →
  classify src service_name track es als tnm g
  = classify src service_name track es als tnm g'.
Proof. unfold classify. by intros -> -> ->. Qed.

Lemma outcome_of_any_iteration (src : Source) (service_name : string)
    (st : Locals) (track : Track) :
  outcome_of src service_name st track = outcome src service_name track.
Proof.
  unfold outcome, outcome_of, gate_of.
  destruct (duration_gate_flags (source_duration_ms src) (track_duration track)
              (track_number_match_of (source_track_number src) (track_number track))
              (tolerance st) (tolerance initial_locals)) as (H1 & H2 & H3).
  by apply classify_gate_flags.
Qed.

Lemma record_outcome_lists (st : Locals) (tol : option Z) (o : Outcome) :
  exact_candidates (record_outcome st tol o)
  = exact_candidates st ++ option_list (exact_of o)
  ∧ alt_candidates (record_outcome st tol o)
    = alt_candidates st ++ option_list (alternative_of o).
Proof. destruct o; simpl; by rewrite ?app_nil_r. Qed.

Lemma for_each_lists (src : Source) (service_name : string) (results : list Track)
    (st st' : Locals) :
  for_each (process_track src service_name) st results = Return st' →
  exact_candidates st'
  = exact_candidates st ++ omap (λ t, exact_of (outcome src service_name t)) results
  ∧ alt_candidates st'
    = alt_candidates st
      ++ omap (λ t, alternative_of (outcome src service_name t)) results.
Proof.
  revert st. induction results as [|track results IH]; intros st.
  - intros [= <-]. by rewrite !app_nil_r.
  - cbn [for_each].
    destruct (process_track src service_name st track) as [st1|e] eqn:E; [|done].
    cbn [mbind result_bind]. intros H. destruct (IH _ H) as [-> ->].
    unfold process_track in E.
    destruct (exact_duration_tolerance (gate_of src st track)) as [tol|]; [|done].
    injection E as <-. rewrite outcome_of_any_iteration.
    destruct (record_outcome_lists st (Some tol) (outcome src service_name track))
      as [-> ->].
    cbn [omap list_omap].
    by destruct (outcome src service_name track); simpl; rewrite <- !app_assoc.
Qed.

Lemma process_results_eq (src : Source) (service_name : string)
    (results : list Track) (links_dict : gmap string string)
    (alt_dict : gmap string (list AltItem)) :
  process_results src service_name results links_dict alt_dict
  = if trips_debug_output src results then Raise UnboundLocalError
    else Return
           (store_links service_name
              (omap (λ t, exact_of (outcome src service_name t)) results) links_dict,
            store_alternatives service_name
              (omap (λ t, alternative_of (outcome src service_name t)) results)
              alt_dict).
Proof.
  destruct (trips_debug_output src results) eqn:Ht.
  - by apply process_results_raises.
  - destruct (process_results_returns src service_name results links_dict alt_dict Ht)
      as (st & Hst & ->).
    by destruct (for_each_lists _ _ _ _ _ Hst) as [-> ->].
Qed.

(** C5. For one provider whose loop returns, with the candidates that the
    loop classified, in the order of the answer: the link stored is the url
    of an exact candidate that no exact candidate beats in the order
    similarity (higher), album match (true), track number match (true),
    missing album penalty (lower), duration difference (lower), it is the
    only one stored, and nothing is stored without an exact candidate; the
    alternatives stored are items for all the alternative candidates, none
    left out, sorted by similarity descending, then total penalty
    ascending, then duration difference ascending, each with the title,
    artist, album, url and duration of its result and the name of the
    provider. Of two exact candidates with equal similarity, the one whose
    album matches is chosen, whatever the duration differences. *)
Theorem C5_ranking (src : Source) (service_name : string) (results : list Track)
    (links_dict links : gmap string string)
    (alt_dict alternatives : gmap string (list AltItem)) :
  process_results src service_name results links_dict alt_dict
  = Return (links, alternatives) →
  let exacts := omap (λ t, exact_of (outcome src service_name t)) results in
  let alts := omap (λ t, alternative_of (outcome src service_name t)) results in
  (exacts = [] → links = links_dict)
  ∧ (exacts ≠ [] →
     ∃ best, best ∈ exacts
       ∧ (∀ c, c ∈ exacts → ¬ beats c best)
       ∧ (∀ c, c ∈ exacts → ex_similarity c = ex_similarity best →
            ex_album_match c = true → ex_album_match best = true)
       ∧ links = <[service_name := track_url (ex_track best)]> links_dict)
  ∧ (alts = [] → alternatives = alt_dict)
  ∧ (alts ≠ [] →
     ∃ ranked items, ranked ≡ₚ alts
       ∧ StronglySorted alt_not_after ranked
       ∧ alternatives = <[service_name := items]> alt_dict
       ∧ Forall2 (λ c item,
                    item_title item = track_title (alt_track c)
                    ∧ item_artist item = track_artist (alt_track c)
                    ∧ item_album item = track_album (alt_track c)
                    ∧ item_url item = track_url (alt_track c)
                    ∧ item_durationMs item = track_duration (alt_track c)
                    ∧ item_service item = service_name) ranked items)
  ∧ (∀ a b, ex_similarity a = ex_similarity b →
       ex_album_match a = true → ex_album_match b = false →
       best_exact_of a [b] = a ∧ best_exact_of b [a] = a).
Proof.
  intros H exacts alts. rewrite process_results_eq in H.
  destruct (trips_debug_output src results); [done|].
  injection H as <- <-. fold exacts alts.
  split; [by intros ->|]. split.
  { destruct exacts as [|first rest]; [done|]. intros _.
    destruct (max_by_spec exact_key_compare exact_key exact_key_laws rest first)
      as [Hin Hmax].
    assert (Hnone : ∀ c, c ∈ first :: rest → ¬ beats c (best_exact_of first rest)).
    { intros c Hc Hb. apply beats_compare in Hb. by apply (Hmax c Hc). }
    exists (best_exact_of first rest). split; [done|]. split; [done|].
    split; [|done]. intros c Hc Hs Hm.
    destruct (ex_album_match (best_exact_of first rest)) eqn:E; [done|].
    destruct (Hnone c Hc). right. split; [done|]. by left. }
  split; [by intros ->|]. split.
  { destruct alts as [|first rest]; [done|]. intros _.
    exists (rank_alternatives (first :: rest)),
           (alt_item service_name <$> rank_alternatives (first :: rest)).
    split; [apply sort_by_perm|]. split.
    - eapply StronglySorted_weaken; [apply alt_compare_not_after|].
      apply sort_by_sorted, alt_key_laws.
    - split; [done|]. apply Forall2_fmap_r, Forall_Forall2_diag, Forall_forall.
      by intros c _. }
  intros a b Hs Ha Hb.
  assert (Hab : exact_key_compare (exact_key b) (exact_key a) = Lt).
  { unfold exact_key, exact_key_compare. by rewrite Hs, Qccompare_refl, Ha, Hb. }
  unfold best_exact_of. cbn [max_by]. rewrite Hab.
  by rewrite (proj1 exact_key_laws (exact_key b) (exact_key a)), Hab.
Qed.

Lemma C5_ranking_witness :
  let exacts :=
    omap (λ t, exact_of (outcome Sample.yellow "apple" t)) Sample.ranked_answer in
  ∃ best, best ∈ exacts
    ∧ (∀ c, c ∈ exacts → ¬ beats c best)
    ∧ (∀ c, c ∈ exacts → ex_similarity c = ex_similarity best →
         ex_album_match c = true → ex_album_match best = true)
    ∧ ({[ "apple" := track_url Sample.yellow_itunes ]} : gmap string string)
      = <["apple" := track_url (ex_track best)]> ∅.
Proof.
  refine (proj1 (proj2 (C5_ranking Sample.yellow "apple" Sample.ranked_answer
                          ∅ _ ∅ _ _)) _).
  - vm_compute. reflexivity.
  - intros H. apply (f_equal length) in H. vm_compute in H. discriminate.
Defined.

(** X8. [process_results] as a function of its arguments: it raises when the
    first result trips the debug output; otherwise every result is
    classified on its own, whatever its position, the exact outcomes go to
    the link and the alternative outcomes to the alternatives, both in the
    order of the provider. *)
Theorem process_results_by_result (src : Source) (service_name : string)
    (results : list Track) (links_dict : gmap string string)
    (alt_dict : gmap string (list AltItem)) :
  process_results src service_name results links_dict alt_dict
  = if trips_debug_output src results then Raise UnboundLocalError
    else Return
           (store_links service_name
              (omap (λ t, exact_of (outcome src service_name t)) results) links_dict,
            store_alternatives service_name
              (omap (λ t, alternative_of (outcome src service_name t)) results)
              alt_dict).
Proof.
  destruct (trips_debug_output src results) eqn:Ht.
  - by apply process_results_raises.
  - destruct (process_results_returns src service_name results links_dict alt_dict Ht)
      as (st & Hst & ->).
    by destruct (for_each_lists _ _ _ _ _ Hst) as [-> ->].
Qed.

Lemma subset_similarity_bounds (A B : gset string) (k : Z) :
  (0 ≤ subset_similarity A B k ≤ 1)%Qc.
Proof.
  unfold subset_similarity. case_bool_decide as HB; [done|].
  destruct (Z.of_nat (size B) <? k); [done|].
  apply ratio_bounds; [apply subseteq_size, intersection_subseteq_l|].
  destruct (decide (size B = 0%nat)) as [H0|]; [|lia].
  apply size_empty_iff in H0. by destruct HB; apply leibniz_equiv.
Qed.

Lemma duration_gate_bounds (sd td : option Z) (tnm : bool) (tol : option Z) :
  0 ≤ duration_diff (duration_gate sd td tnm tol)
  ∧ (exact_duration_ok (duration_gate sd td tnm tol) = true →
     duration_diff (duration_gate sd td tnm tol) ≤ (if tnm then 5000 else 1000))
  ∧ (alt_duration_ok (duration_gate sd td tnm tol) = true →
     duration_diff (duration_gate sd td tnm tol) ≤ 10000).
Proof.
  unfold duration_gate. destruct sd as [s|], td as [t|];
    try (simpl; destruct tnm; repeat split; lia).
  destruct (truthy (Some s) && truthy (Some t)); simpl.
  - repeat split; [lia|by intros ?%Z.leb_le|by intros ?%Z.leb_le].
  - destruct tnm; repeat split; lia.
Qed.

(** X9. What is recorded is within the thresholds: an exact candidate has a
    similarity of at least 0.4 (0.75 without a track number match) and a
    duration difference of at most 5000 ms (1000 ms without); an alternative
    has a similarity of at least 0.5 and a difference of at most 10000 ms.
    No similarity exceeds 1. The version penalty of an alternative is 0 or
    0.1, its penalty for a missing album is 0.05 when the album is blank
    and 0 otherwise, and its total penalty is the sum of the two. *)
Theorem recorded_candidates_within_thresholds (src : Source) (service_name : string)
    (st : Locals) (track : Track) :
  (∀ c, outcome_of src service_name st track = Exact c →
     ex_track c = track
     ∧ ((if ex_track_number_match c then q0_4 else q0_75) ≤ ex_similarity c ≤ 1)%Qc
     ∧ 0 ≤ ex_duration_diff c ≤ (if ex_track_number_match c then 5000 else 1000))
  ∧ (∀ c, outcome_of src service_name st track = Alternative c →
       alt_track c = track
       ∧ alt_service c = service_name
       ∧ (q0_5 ≤ alt_similarity c ≤ 1)%Qc
       ∧ 0 ≤ alt_duration_diff c ≤ 10000
       ∧ (alt_version_penalty c = 0%Qc ∨ alt_version_penalty c = q0_1)
       ∧ alt_missing_data_penalty c
         = (if album_missing (track_album track) then q0_05 else 0%Qc)
       ∧ alt_total_penalty c
         = (alt_version_penalty c + alt_missing_data_penalty c)%Qc).
Proof.
  unfold outcome_of. set (g := gate_of src st track).
  set (tnm := track_number_match_of _ _).
  destruct (duration_gate_bounds (source_duration_ms src) (track_duration track)
              tnm (tolerance st)) as (Hd0 & Hde & Hda).
  fold (gate_of src st track) in Hd0, Hde, Hda. fold g in Hd0, Hde, Hda.
  split; intros c Hc.
  - pose proof (proj1 (classify_exact_iff _ _ _ _ _ _ _) (ex_intro _ c Hc)) as [Hs Hg].
    apply classify_exact_fields in Hc. subst c. simpl.
    split; [done|]. split; [|split; [done|by apply Hde]].
    split; [done|]. apply subset_similarity_bounds.
  - pose proof (proj1 (classify_alternative_iff _ _ _ _ _ _ _) (ex_intro _ c Hc))
      as (_ & Hs & Hg).
    apply classify_alternative_fields in Hc. subst c. simpl.
    split; [done|]. split; [done|].
    split; [|split; [split; [done|by apply Hda]|split; [|done]]].
    + split; [done|]. apply subset_similarity_bounds.
    + unfold version_penalty_of. destruct (has_version _ && negb _); [by right|by left].
Qed.

Lemma recorded_candidates_within_thresholds_witness :
  ∃ c, outcome_of Sample.yellow "apple" initial_locals Sample.yellow_itunes = Exact c
       ∧ 0 ≤ ex_duration_diff c ≤ (if ex_track_number_match c then 5000 else 1000).
Proof.
  eexists. split; [vm_compute; reflexivity|].
  refine (proj2 (proj2 (proj1 (recorded_candidates_within_thresholds Sample.yellow
            "apple" initial_locals Sample.yellow_itunes) _ _))).
  vm_compute. reflexivity.
Defined.

Lemma size_subseteq_lt (X Y : gset string) (n : nat) :
  X ⊆ Y → (size Y < n)%nat → (size X < n)%nat.
Proof. intros H Hn. apply subseteq_size in H. lia. Qed.

Lemma subset_similarity_disjoint (A B : gset string) (k : Z) :
  B ∩ A = ∅ → subset_similarity A B k = 0%Qc.
Proof.
  intros H. unfold subset_similarity. repeat case_match; try done.
  by rewrite H, size_empty, ratio_zero.
Qed.

(** X10. A candidate whose title, artist and album give fewer than two tokens
    is never matched, and neither is a candidate that shares no token with
    the source. *)
Theorem sparse_or_unrelated_candidates_never_match (src : Source)
    (service_name : string) (st : Locals) (track : Track) :
  let candidate_tokens :=
    create_token_set (track_title track) (track_artist track) (track_album track) in
  (size candidate_tokens < 2)%nat ∨ candidate_tokens ∩ source_exact_tokens src = ∅ →
  outcome_of src service_name st track = NoMatch.
Proof.
  intros tokens H. subst tokens. unfold outcome_of.
  assert (He : exact_similarity_of src track = 0%Qc
               ∧ alt_similarity_of src track = 0%Qc).
  { unfold exact_similarity_of, alt_similarity_of, default_min_candidate_tokens.
    pose proof (alt_tokens_subseteq (track_title track) (track_artist track)
                  (track_album track)) as Hsub.
    destruct H as [H|H].
    - split; apply subset_similarity_low; right.
      + lia.
      + pose proof (size_subseteq_lt _ _ 2 Hsub H). lia.
    - split; apply subset_similarity_disjoint; [done|].
      pose proof (alt_tokens_subseteq (title src) (artist src)
                    (or_empty (source_album src))) as Hsrc.
      apply set_eq. intros x. split; [|by intros ?%elem_of_empty].
      rewrite elem_of_intersection. intros [Hx1 Hx2].
      rewrite <- H, elem_of_intersection. split; [by apply Hsub|by apply Hsrc]. }
  destruct He as [-> ->]. apply classify_zero.
Qed.

Lemma sparse_or_unrelated_candidates_never_match_witness :
  outcome_of Sample.yellow "spotify" Sample.later_iteration
    {| track_title := "Yellow"; track_artist := ""; track_album := "";
       track_duration := Some 266773; track_number := Some 1;
       track_url := "https://open.spotify.com/track/3AJwUDP919kvQ9QcozQPxg" |}
  = NoMatch.
Proof.
  apply sparse_or_unrelated_candidates_never_match. left. vm_compute. lia.
Defined.

(** *** The first maximum and the stable sort *)

Section RankingOrder.
Context {A K : Type} (cmp : K → K → comparison) (key : A → K).
Hypothesis laws : cmp_laws cmp.

Lemma cmp_gt_lt (x y : K) : cmp x y = Gt ↔ cmp y x = Lt.
Proof.
  rewrite (proj1 laws y x). destruct (cmp y x); simpl; split; congruence.
Qed.

(** [max] returns the first of the maximal elements. *)
Lemma max_by_first (rest : list A) (m : A) :
  ∃ l1 l2, m :: rest = l1 ++ max_by cmp key m rest :: l2
    ∧ (∀ x, x ∈ l1 → cmp (key (max_by cmp key m rest)) (key x) = Gt)
    ∧ (∀ x, x ∈ l2 → cmp (key x) (key (max_by cmp key m rest)) ≠ Gt).
Proof.
  revert m. induction rest as [|item rest IH]; intros m.
  - exists [], []. split; [done|]. split; intros x Hx; by apply elem_of_nil in Hx.
  - cbn [max_by].
    set (m' := match cmp (key item) (key m) with Gt => item | _ => m end).
    destruct (IH m') as (l1 & l2 & Hl & H1 & H2).
    remember (max_by cmp key m' rest) as M eqn:HM. clear HM IH.
    assert (Hle : cmp (key m) (key m') ≠ Gt ∧ cmp (key item) (key m') ≠ Gt).
    { unfold m'. destruct (cmp (key item) (key m)) eqn:E;
        rewrite ?(cmp_laws_refl cmp) by done.
      - split; [done|by rewrite E].
      - split; [done|by rewrite E].
      - split; [|done]. by rewrite (proj1 laws (key item) (key m)), E. }
    destruct l1 as [|y l1]; simpl in Hl; injection Hl as Hy Hl.
    + subst M l2. unfold m' in *. destruct (cmp (key item) (key m)) eqn:E.
      * exists [], (item :: rest). split; [done|].
        split; [intros x Hx; by apply elem_of_nil in Hx|].
        intros x [->|Hx]%elem_of_cons; [by rewrite E|by apply H2].
      * exists [], (item :: rest). split; [done|].
        split; [intros x Hx; by apply elem_of_nil in Hx|].
        intros x [->|Hx]%elem_of_cons; [by rewrite E|by apply H2].
      * exists [m], rest. split; [done|]. split; [|done].
        by intros x ->%list_elem_of_singleton.
    + subst y rest. exists (m :: item :: l1), l2. split; [done|]. split; [|done].
      assert (HM : cmp (key m') (key M) = Lt).
      { apply cmp_gt_lt, H1, list_elem_of_here. }
      destruct Hle as [Hm Hi].
      intros x. rewrite !elem_of_cons. intros [->|[->|Hx]].
      * apply cmp_gt_lt. by apply (cmp_laws_le_lt cmp _ (key m')).
      * apply cmp_gt_lt. by apply (cmp_laws_le_lt cmp _ (key m')).
      * apply H1. by apply list_elem_of_further.
Qed.

Lemma insert_by_first (x : A) (l : list A) :
  Forall (λ y, cmp (key x) (key y) ≠ Gt) l → insert_by cmp key x l = x :: l.
Proof.
  destruct l as [|y l]; [done|]. intros H. inversion H as [|? ? Hy _]; subst.
  simpl. rewrite (proj1 laws (key x) (key y)). by destruct (cmp (key x) (key y)).
Qed.

Lemma sort_by_sorted_id (l : list A) :
  StronglySorted (λ a b, cmp (key a) (key b) ≠ Gt) l → sort_by cmp key l = l.
Proof.
  induction 1 as [|x l Hl IH Hx]; [done|]. simpl. rewrite IH.
  by apply insert_by_first.
Qed.

Lemma insert_by_class (k : K) (x : A) (l : list A) :
  List.filter (λ y, if cmp (key y) k is Eq then true else false)
    (insert_by cmp key x l)
  = List.filter (λ y, if cmp (key y) k is Eq then true else false) (x :: l).
Proof.
  induction l as [|y l IH]; [done|]. cbn [insert_by].
  destruct (cmp (key y) (key x)) eqn:E; try done.
  cbn [List.filter] in *. rewrite IH.
  destruct (cmp (key x) k) eqn:Ex; [|done|done].
  assert (Hy : cmp (key y) k = Lt).
  { eapply (cmp_laws_lt_le cmp _ (key x)); [done|done|by rewrite Ex]. }
  by rewrite Hy.
Qed.

Lemma sort_by_class (k : K) (l : list A) :
  List.filter (λ y, if cmp (key y) k is Eq then true else false) (sort_by cmp key l)
  = List.filter (λ y, if cmp (key y) k is Eq then true else false) l.
Proof.
  induction l as [|x l IH]; [done|]. cbn [sort_by].
  rewrite insert_by_class. cbn [List.filter]. by rewrite IH.
Qed.
End RankingOrder.

Lemma compare_beats (a b : ExactCandidate) :
  exact_key_compare (exact_key a) (exact_key b) = Gt → beats a b.
Proof.
  unfold beats, exact_key, exact_key_compare.
  destruct (ex_similarity a ?= ex_similarity b)%Qc eqn:Es; simpl; [|done|].
  2: { intros _. left. by apply Qcgt_alt. }
  apply Qceq_alt in Es. rewrite Es. intros H. right. split; [done|].
  destruct (ex_album_match a), (ex_album_match b); simpl in H; try done;
    try (by left).
  - right. split; [done|].
    destruct (ex_track_number_match a), (ex_track_number_match b); simpl in H;
      try done; try (by left).
    + right. split; [done|].
      destruct (- ex_missing_data_penalty a ?= - ex_missing_data_penalty b)%Qc eqn:Ep;
        simpl in H; [|done|].
      * apply Qceq_alt, (inj Qcopp) in Ep. right. split; [done|].
        apply Z.compare_gt_iff in H. lia.
      * left. by apply Qcgt_alt, Qcopp_lt_inv in Ep.
    + right. split; [done|].
      destruct (- ex_missing_data_penalty a ?= - ex_missing_data_penalty b)%Qc eqn:Ep;
        simpl in H; [|done|].
      * apply Qceq_alt, (inj Qcopp) in Ep. right. split; [done|].
        apply Z.compare_gt_iff in H. lia.
      * left. by apply Qcgt_alt, Qcopp_lt_inv in Ep.
  - right. split; [done|].
    destruct (ex_track_number_match a), (ex_track_number_match b); simpl in H;
      try done; try (by left).
    + right. split; [done|].
      destruct (- ex_missing_data_penalty a ?= - ex_missing_data_penalty b)%Qc eqn:Ep;
        simpl in H; [|done|].
      * apply Qceq_alt, (inj Qcopp) in Ep. right. split; [done|].
        apply Z.compare_gt_iff in H. lia.
      * left. by apply Qcgt_alt, Qcopp_lt_inv in Ep.
    + right. split; [done|].
      destruct (- ex_missing_data_penalty a ?= - ex_missing_data_penalty b)%Qc eqn:Ep;
        simpl in H; [|done|].
      * apply Qceq_alt, (inj Qcopp) in Ep. right. split; [done|].
        apply Z.compare_gt_iff in H. lia.
      * left. by apply Qcgt_alt, Qcopp_lt_inv in Ep.
Qed.

(** X11. Ties go to the provider's order: the exact candidate chosen for the
    link beats every candidate that comes before it and is beaten by none
    that comes after it. *)
Theorem best_exact_is_first_maximum (first : ExactCandidate)
    (rest : list ExactCandidate) :
  ∃ before after,
    first :: rest = before ++ best_exact_of first rest :: after
    ∧ (∀ c, c ∈ before → beats (best_exact_of first rest) c)
    ∧ (∀ c, c ∈ after → ¬ beats c (best_exact_of first rest)).
Proof.
  destruct (max_by_first exact_key_compare exact_key exact_key_laws rest first)
    as (l1 & l2 & Hl & H1 & H2).
  exists l1, l2. split; [done|]. split.
  - intros c Hc. by apply compare_beats, H1.
  - intros c Hc Hb. apply beats_compare in Hb. by apply (H2 c Hc).
Qed.

Lemma alt_key_compare_eq (k1 k2 : Qc * Qc * Z) :
  alt_key_compare k1 k2 = Eq ↔ k1 = k2.
Proof.
  destruct k1 as [[s1 p1] d1], k2 as [[s2 p2] d2]. unfold alt_key_compare. split.
  - destruct (s1 ?= s2)%Qc eqn:Es; simpl; [|done|done].
    destruct (p1 ?= p2)%Qc eqn:Ep; simpl; [|done|done].
    intros Hd%Z.compare_eq. apply Qceq_alt in Es, Ep. by subst.
  - intros [= -> -> ->]. by rewrite !Qccompare_refl, Z.compare_refl.
Qed.

(** X12. The sort of the alternatives is stable and idempotent: alternatives
    with the same similarity, total penalty and duration difference keep
    the order in which the provider returned them, and ranking a ranked
    list changes nothing. *)
Theorem rank_alternatives_stable (l : list AltCandidate) :
  (∀ k, List.filter (λ c, bool_decide (alt_key c = k)) (rank_alternatives l)
        = List.filter (λ c, bool_decide (alt_key c = k)) l)
  ∧ rank_alternatives (rank_alternatives l) = rank_alternatives l.
Proof.
  split.
  - intros k.
    pose proof (sort_by_class alt_key_compare alt_key alt_key_laws k l) as H.
    assert (Hext : ∀ l' : list AltCandidate,
              List.filter (λ c, bool_decide (alt_key c = k)) l'
              = List.filter
                  (λ y, if alt_key_compare (alt_key y) k is Eq then true else false) l').
    { intros l'. apply filter_ext. intros c.
      pose proof (alt_key_compare_eq (alt_key c) k) as Hk.
      case_bool_decide as Hd.
      - by rewrite (proj2 Hk Hd).
      - destruct (alt_key_compare (alt_key c) k); try done. by destruct Hd; apply Hk. }
    unfold rank_alternatives. by rewrite !Hext.
  - apply sort_by_sorted_id; [apply alt_key_laws|].
    apply sort_by_sorted, alt_key_laws.
Qed.

(** ** Orchestrator *)

Lemma find_equivalent_links_eq (title artist : string)
    (spotify_api itunes_api yt_api : Provider) (sd : option Z)
    (sa : option string) (stn : option Z) :
  let src := {| title := title; artist := artist; source_duration_ms := sd;
                source_album := sa; source_track_number := stn |} in
  find_equivalent_links title artist spotify_api itunes_api yt_api sd sa stn
  = run_providers src
      [("spotify", search_track spotify_api title artist);
       ("apple", search_track itunes_api title artist);
       ("youtube", search_track yt_api title artist)] ∅ ∅.
Proof. apply find_equivalent_links_run. Qed.

Lemma run_providers_raises_iff (src : Source)
    (providers : list (string * list Track)) (links : gmap string string)
    (alternatives : gmap string (list AltItem)) :
  run_providers src providers links alternatives = Raise UnboundLocalError
  ↔ Exists (λ p, trips_debug_output src p.2 = true) providers.
Proof.
  revert links alternatives.
  induction providers as [|[name results] providers IH]; intros links alternatives.
  - rewrite Exists_nil. done.
  - cbn [run_providers]. rewrite process_results_eq, Exists_cons. simpl.
    destruct (trips_debug_output src results); cbn [mbind result_bind].
    + split; [by left|done].
    + rewrite IH. split; [by right|]. by intros [?|?].
Qed.

(** X13. [find_equivalent_links] raises [UnboundLocalError] exactly when the
    answer of one of the three providers is not empty and the source
    duration or the duration of the first result of that answer is missing
    or 0; otherwise it returns. *)
Theorem find_equivalent_links_raises_iff (title artist : string)
    (spotify_api itunes_api yt_api : Provider) (sd : option Z)
    (sa : option string) (stn : option Z) :
  let src := {| title := title; artist := artist; source_duration_ms := sd;
                source_album := sa; source_track_number := stn |} in
  let out := find_equivalent_links title artist spotify_api itunes_api yt_api
               sd sa stn in
  let trips := trips_debug_output src (search_track spotify_api title artist)
               || trips_debug_output src (search_track itunes_api title artist)
               || trips_debug_output src (search_track yt_api title artist) in
  (out = Raise UnboundLocalError ↔ trips = true)
  ∧ ((∃ links alternatives, out = Return (links, alternatives)) ↔ trips = false).
Proof.
  intros src out trips.
  assert (H : out = Raise UnboundLocalError ↔ trips = true).
  { subst out trips. rewrite find_equivalent_links_eq, run_providers_raises_iff.
    rewrite !Exists_cons, Exists_nil, !orb_true_iff. simpl. tauto. }
  split; [done|]. revert H. generalize out trips. clear. intros r b H.
  destruct r as [[l a]|[]].
  - split; [|eauto]. intros _. destruct b; [|done].
    by pose proof (proj2 H eq_refl).
  - split; [by intros (l & a & ?)|]. intros Hb.
    by rewrite (proj1 H eq_refl) in Hb.
Qed.

Lemma length_omap_le {A B : Type} (f : A → option B) (l : list A) :
  (length (omap f l) ≤ length l)%nat.
Proof.
  induction l as [|x l IH]; [done|]. cbn [omap list_omap length].
  destruct (f x); cbn [length]; lia.
Qed.

Lemma store_links_lookup (src : Source) (service_name k u : string)
    (results : list Track) (links_dict : gmap string string) :
  store_links service_name
    (omap (λ t, exact_of (outcome src service_name t)) results) links_dict !! k
  = Some u →
  links_dict !! k = Some u
  ∨ k = service_name
    ∧ ∃ t c, t ∈ results ∧ outcome src service_name t = Exact c ∧ track_url t = u.
Proof.
  unfold store_links.
  destruct (omap _ results) as [|first rest] eqn:E; [by left|].
  destruct (decide (k = service_name)) as [->|Hk];
    [|rewrite lookup_insert_ne by done; by left].
  rewrite lookup_insert_eq. intros [= <-]. right. split; [done|].
  destruct (max_by_spec exact_key_compare exact_key exact_key_laws rest first)
    as [Hin _].
  fold (best_exact_of first rest) in Hin. rewrite <- E in Hin.
  apply list_elem_of_omap in Hin as (t & Ht & Hc).
  exists t, (best_exact_of first rest). split; [done|].
  destruct (outcome src service_name t) as [c| |] eqn:Ho; try done.
  injection Hc as ->. split; [done|].
  unfold outcome in Ho. unfold outcome_of in Ho.
  apply classify_exact_fields in Ho. by rewrite Ho.
Qed.

Lemma store_alternatives_lookup (src : Source) (service_name k : string)
    (items : list AltItem) (results : list Track)
    (alt_dict : gmap string (list AltItem)) :
  store_alternatives service_name
    (omap (λ t, alternative_of (outcome src service_name t)) results) alt_dict !! k
  = Some items →
  alt_dict !! k = Some items
  ∨ k = service_name ∧ items ≠ [] ∧ (length items ≤ length results)%nat
    ∧ Forall (λ i, ∃ t c, t ∈ results ∧ outcome src service_name t = Alternative c
                          ∧ i = alt_item service_name c ∧ alt_track c = t) items.
Proof.
  unfold store_alternatives.
  destruct (omap _ results) as [|first rest] eqn:E; [by left|].
  destruct (decide (k = service_name)) as [->|Hk];
    [|rewrite lookup_insert_ne by done; by left].
  rewrite lookup_insert_eq. intros [= <-]. right. split; [done|].
  pose proof (sort_by_perm alt_key_compare alt_key (first :: rest)) as Hp.
  fold (rank_alternatives (first :: rest)) in Hp.
  split; [|split].
  - intros Hnil. apply (f_equal length) in Hnil.
    rewrite length_fmap, (Permutation_length Hp) in Hnil. done.
  - rewrite length_fmap, (Permutation_length Hp), <- E. apply length_omap_le.
  - apply Forall_forall. intros i Hi.
    apply list_elem_of_In, list_elem_of_fmap in Hi as (c & -> & Hc).
    rewrite Hp, <- E in Hc. apply list_elem_of_omap in Hc as (t & Ht & Hc).
    exists t, c. split; [done|].
    destruct (outcome src service_name t) as [|c'|] eqn:Ho; try done.
    injection Hc as ->. split; [done|]. split; [done|].
    unfold outcome, outcome_of in Ho. apply classify_alternative_fields in Ho.
    by rewrite Ho.
Qed.

Lemma run_providers_origin (src : Source) (providers : list (string * list Track))
    (links links' : gmap string string)
    (alternatives alternatives' : gmap string (list AltItem)) :
  run_providers src providers links alternatives = Return (links', alternatives') →
  (∀ k u, links' !! k = Some u →
     links !! k = Some u
     ∨ ∃ results t c, (k, results) ∈ providers ∧ t ∈ results
         ∧ outcome src k t = Exact c ∧ track_url t = u)
  ∧ (∀ k items, alternatives' !! k = Some items →
       alternatives !! k = Some items
       ∨ ∃ results, (k, results) ∈ providers ∧ items ≠ []
           ∧ (length items ≤ length results)%nat
           ∧ Forall (λ i, ∃ t c, t ∈ results ∧ outcome src k t = Alternative c
                                 ∧ i = alt_item k c ∧ alt_track c = t) items).
Proof.
  revert links alternatives.
  induction providers as [|[name results] providers IH]; intros links alternatives.
  - intros [= <- <-]. split; intros; by left.
  - cbn [run_providers]. rewrite process_results_eq.
    destruct (trips_debug_output src results); [done|]. cbn [mbind result_bind].
    intros Hrun. destruct (IH _ _ Hrun) as [Hl Ha]. split.
    + intros k u Hk. destruct (Hl k u Hk) as [H|(rs & t & c & Hin & H)].
      * apply store_links_lookup in H as [H|(-> & t & c & H)]; [by left|].
        right. exists results, t, c. split; [apply list_elem_of_here|done].
      * right. exists rs, t, c. split; [by apply list_elem_of_further|done].
    + intros k items Hk. destruct (Ha k items Hk) as [H|(rs & Hin & H)].
      * apply store_alternatives_lookup in H as [H|(-> & H)]; [by left|].
        right. exists results. split; [apply list_elem_of_here|done].
      * right. exists rs. split; [by apply list_elem_of_further|done].
Qed.

(** X14. What [find_equivalent_links] returns comes from the answers of the
    providers: a link is the url of a result of that provider that is
    classified exact; a list of alternatives is never empty, is no longer
    than the answer of its provider, and each of its items is built from a
    result of that provider that is classified alternative and carries the
    name of the provider. The only keys are spotify, apple and youtube. *)
Theorem links_and_alternatives_come_from_results (title artist : string)
    (spotify_api itunes_api yt_api : Provider) (sd : option Z)
    (sa : option string) (stn : option Z)
    (links : gmap string string) (alternatives : gmap string (list AltItem)) :
  let src := {| title := title; artist := artist; source_duration_ms := sd;
                source_album := sa; source_track_number := stn |} in
  let answers := [("spotify", search_track spotify_api title artist);
                  ("apple", search_track itunes_api title artist);
                  ("youtube", search_track yt_api title artist)] in
  find_equivalent_links title artist spotify_api itunes_api yt_api sd sa stn
  = Return (links, alternatives) →
  (∀ k u, links !! k = Some u →
     ∃ results t c, (k, results) ∈ answers ∧ t ∈ results
       ∧ outcome src k t = Exact c ∧ track_url t = u)
  ∧ (∀ k items, alternatives !! k = Some items →
       ∃ results, (k, results) ∈ answers ∧ items ≠ []
         ∧ (length items ≤ length results)%nat
         ∧ Forall (λ i, item_service i = k
                        ∧ ∃ t c, t ∈ results ∧ outcome src k t = Alternative c
                                 ∧ i = alt_item k c ∧ alt_track c = t) items).
Proof.
  intros src answers. rewrite find_equivalent_links_eq. fold src. fold answers.
  intros Hrun. destruct (run_providers_origin _ _ _ _ _ _ Hrun) as [Hl Ha]. split.
  - intros k u Hk. destruct (Hl k u Hk) as [H|H]; [by rewrite lookup_empty in H|done].
  - intros k items Hk.
    destruct (Ha k items Hk) as [H|(rs & Hin & Hne & Hlen & Hall)];
      [by rewrite lookup_empty in H|].
    exists rs. split; [done|]. split; [done|]. split; [done|].
    eapply Forall_impl; [|exact Hall]. intros i (t & c & Ht & Ho & -> & Hc).
    split; [done|]. by exists t, c.
Qed.

Lemma links_and_alternatives_come_from_results_witness :
  ∃ results t c, ("apple", results) ∈ [("spotify", []); ("apple", [Sample.yellow_itunes]);
                                        ("youtube", [])]
    ∧ t ∈ results ∧ outcome Sample.yellow "apple" t = Exact c
    ∧ track_url t = track_url Sample.yellow_itunes.
Proof.
  refine (proj1 (links_and_alternatives_come_from_results "Yellow" "Coldplay"
            (Sample.answering []) (Sample.answering [Sample.yellow_itunes])
            (Sample.answering []) (Some 266773) (Some "Parachutes") (Some 1)
            {[ "apple" := track_url Sample.yellow_itunes ]} ∅ _) "apple" _ _).
  - vm_compute. reflexivity.
  - vm_compute. reflexivity.
Defined.

(** ** URL helpers *)

Lemma split_on_pieces (sep : ascii) (s : string) :
  Forall (λ w, Str.all (λ c, negb (Ascii.eqb c sep)) w = true) (Url.split_on sep s).
Proof.
  induction s as [|c s IH]; [by repeat constructor|]. cbn [Url.split_on].
  destruct (Ascii.eqb c sep) eqn:E; [by constructor|].
  destruct (Url.split_on sep s) as [|w ws]; [repeat constructor; simpl; by rewrite E|].
  inversion IH as [|? ? Hw Hws]; subst. constructor; [|done].
  simpl. by rewrite E, Hw.
Qed.

Lemma split_on_no_sep (sep : ascii) (s : string) :
  Str.all (λ c, negb (Ascii.eqb c sep)) s = true → Url.split_on sep s = [s].
Proof.
  induction s as [|c s IH]; [done|]. cbn [Str.all Url.split_on].
  intros [Hc Hs]%andb_true_iff. apply negb_true_iff in Hc. rewrite Hc.
  by rewrite (IH Hs).
Qed.

Lemma split_on_app (sep : ascii) (s t : string) :
  Str.all (λ c, negb (Ascii.eqb c sep)) t = true →
  ∃ piece pieces, Url.split_on sep (s +:+ String sep t) = (piece :: pieces) ++ [t].
Proof.
  intros Ht. induction s as [|c s (piece & pieces & IH)].
  - exists "", []. rewrite app_empty_l. cbn [Url.split_on].
    by rewrite Ascii.eqb_refl, split_on_no_sep.
  - rewrite app_cons. cbn [Url.split_on]. rewrite IH.
    destruct (Ascii.eqb c sep); [by exists "", (piece :: pieces)|].
    by exists (String c piece), pieces.
Qed.

Lemma last_part_snoc (parts : list string) (p : string) :
  Url.last_part (parts ++ [p]) = Some p.
Proof.
  induction parts as [|q parts IH]; [done|]. cbn [app Url.last_part].
  destruct (parts ++ [p]) eqn:E; [by destruct parts|exact IH].
Qed.

Lemma last_part_elem (parts : list string) (p : string) :
  Url.last_part parts = Some p → p ∈ parts.
Proof.
  induction parts as [|q parts IH]; [done|]. cbn [Url.last_part].
  destruct parts as [|q' parts]; [intros [= ->]; apply list_elem_of_here|].
  intros H. by apply list_elem_of_further, IH.
Qed.

Lemma path_parts_elem (path p : string) :
  p ∈ Url.path_parts path →
  p ≠ "" ∧ Str.all (λ c, negb (Ascii.eqb c "/")) p = true.
Proof.
  unfold Url.path_parts. rewrite list_elem_of_In, filter_In, <- list_elem_of_In.
  intros [Hin Hne]. split; [by intros ->|].
  pose proof (split_on_pieces "/" path) as H. rewrite Forall_forall in H.
  by apply H, list_elem_of_In.
Qed.

Lemma path_parts_last (prefix p : string) :
  p ≠ "" → Str.all (λ c, negb (Ascii.eqb c "/")) p = true →
  Url.last_part (Url.path_parts (prefix +:+ String "/" p)) = Some p.
Proof.
  intros Hne Hp. unfold Url.path_parts.
  destruct (split_on_app "/" prefix p Hp) as (piece & pieces & ->).
  rewrite filter_app. destruct p as [|c p]; [done|].
  cbn [List.filter Str.nonempty]. apply last_part_snoc.
Qed.

Lemma strip_prefix_Some (p s r : string) :
  Url.strip_prefix p s = Some r → s = p +:+ r.
Proof.
  revert s. induction p as [|a p IH]; intros s; [by intros [= ->]|].
  destruct s as [|b s]; [done|]. simpl.
  destruct (Ascii.eqb_spec a b) as [->|]; [|done].
  intros H. by rewrite (IH _ H).
Qed.

Lemma strip_prefix_app (p r : string) : Url.strip_prefix p (p +:+ r) = Some r.
Proof.
  induction p as [|a p IH]; [done|]. rewrite app_cons. simpl.
  by rewrite Ascii.eqb_refl.
Qed.

Lemma take_while_all (p : ascii → bool) (s : string) :
  Str.all p (Url.take_while p s) = true.
Proof.
  induction s as [|c s IH]; [done|]. simpl. destruct (p c) eqn:E; [|done].
  simpl. by rewrite E.
Qed.

Lemma take_while_id (p : ascii → bool) (s : string) :
  Str.all p s = true → Url.take_while p s = s.
Proof.
  induction s as [|c s IH]; [done|]. simpl. intros [Hc Hs]%andb_true_iff.
  by rewrite Hc, IH.
Qed.

Lemma match_track_group_Some (s g : string) :
  Url.match_track_group s = Some g →
  Str.all Url.is_ascii_alnum g = true ∧ (10 ≤ String.length g)%nat
  ∧ ∃ rest, s = "/track/" +:+ rest.
Proof.
  unfold Url.match_track_group.
  destruct (Url.strip_prefix "/track/" s) as [rest|] eqn:E; [|done].
  destruct (Nat.leb_spec 10 (String.length (Url.take_while Url.is_ascii_alnum rest)));
    [|done].
  intros [= <-]. split; [apply take_while_all|]. split; [done|].
  exists rest. by apply strip_prefix_Some.
Qed.

Lemma search_track_group_Some (s g : string) :
  Url.search_track_group s = Some g →
  Str.all Url.is_ascii_alnum g = true ∧ (10 ≤ String.length g)%nat.
Proof.
  induction s as [|c s IH]; cbn [Url.search_track_group].
  - destruct (Url.match_track_group "") as [g'|] eqn:E; [|done].
    intros [= <-]. by destruct (match_track_group_Some _ _ E) as (? & ? & _).
  - destruct (Url.match_track_group (String c s)) as [g'|] eqn:E.
    + intros [= <-]. by destruct (match_track_group_Some _ _ E) as (? & ? & _).
    + destruct (Ascii.eqb c "010"); [done|apply IH].
Qed.

Lemma match_track_group_no_slash (c : ascii) (s : string) :
  Ascii.eqb c "/" = false → Url.match_track_group (String c s) = None.
Proof.
  intros Hc. unfold Url.match_track_group.
  change (Url.strip_prefix "/track/" (String c s))
    with (if Ascii.eqb "/" c then Url.strip_prefix "track/" s else None).
  by rewrite Ascii.eqb_sym, Hc.
Qed.

Lemma search_track_group_no_slash (s : string) :
  Str.all (λ c, negb (Ascii.eqb c "/")) s = true → Url.search_track_group s = None.
Proof.
  induction s as [|c s IH]; [done|]. cbn [Str.all].
  intros [Hc%negb_true_iff Hs]%andb_true_iff. cbn [Url.search_track_group].
  rewrite match_track_group_no_slash by done.
  destruct (Ascii.eqb c "010"); [done|by apply IH].
Qed.

Lemma search_track_group_hit (s g : string) :
  Url.match_track_group s = Some g → Url.search_track_group s = Some g.
Proof. intros H. destruct s; cbn [Url.search_track_group]; by rewrite H. Qed.

Lemma search_track_group_locale (loc id : string) :
  Str.all (λ c, negb (Ascii.eqb c "/") && negb (Ascii.eqb c "010")) loc = true →
  Str.all Url.is_ascii_alnum id = true → (10 ≤ String.length id)%nat →
  Url.search_track_group (loc +:+ "/track/" +:+ id) = Some id.
Proof.
  intros Hloc Hid Hlen. induction loc as [|c loc IH].
  - rewrite app_empty_l. apply search_track_group_hit.
    unfold Url.match_track_group.
    rewrite strip_prefix_app, take_while_id by done.
    destruct (Nat.leb_spec 10 (String.length id)); [done|lia].
  - cbn [Str.all] in Hloc. apply andb_true_iff in Hloc as [Hc Hloc].
    apply andb_true_iff in Hc as [Hc1%negb_true_iff Hc2%negb_true_iff].
    rewrite app_cons. cbn [Url.search_track_group].
    rewrite match_track_group_no_slash by done. rewrite Hc2. by apply IH.
Qed.

Lemma alnum_no_slash (s : string) :
  Str.all Url.is_ascii_alnum s = true →
  Str.all (λ c, negb (Ascii.eqb c "/")) s = true.
Proof.
  induction s as [|c s IH]; [done|]. simpl. intros [Hc Hs]%andb_true_iff.
  rewrite (IH Hs), andb_true_r. clear -Hc.
  destruct c as [[] [] [] [] [] [] [] []]; (reflexivity || discriminate).
Qed.

Lemma extract_spotify_metadata_plain (id : string) :
  id ≠ "" → Str.all (λ c, negb (Ascii.eqb c "/")) id = true →
  Url.extract_spotify_metadata ("/track/" +:+ id) = Some id.
Proof.
  intros Hne Hid. unfold Url.extract_spotify_metadata.
  assert (Hm : Url.match_spotify_path ("/track/" +:+ id) = None).
  { rewrite !app_cons, app_empty_l. cbn [Url.match_spotify_path].
    do 5 (cbn [Url.search_track_group];
          rewrite match_track_group_no_slash by done; cbn [Ascii.eqb Bool.eqb]).
    cbn [Url.search_track_group].
    destruct (Url.match_track_group (String "/" id)) as [g|] eqn:E.
    - apply match_track_group_Some in E as (_ & _ & rest & E).
      rewrite !app_cons, app_empty_l in E. injection E as ->.
      simpl in Hid. done.
    - cbn [Ascii.eqb Bool.eqb]. by apply search_track_group_no_slash. }
  rewrite Hm. unfold Url.path_parts.
  rewrite !app_cons, app_empty_l. cbn [Url.split_on Ascii.eqb Bool.eqb].
  rewrite split_on_no_sep by done. simpl. by destruct id.
Qed.

(** X15. [extract_spotify_metadata] finds the id of a track path, with or
    without a locale in front, and never returns an empty id or an id with
    a slash in it. *)
Theorem extract_spotify_metadata_track_paths :
  (∀ id, id ≠ "" → Str.all (λ c, negb (Ascii.eqb c "/")) id = true →
     Url.extract_spotify_metadata ("/track/" +:+ id) = Some id)
  ∧ (∀ locale id,
       Str.all (λ c, negb (Ascii.eqb c "/") && negb (Ascii.eqb c "010")) locale = true →
       Str.all Url.is_ascii_alnum id = true → (10 ≤ String.length id)%nat →
       Url.extract_spotify_metadata ("/" +:+ locale +:+ "/track/" +:+ id) = Some id)
  ∧ (∀ path id, Url.extract_spotify_metadata path = Some id →
       id ≠ "" ∧ Str.all (λ c, negb (Ascii.eqb c "/")) id = true).
Proof.
  split; [|split].
  - apply extract_spotify_metadata_plain.
  - intros locale id Hloc Hid Hlen. unfold Url.extract_spotify_metadata.
    rewrite app_cons, app_empty_l. cbn [Url.match_spotify_path].
    by rewrite search_track_group_locale.
  - intros path id. unfold Url.extract_spotify_metadata.
    destruct (Url.match_spotify_path path) as [g|] eqn:E.
    + intros [= <-]. unfold Url.match_spotify_path in E.
      assert (Hg : Str.all Url.is_ascii_alnum g = true ∧ (10 ≤ String.length g)%nat).
      { destruct path as [|c rest]; [done|].
        destruct (Ascii.eqb_spec c "/") as [->|Hc].
        - by apply (search_track_group_Some rest).
        - destruct c as [[] [] [] [] [] [] [] []]; try done. }
      destruct Hg as [Hg Hlen]. split; [|by apply alnum_no_slash].
      intros ->. simpl in Hlen. lia.
    + destruct (Url.path_parts path) as [|p0 [|p1 parts]] eqn:Ep; try done.
      destruct (String.eqb p0 "track"); [|done]. intros [= <-].
      apply path_parts_elem with (path := path). rewrite Ep.
      apply list_elem_of_further, list_elem_of_here.
Qed.

Lemma extract_spotify_metadata_track_paths_witness :
  Url.extract_spotify_metadata ("/track/" +:+ "3AJwUDP919kvQ9QcozQPxg")
  = Some "3AJwUDP919kvQ9QcozQPxg"
  ∧ Url.extract_spotify_metadata ("/" +:+ "intl-de" +:+ "/track/" +:+ "3AJwUDP919kvQ9QcozQPxg")
    = Some "3AJwUDP919kvQ9QcozQPxg".
Proof.
  destruct extract_spotify_metadata_track_paths as (H1 & H2 & _). split.
  - apply H1; [discriminate|reflexivity].
  - apply H2; [reflexivity|reflexivity|simpl; lia].
Defined.

Lemma isdigit_no_slash (p : string) :
  Url.isdigit p = true →
  p ≠ "" ∧ Str.all (λ c, negb (Ascii.eqb c "/")) p = true.
Proof.
  unfold Url.isdigit. intros [Hne Hd]%andb_true_iff. split; [by intros ->|].
  clear Hne. induction p as [|c p IH]; [done|]. simpl in *.
  apply andb_true_iff in Hd as [Hc Hp]. rewrite (IH Hp), andb_true_r. clear -Hc.
  destruct c as [[] [] [] [] [] [] [] []]; (reflexivity || discriminate).
Qed.

(** X16. [extract_apple_metadata]: the [i] parameter wins over the path; without
    it, a numeric last segment is found whatever comes before it, and only
    a numeric id is ever returned. *)
Theorem extract_apple_metadata_ids (path : string)
    (qs : gmap string (string * list string)) :
  (∀ first others, qs !! "i" = Some (first, others) →
     Url.extract_apple_metadata path qs = Some first)
  ∧ (qs !! "i" = None →
     (∀ id, Url.isdigit id = true →
        Url.extract_apple_metadata (path +:+ "/" +:+ id) qs = Some id)
     ∧ (∀ id, Url.extract_apple_metadata path qs = Some id → Url.isdigit id = true)).
Proof.
  unfold Url.extract_apple_metadata. split.
  - by intros first others ->.
  - intros ->. split.
    + intros id Hd. destruct (isdigit_no_slash id Hd) as [Hne Hs].
      rewrite app_cons, app_empty_l, path_parts_last by done. by rewrite Hd.
    + intros id. destruct (Url.last_part (Url.path_parts path)) as [p|]; [|done].
      destruct (Url.isdigit p) eqn:Hp; [|done]. by intros [= <-].
Qed.

Lemma extract_apple_metadata_ids_witness :
  Url.extract_apple_metadata ("/us/album/yellow" +:+ "/" +:+ "1122782283") ∅
  = Some "1122782283".
Proof.
  apply (extract_apple_metadata_ids "/us/album/yellow" ∅); reflexivity.
Defined.

Lemma path_parts_nil_iff (path : string) :
  Url.path_parts path = [] ↔ Str.all (λ c, Ascii.eqb c "/") path = true.
Proof.
  unfold Url.path_parts. induction path as [|c path IH]; [done|].
  cbn [Url.split_on Str.all]. destruct (Ascii.eqb c "/") eqn:E.
  - cbn [List.filter Str.nonempty]. by rewrite IH.
  - destruct (Url.split_on "/" path); simpl; split; done.
Qed.

Lemma last_part_None (parts : list string) : Url.last_part parts = None ↔ parts = [].
Proof.
  induction parts as [|p parts IH]; [done|]. cbn [Url.last_part].
  destruct parts; [done|]. rewrite IH. done.
Qed.

(** X17. [extract_youtube_metadata]: the [v] parameter wins over the path;
    without it the last path segment is the id, as in a youtu.be link, and
    there is no id exactly when the path holds nothing but slashes. *)
Theorem extract_youtube_metadata_ids (path : string)
    (qs : gmap string (string * list string)) :
  (∀ first others, qs !! "v" = Some (first, others) →
     Url.extract_youtube_metadata path qs = Some first)
  ∧ (qs !! "v" = None →
     (∀ id, id ≠ "" → Str.all (λ c, negb (Ascii.eqb c "/")) id = true →
        Url.extract_youtube_metadata (path +:+ "/" +:+ id) qs = Some id)
     ∧ (Url.extract_youtube_metadata path qs = None
        ↔ Str.all (λ c, Ascii.eqb c "/") path = true)
     ∧ (∀ id, Url.extract_youtube_metadata path qs = Some id →
          id ≠ "" ∧ Str.all (λ c, negb (Ascii.eqb c "/")) id = true)).
Proof.
  unfold Url.extract_youtube_metadata. split.
  - by intros first others ->.
  - intros ->. split; [|split].
    + intros id Hne Hs. by rewrite app_cons, app_empty_l, path_parts_last.
    + by rewrite last_part_None, path_parts_nil_iff.
    + intros id Hid. apply path_parts_elem with (path := path).
      by apply last_part_elem.
Qed.

Lemma extract_youtube_metadata_ids_witness :
  Url.extract_youtube_metadata ("" +:+ "/" +:+ "1mB0tP1I-14") ∅ = Some "1mB0tP1I-14".
Proof.
  apply (extract_youtube_metadata_ids "" ∅); [reflexivity|discriminate|reflexivity].
Defined.

(** X18. [detect_platform] looks at the host without regard to case, answers
    with one of the three platforms or with nothing, and takes any host
    that holds "spotify" for Spotify. *)
Theorem detect_platform_hosts (netloc : string) :
  Url.detect_platform (Str.upper netloc) = Url.detect_platform netloc
  ∧ Url.detect_platform (Str.lower netloc) = Url.detect_platform netloc
  ∧ (∀ platform, Url.detect_platform netloc = Some platform →
       platform = "spotify" ∨ platform = "apple" ∨ platform = "youtube")
  ∧ (Str.contains "spotify" (Str.lower netloc) = true →
     Url.detect_platform netloc = Some "spotify").
Proof.
  unfold Url.detect_platform. rewrite lower_upper, lower_idem.
  split; [done|]. split; [done|]. split.
  - intros platform. repeat case_match; intros [= <-]; auto.
  - by intros ->.
Qed.

Lemma detect_platform_hosts_witness :
  Url.detect_platform "Open.Spotify.com" = Some "spotify".
Proof. apply detect_platform_hosts. reflexivity. Defined.

(** ** The redirect endpoint *)

Lemma lower_nonempty (s : string) : Str.nonempty (Str.lower s) = Str.nonempty s.
Proof. by destruct s. Qed.

(** X19. [get_preference]: the query parameter comes before the cookie, an
    empty one counts as absent, and the answer is lowercase and never
    empty. *)
Theorem get_preference_spec (cookies : gmap string string) (pref_param : option string) :
  (∀ p, pref_param = Some p → p ≠ "" →
     Handler.get_preference cookies pref_param = Some (Str.lower p))
  ∧ (pref_param = None ∨ pref_param = Some "" →
     Handler.get_preference cookies pref_param
     = Handler.get_preference cookies None)
  ∧ (∀ u, Handler.get_preference cookies pref_param = Some u →
       u ≠ "" ∧ Str.lower u = u)
  ∧ (Handler.get_preference cookies pref_param = None
     ↔ Handler.truthy_str pref_param = false
       ∧ Handler.truthy_str (cookies !! "music_pref") = false).
Proof.
  unfold Handler.get_preference. split; [|split; [|split]].
  - intros p -> Hp. by destruct p.
  - by intros [-> | ->].
  - intros u.
    destruct (Handler.truthy_str pref_param) eqn:E1;
      [|destruct (Handler.truthy_str (cookies !! "music_pref")) eqn:E2; [|done]];
      intros [= <-]; (split; [|apply lower_idem]).
    + destruct pref_param as [[|c p]|]; done.
    + destruct (cookies !! "music_pref") as [[|c p]|]; done.
  - destruct (Handler.truthy_str pref_param); [split; [done|by intros [? _]]|].
    destruct (Handler.truthy_str (cookies !! "music_pref")); split; try done.
    by intros [_ ?].
Qed.

Lemma get_preference_nonempty (cookies : gmap string string)
    (pref_param : option string) (u : string) :
  Handler.get_preference cookies pref_param = Some u → u ≠ "".
Proof.
  unfold Handler.get_preference.
  destruct (Handler.truthy_str pref_param) eqn:E1;
    [|destruct (Handler.truthy_str (cookies !! "music_pref")) eqn:E2; [|done]];
    intros [= <-].
  - destruct pref_param as [[|c p]|]; done.
  - destruct (cookies !! "music_pref") as [[|c p]|]; done.
Qed.

Lemma get_preference_lower (cookies : gmap string string)
    (pref_param : option string) (u : string) :
  Handler.get_preference cookies pref_param = Some u → Str.lower u = u.
Proof.
  unfold Handler.get_preference. repeat case_match; intros [= <-]; apply lower_idem.
Qed.

Lemma get_preference_spec_witness :
  Handler.get_preference {[ "music_pref" := "apple" ]} (Some "Spotify")
  = Some (Str.lower "Spotify").
Proof.
  apply (get_preference_spec {[ "music_pref" := "apple" ]} (Some "Spotify"));
    [reflexivity|discriminate].
Defined.

Lemma get_track_metadata_links (platform : string) (track_id : option string)
    (clients : Handler.MetadataClients) (url : string) :
  <[platform := url]> (Handler.get_track_metadata platform track_id clients).2
  = {[ platform := url ]}.
Proof.
  unfold Handler.get_track_metadata.
  destruct (String.eqb_spec platform "spotify") as [->|H1]; simpl.
  { destruct (Handler.truthy_str track_id); simpl;
      [destruct (Handler.get_track clients _); simpl|];
      by rewrite ?insert_singleton_eq, ?insert_empty. }
  destruct (String.eqb_spec platform "apple") as [->|H2]; simpl.
  { destruct (Handler.truthy_str track_id); simpl;
      [destruct (Handler.lookup_track clients _); simpl|];
      by rewrite ?insert_singleton_eq, ?insert_empty. }
  destruct (String.eqb_spec platform "youtube") as [->|H3]; simpl.
  { destruct (Handler.truthy_str track_id); simpl;
      by rewrite ?insert_singleton_eq, ?insert_empty. }
  by rewrite insert_empty.
Qed.

(** X20. [get_track_metadata]: the only link it can return is one for the
    platform asked for; nothing is looked up without a track id; YouTube
    never yields a title or an artist; and the Spotify link it builds has
    the path from which [extract_spotify_metadata] reads the track id
    back. *)
Theorem get_track_metadata_spec (platform : string) (track_id : option string)
    (clients : Handler.MetadataClients) :
  (∀ k u, (Handler.get_track_metadata platform track_id clients).2 !! k = Some u →
     k = platform)
  ∧ (Handler.truthy_str track_id = false →
     Handler.get_track_metadata platform track_id clients = (None, None, ∅))
  ∧ (platform = "youtube" →
     (Handler.get_track_metadata platform track_id clients).1 = (None, None))
  ∧ (∀ id u, platform = "spotify" → track_id = Some id →
       Str.all (λ c, negb (Ascii.eqb c "/")) id = true →
       (Handler.get_track_metadata platform track_id clients).2 !! "spotify" = Some u →
       ∃ path, u = "https://open.spotify.com" +:+ path
               ∧ Url.extract_spotify_metadata path = Some id).
Proof.
  split; [|split; [|split]].
  - intros k u Hk. destruct (decide (k = platform)) as [|Hne]; [done|].
    pose proof (get_track_metadata_links platform track_id clients "") as H.
    apply (f_equal (λ m, m !! k)) in H.
    rewrite lookup_insert_ne, lookup_singleton_ne in H by done. congruence.
  - intros Ht. unfold Handler.get_track_metadata. by rewrite Ht, !andb_false_r.
  - intros ->. unfold Handler.get_track_metadata. simpl.
    by destruct (Handler.truthy_str track_id).
  - intros id u -> -> Hid. unfold Handler.get_track_metadata. simpl.
    destruct (Str.nonempty id) eqn:Hne; simpl; [|by rewrite lookup_empty].
    destruct (Handler.get_track clients id); simpl; [|by rewrite lookup_empty].
    rewrite lookup_singleton_eq. intros [= <-]. exists ("/track/" +:+ id).
    split; [done|].
    apply extract_spotify_metadata_plain; [|done]. by destruct id.
Qed.

Lemma get_track_metadata_spec_witness :
  ∃ path, "https://open.spotify.com/track/3AJwUDP919kvQ9QcozQPxg"
          = "https://open.spotify.com" +:+ path
          ∧ Url.extract_spotify_metadata path = Some "3AJwUDP919kvQ9QcozQPxg".
Proof.
  refine (proj2 (proj2 (proj2 (get_track_metadata_spec "spotify"
            (Some "3AJwUDP919kvQ9QcozQPxg") HandlerSample.clients)))
            "3AJwUDP919kvQ9QcozQPxg" _ eq_refl eq_refl eq_refl eq_refl).
Defined.

Lemma redirect_handler_eq (cookies : gmap string string) (url : string)
    (pref : option string) (parsed : Handler.ParseResult)
    (clients details_clients : Handler.MetadataClients)
    (spotify_api itunes_api yt_api : Provider) (platform : string) :
  url ≠ "" → Url.detect_platform (Handler.netloc parsed) = Some platform →
  let user_pref := Handler.get_preference cookies pref in
  let track_id := Handler.extract_track_id platform parsed in
  let metadata := Handler.get_track_metadata platform track_id clients in
  let details := Handler.source_details platform track_id details_clients in
  Handler.redirect_handler cookies url pref (Some parsed) clients details_clients
    spotify_api itunes_api yt_api
  = if Handler.truthy_str user_pref && negb (String.eqb (or_empty user_pref) platform)
    then Handler.redirect_to_preferred (or_empty user_pref)
           metadata.1.1 metadata.1.2 {[ platform := url ]}
           spotify_api itunes_api yt_api details.1.1 details.1.2 details.2
    else inr (Handler.RedirectResponse url
                (if Handler.truthy_str user_pref then user_pref else None)).
Proof.
  intros Hurl Hp user_pref track_id metadata details.
  unfold Handler.redirect_handler. rewrite Hp.
  destruct url as [|c url]; [done|]. cbn [Str.nonempty negb].
  fold user_pref track_id.
  pose proof (get_track_metadata_links platform track_id clients (String c url)) as Hl.
  fold metadata in Hl |- *. fold details.
  destruct metadata as [[title artist] links]. destruct details as [[sd sa] stn].
  simpl in Hl |- *. by rewrite Hl.
Qed.

(** X21. An empty url is refused with status 400. A url on which
    [urlparse] raises makes the endpoint raise that [ValueError], uncaught.
    Otherwise, without a platform, without a preference, or with the
    preference for the platform of the url itself, the endpoint redirects to
    the url it was given, and it sets the cookie to the preference if there
    is one. *)
Theorem redirect_handler_keeps_url (cookies : gmap string string) (url : string)
    (pref : option string) (urlparse_url : option Handler.ParseResult)
    (clients details_clients : Handler.MetadataClients)
    (spotify_api itunes_api yt_api : Provider) :
  let response := Handler.redirect_handler cookies url pref urlparse_url clients
                    details_clients spotify_api itunes_api yt_api in
  (url = "" → response = inl (Handler.HTTPException 400))
  ∧ (url ≠ "" → urlparse_url = None → response = inl Handler.ValueError)
  ∧ (∀ parsed, url ≠ "" → urlparse_url = Some parsed →
       (Url.detect_platform (Handler.netloc parsed) = None →
          response = inr (Handler.RedirectResponse url None))
       ∧ (∀ platform, Url.detect_platform (Handler.netloc parsed) = Some platform →
            (Handler.get_preference cookies pref = None →
               response = inr (Handler.RedirectResponse url None))
            ∧ (Handler.get_preference cookies pref = Some platform →
                 response = inr (Handler.RedirectResponse url (Some platform))))).
Proof.
  intros response. split; [|split].
  - intros ->. done.
  - intros Hurl ->. subst response. by destruct url.
  - intros parsed Hurl ->. split.
    + intros Hp. subst response. unfold Handler.redirect_handler. rewrite Hp.
      by destruct url.
    + intros platform Hp. subst response.
      rewrite (redirect_handler_eq _ _ _ _ _ _ _ _ _ platform) by done. split.
      * intros ->. reflexivity.
      * intros Hpref. pose proof (get_preference_nonempty _ _ _ Hpref) as Hne.
        rewrite Hpref. cbn [Handler.truthy_str or_empty].
        rewrite String.eqb_refl, andb_false_r. by destruct platform.
Qed.

Lemma redirect_handler_keeps_url_witness :
  Handler.redirect_handler ∅ "http://[" (Some "spotify") None
    HandlerSample.offline HandlerSample.offline
    (Sample.answering []) (Sample.answering []) (Sample.answering [])
  = inl Handler.ValueError
  ∧ Handler.redirect_handler ∅ "https://example.org/some/page" (Some "spotify")
      (Some {| Handler.netloc := "example.org"; Handler.path := "/some/page";
               Handler.query := ∅ |})
      HandlerSample.offline HandlerSample.offline
      (Sample.answering []) (Sample.answering []) (Sample.answering [])
    = inr (Handler.RedirectResponse "https://example.org/some/page" None).
Proof.
  split.
  - apply redirect_handler_keeps_url; [discriminate|reflexivity].
  - refine (proj1 (proj2 (proj2 (redirect_handler_keeps_url _ _ _ _ _ _ _ _ _))
                     _ _ eq_refl) _); [discriminate|reflexivity].
Defined.

Lemma redirect_to_preferred_unbound (user_pref platform url : string)
    (title artist : option string) (spotify_api itunes_api yt_api : Provider)
    (sd : option Z) (sa : option string) (stn : option Z) :
  user_pref ≠ platform →
  Handler.truthy_str title = false ∨ Handler.truthy_str artist = false →
  Handler.redirect_to_preferred user_pref title artist {[ platform := url ]}
    spotify_api itunes_api yt_api sd sa stn
  = inl (Handler.Uncaught UnboundLocalError).
Proof.
  intros Hne H. unfold Handler.redirect_to_preferred.
  rewrite lookup_singleton_ne by done. simpl.
  by destruct H as [-> | ->]; rewrite ?andb_false_r.
Qed.

(** X22. With a preference for another service and no title or no artist for
    the source, the endpoint raises [UnboundLocalError]: line 784 reads the
    local [alternatives], which only the search assigns. This is the case
    of every YouTube url, for which no metadata is fetched. *)
Theorem redirect_handler_without_metadata_raises (cookies : gmap string string)
    (url : string) (pref : option string) (parsed : Handler.ParseResult)
    (clients details_clients : Handler.MetadataClients)
    (spotify_api itunes_api yt_api : Provider) (platform user_pref : string) :
  url ≠ "" → Url.detect_platform (Handler.netloc parsed) = Some platform →
  Handler.get_preference cookies pref = Some user_pref → user_pref ≠ platform →
  let metadata := Handler.get_track_metadata platform
                    (Handler.extract_track_id platform parsed) clients in
  platform = "youtube" ∨ Handler.truthy_str metadata.1.1 = false
  ∨ Handler.truthy_str metadata.1.2 = false →
  Handler.redirect_handler cookies url pref (Some parsed) clients details_clients
    spotify_api itunes_api yt_api
  = inl (Handler.Uncaught UnboundLocalError).
Proof.
  intros Hurl Hp Hpref Hne metadata Hm.
  rewrite (redirect_handler_eq _ _ _ _ _ _ _ _ _ platform) by done.
  rewrite Hpref. simpl.
  assert (Hu : Str.nonempty user_pref = true).
  { pose proof (get_preference_nonempty cookies pref user_pref Hpref).
    by destruct user_pref. }
  rewrite Hu, (proj2 (String.eqb_neq _ _) Hne). simpl.
  apply redirect_to_preferred_unbound; [done|]. fold metadata.
  destruct Hm as [->|[?|?]]; [|by left|by right]. left.
  subst metadata. unfold Handler.get_track_metadata.
  cbn [String.eqb Ascii.eqb Bool.eqb andb].
  by destruct (Handler.truthy_str (Handler.extract_track_id _ _)).
Qed.

Lemma redirect_handler_without_metadata_raises_witness :
  Handler.redirect_handler ∅ "https://youtu.be/yKNxeF4KMsY" (Some "spotify")
    (Some {| Handler.netloc := "youtu.be"; Handler.path := "/yKNxeF4KMsY";
             Handler.query := ∅ |})
    HandlerSample.offline HandlerSample.offline
    (Sample.answering [Sample.yellow_itunes]) (Sample.answering []) (Sample.answering [])
  = inl (Handler.Uncaught UnboundLocalError).
Proof.
  apply (redirect_handler_without_metadata_raises _ _ _ _ _ _ _ _ _
           "youtube" "spotify");
    [discriminate|reflexivity|reflexivity|discriminate|by left].
Defined.

Lemma redirect_to_preferred_searched (user_pref platform url title artist : string)
    (spotify_api itunes_api yt_api : Provider)
    (sd : option Z) (sa : option string) (stn : option Z) :
  user_pref ≠ platform → title ≠ "" → artist ≠ "" →
  Handler.redirect_to_preferred user_pref (Some title) (Some artist)
    {[ platform := url ]} spotify_api itunes_api yt_api sd sa stn
  = match find_equivalent_links title artist spotify_api itunes_api yt_api
            sd sa stn with
    | Raise e => inl (Handler.Uncaught e)
    | Return (equivalent_links, alt_matches) =>
        let target_url := equivalent_links !! user_pref in
        if Handler.truthy_str target_url
        then inr (Handler.RedirectResponse (or_empty target_url) (Some user_pref))
        else inr (Handler.HTMLResponse
                    (Handler.build_fallback_html (Some title) (Some artist)
                       ({[ platform := url ]} ∪ equivalent_links) user_pref
                       (Some [(user_pref, default [] (alt_matches !! user_pref))])))
    end.
Proof.
  intros Hne Ht Ha. unfold Handler.redirect_to_preferred.
  rewrite lookup_singleton_ne by done.
  destruct title as [|c title]; [done|]. destruct artist as [|d artist]; [done|].
  cbn [Handler.truthy_str Str.nonempty negb andb or_empty].
  destruct (find_equivalent_links _ _ _ _ _ _ _ _) as [[equivalent_links alt_matches]|e];
    [|done].
  rewrite lookup_union_r by (by apply lookup_singleton_ne). done.
Qed.

Lemma redirect_handler_searched (cookies : gmap string string)
    (url : string) (pref : option string) (parsed : Handler.ParseResult)
    (clients details_clients : Handler.MetadataClients)
    (spotify_api itunes_api yt_api : Provider)
    (platform user_pref title artist : string) :
  url ≠ "" → Url.detect_platform (Handler.netloc parsed) = Some platform →
  Handler.get_preference cookies pref = Some user_pref → user_pref ≠ platform →
  let track_id := Handler.extract_track_id platform parsed in
  (Handler.get_track_metadata platform track_id clients).1 = (Some title, Some artist) →
  let details := Handler.source_details platform track_id details_clients in
  Handler.redirect_handler cookies url pref (Some parsed) clients details_clients
    spotify_api itunes_api yt_api
  = Handler.redirect_to_preferred user_pref (Some title) (Some artist)
      {[ platform := url ]} spotify_api itunes_api yt_api
      details.1.1 details.1.2 details.2.
Proof.
  intros Hurl Hp Hpref Hne track_id Hm details.
  rewrite (redirect_handler_eq _ _ _ _ _ _ _ _ _ platform) by done.
  rewrite Hpref. cbn [Handler.truthy_str or_empty].
  pose proof (get_preference_nonempty cookies pref user_pref Hpref).
  assert (Hu : Str.nonempty user_pref = true) by by destruct user_pref.
  rewrite Hu, (proj2 (String.eqb_neq _ _) Hne). cbn [negb andb].
  fold track_id. by rewrite Hm.
Qed.

(** X23. With a preference for another service and a title and an artist for
    the source, the search decides the response. An exception of the search
    goes through the endpoint uncaught. A link for the preferred service
    that is not empty is the target of the redirect, which sets the cookie
    to the preference. Without such a link, the answer is the page of [build_fallback_html]
    for the url under its platform, the links that the search found for
    the other services, and the alternatives of the preferred service
    alone. *)
Theorem redirect_handler_after_search (cookies : gmap string string)
    (url : string) (pref : option string) (parsed : Handler.ParseResult)
    (clients details_clients : Handler.MetadataClients)
    (spotify_api itunes_api yt_api : Provider)
    (platform user_pref title artist : string) :
  url ≠ "" → Url.detect_platform (Handler.netloc parsed) = Some platform →
  Handler.get_preference cookies pref = Some user_pref → user_pref ≠ platform →
  let track_id := Handler.extract_track_id platform parsed in
  (Handler.get_track_metadata platform track_id clients).1 = (Some title, Some artist) →
  title ≠ "" → artist ≠ "" →
  let details := Handler.source_details platform track_id details_clients in
  let response := Handler.redirect_handler cookies url pref (Some parsed) clients
                    details_clients spotify_api itunes_api yt_api in
  match find_equivalent_links title artist spotify_api itunes_api yt_api
          details.1.1 details.1.2 details.2 with
  | Raise e => response = inl (Handler.Uncaught e)
  | Return (equivalent_links, alt_matches) =>
      let page :=
        Handler.build_fallback_html (Some title) (Some artist)
          ({[ platform := url ]} ∪ equivalent_links) user_pref
          (Some [(user_pref, default [] (alt_matches !! user_pref))]) in
      response
      = match equivalent_links !! user_pref with
        | Some target =>
            if Str.nonempty target
            then inr (Handler.RedirectResponse target (Some user_pref))
            else inr (Handler.HTMLResponse page)
        | None => inr (Handler.HTMLResponse page)
        end
  end.
Proof.
  intros Hurl Hp Hpref Hne track_id Hm Ht Ha details response.
  assert (Hr : response
               = Handler.redirect_to_preferred user_pref (Some title) (Some artist)
                   {[ platform := url ]} spotify_api itunes_api yt_api
                   details.1.1 details.1.2 details.2)
    by by apply redirect_handler_searched.
  rewrite Hr, redirect_to_preferred_searched by done.
  destruct (find_equivalent_links _ _ _ _ _ _ _ _) as [[equivalent_links alt_matches]|e];
    [|done].
  cbn zeta. by destruct (equivalent_links !! user_pref) as [target|].
Qed.

Lemma redirect_handler_redirects (cookies : gmap string string)
    (url : string) (pref : option string) (parsed : Handler.ParseResult)
    (clients details_clients : Handler.MetadataClients)
    (spotify_api itunes_api yt_api : Provider)
    (target : string) (music_pref : option string) :
  Handler.redirect_handler cookies url pref (Some parsed) clients details_clients
    spotify_api itunes_api yt_api
  = inr (Handler.RedirectResponse target music_pref) →
  (music_pref = None ∨ music_pref = Handler.get_preference cookies pref)
  ∧ (target = url
     ∨ ∃ platform user_pref title artist results t c,
         Url.detect_platform (Handler.netloc parsed) = Some platform
         ∧ Handler.get_preference cookies pref = Some user_pref
         ∧ music_pref = Some user_pref ∧ user_pref ≠ platform
         ∧ (Handler.get_track_metadata platform
              (Handler.extract_track_id platform parsed) clients).1
           = (Some title, Some artist)
         ∧ (user_pref, results)
             ∈ [("spotify", search_track spotify_api title artist);
                ("apple", search_track itunes_api title artist);
                ("youtube", search_track yt_api title artist)]
         ∧ t ∈ results ∧ track_url t = target
         ∧ let details := Handler.source_details platform
                            (Handler.extract_track_id platform parsed)
                            details_clients in
           outcome (Build_Source title artist details.1.1 details.1.2 details.2)
             user_pref t = Exact c).
Proof.
  intros H.
  destruct (decide (url = "")) as [->|Hurl]; [done|].
  destruct (Url.detect_platform (Handler.netloc parsed)) as [platform|] eqn:Hp.
  2:{ unfold Handler.redirect_handler in H. rewrite Hp in H.
      destruct url; [done|]. injection H as <- <-. split; by left. }
  rewrite (redirect_handler_eq _ _ _ _ _ _ _ _ _ platform) in H by done.
  destruct (Handler.get_preference cookies pref) as [user_pref|] eqn:Hpref.
  2:{ injection H as <- <-. split; by left. }
  pose proof (get_preference_nonempty cookies pref user_pref Hpref).
  assert (Hu : Str.nonempty user_pref = true) by by destruct user_pref.
  cbn [Handler.truthy_str or_empty] in H. rewrite Hu in H.
  destruct (decide (user_pref = platform)) as [->|Hne].
  { rewrite String.eqb_refl in H. injection H as <- <-. split; [by right|by left]. }
  rewrite (proj2 (String.eqb_neq _ _) Hne) in H. cbn [negb andb] in H.
  destruct (Handler.get_track_metadata platform
              (Handler.extract_track_id platform parsed) clients)
    as [[title artist] links0] eqn:Hmeta.
  set (details := Handler.source_details _ _ _) in H. cbn [fst snd] in H.
  destruct (decide (Handler.truthy_str title = false
                    ∨ Handler.truthy_str artist = false)) as [Hm|Hm].
  { by rewrite redirect_to_preferred_unbound in H. }
  destruct title as [title|]; [|by destruct Hm; left].
  destruct artist as [artist|]; [|by destruct Hm; right].
  assert (Ht : title ≠ "") by (intros ->; apply Hm; by left).
  assert (Ha : artist ≠ "") by (intros ->; apply Hm; by right).
  rewrite redirect_to_preferred_searched in H by done.
  pose proof (find_equivalent_links_eq title artist spotify_api itunes_api yt_api
                details.1.1 details.1.2 details.2) as Heq.
  cbn zeta in Heq.
  destruct (find_equivalent_links _ _ _ _ _ _ _ _) as [[equivalent_links alt_matches]|e];
    [|done].
  cbn zeta in H.
  destruct (equivalent_links !! user_pref) as [u|] eqn:Hl; [|done].
  cbn [Handler.truthy_str or_empty] in H.
  destruct (Str.nonempty u); [|done]. injection H as <- <-.
  split; [by right|right].
  symmetry in Heq. apply run_providers_origin in Heq as [Hlinks _].
  destruct (Hlinks _ _ Hl) as [Hin | (results & t & c & Hres & Ht' & Hc & Hurl')].
  { by rewrite lookup_empty in Hin. }
  exists platform, user_pref, title, artist, results, t, c.
  rewrite ?Hmeta. by repeat split.
Qed.

(** X24. The endpoint redirects to the url it was given or to the url of a
    result that the service of the preference returned for the title and
    the artist of the source and that the matcher classified as exact; the
    cookie it sets, if any, is the preference. *)
Theorem redirect_handler_target (cookies : gmap string string)
    (url : string) (pref : option string) (parsed : Handler.ParseResult)
    (clients details_clients : Handler.MetadataClients)
    (spotify_api itunes_api yt_api : Provider)
    (target : string) (music_pref : option string) :
  Handler.redirect_handler cookies url pref (Some parsed) clients details_clients
    spotify_api itunes_api yt_api
  = inr (Handler.RedirectResponse target music_pref) →
  (music_pref = None ∨ music_pref = Handler.get_preference cookies pref)
  ∧ (target = url
     ∨ ∃ platform user_pref title artist results t c,
         Url.detect_platform (Handler.netloc parsed) = Some platform
         ∧ Handler.get_preference cookies pref = Some user_pref
         ∧ music_pref = Some user_pref ∧ user_pref ≠ platform
         ∧ (Handler.get_track_metadata platform
              (Handler.extract_track_id platform parsed) clients).1
           = (Some title, Some artist)
         ∧ (user_pref, results)
             ∈ [("spotify", search_track spotify_api title artist);
                ("apple", search_track itunes_api title artist);
                ("youtube", search_track yt_api title artist)]
         ∧ t ∈ results ∧ track_url t = target
         ∧ let details := Handler.source_details platform
                            (Handler.extract_track_id platform parsed)
                            details_clients in
           outcome (Build_Source title artist details.1.1 details.1.2 details.2)
             user_pref t = Exact c).
Proof.
  intros H.
  destruct (decide (url = "")) as [->|Hurl]; [done|].
  destruct (Url.detect_platform (Handler.netloc parsed)) as [platform|] eqn:Hp.
  2:{ unfold Handler.redirect_handler in H. rewrite Hp in H.
      destruct url; [done|]. injection H as <- <-. split; by left. }
  rewrite (redirect_handler_eq _ _ _ _ _ _ _ _ _ platform) in H by done.
  destruct (Handler.get_preference cookies pref) as [user_pref|] eqn:Hpref.
  2:{ injection H as <- <-. split; by left. }
  pose proof (get_preference_nonempty cookies pref user_pref Hpref).
  assert (Hu : Str.nonempty user_pref = true) by by destruct user_pref.
  cbn [Handler.truthy_str or_empty] in H. rewrite Hu in H.
  destruct (decide (user_pref = platform)) as [->|Hne].
  { rewrite String.eqb_refl in H. injection H as <- <-. split; [by right|by left]. }
  rewrite (proj2 (String.eqb_neq _ _) Hne) in H. cbn [negb andb] in H.
  destruct (Handler.get_track_metadata platform
              (Handler.extract_track_id platform parsed) clients)
    as [[title artist] links0] eqn:Hmeta.
  set (details := Handler.source_details _ _ _) in H. cbn [fst snd] in H.
  destruct (decide (Handler.truthy_str title = false
                    ∨ Handler.truthy_str artist = false)) as [Hm|Hm].
  { by rewrite redirect_to_preferred_unbound in H. }
  destruct title as [title|]; [|by destruct Hm; left].
  destruct artist as [artist|]; [|by destruct Hm; right].
  assert (Ht : title ≠ "") by (intros ->; apply Hm; by left).
  assert (Ha : artist ≠ "") by (intros ->; apply Hm; by right).
  rewrite redirect_to_preferred_searched in H by done.
  pose proof (find_equivalent_links_eq title artist spotify_api itunes_api yt_api
                details.1.1 details.1.2 details.2) as Heq.
  cbn zeta in Heq.
  destruct (find_equivalent_links _ _ _ _ _ _ _ _) as [[equivalent_links alt_matches]|e];
    [|done].
  cbn zeta in H.
  destruct (equivalent_links !! user_pref) as [u|] eqn:Hl; [|done].
  cbn [Handler.truthy_str or_empty] in H.
  destruct (Str.nonempty u); [|done]. injection H as <- <-.
  split; [by right|right].
  symmetry in Heq. apply run_providers_origin in Heq as [Hlinks _].
  destruct (Hlinks _ _ Hl) as [Hin | (results & t & c & Hres & Ht' & Hc & Hurl')].
  { by rewrite lookup_empty in Hin. }
  exists platform, user_pref, title, artist, results, t, c.
  rewrite ?Hmeta. by repeat split.
Qed.

Lemma redirect_handler_after_search_witness :
  Handler.redirect_handler ∅ HandlerSample.yellow_url (Some "apple")
    (Some HandlerSample.yellow_parsed) HandlerSample.clients HandlerSample.clients
    (Sample.answering []) (Sample.answering [Sample.yellow_itunes])
    (Sample.answering [])
  = inr (Handler.RedirectResponse (track_url Sample.yellow_itunes) (Some "apple")).
Proof.
  pose proof (redirect_handler_after_search ∅ HandlerSample.yellow_url (Some "apple")
    HandlerSample.yellow_parsed HandlerSample.clients HandlerSample.clients
    (Sample.answering []) (Sample.answering [Sample.yellow_itunes])
    (Sample.answering []) "spotify" "apple" "Yellow" "Coldplay") as H.
  cbv zeta in H.
  assert (E : find_equivalent_links "Yellow" "Coldplay"
                (Sample.answering []) (Sample.answering [Sample.yellow_itunes])
                (Sample.answering []) (Some 266773) (Some "Parachutes") (Some 1)
              = Return ({[ "apple" := track_url Sample.yellow_itunes ]}, ∅))
    by (vm_compute; reflexivity).
  change (Handler.source_details _ _ _)
    with (Some 266773, Some "Parachutes", Some 1) in H.
  cbn [fst snd] in H. rewrite E, lookup_singleton_eq in H.
  apply H.
  - discriminate.
  - vm_compute; reflexivity.
  - vm_compute; reflexivity.
  - discriminate.
  - vm_compute; reflexivity.
  - discriminate.
  - discriminate.
Defined.
Lemma redirect_handler_target_witness :
  (Some "apple" = None
   ∨ Some "apple" = Handler.get_preference ∅ (Some "apple"))
  ∧ (track_url Sample.yellow_itunes = HandlerSample.yellow_url
     ∨ ∃ platform user_pref title artist results t c,
         Url.detect_platform (Handler.netloc HandlerSample.yellow_parsed)
         = Some platform
         ∧ Handler.get_preference ∅ (Some "apple") = Some user_pref
         ∧ Some "apple" = Some user_pref ∧ user_pref ≠ platform
         ∧ (Handler.get_track_metadata platform
              (Handler.extract_track_id platform HandlerSample.yellow_parsed)
              HandlerSample.clients).1
           = (Some title, Some artist)
         ∧ (user_pref, results)
             ∈ [("spotify", search_track (Sample.answering []) title artist);
                ("apple", search_track (Sample.answering [Sample.yellow_itunes])
                            title artist);
                ("youtube", search_track (Sample.answering []) title artist)]
         ∧ t ∈ results ∧ track_url t = track_url Sample.yellow_itunes
         ∧ let details := Handler.source_details platform
                            (Handler.extract_track_id platform
                               HandlerSample.yellow_parsed)
                            HandlerSample.clients in
           outcome (Build_Source title artist details.1.1 details.1.2 details.2)
             user_pref t = Exact c).
Proof.
  apply (redirect_handler_target ∅ HandlerSample.yellow_url (Some "apple")
           HandlerSample.yellow_parsed HandlerSample.clients HandlerSample.clients).
  vm_compute. reflexivity.
Defined.

(** X25. The [music_pref] cookie that [set_preference] or [redirect_handler]
    sets is never empty, and [get_preference] reads it back unchanged from
    a later request without a [pref] parameter. *)
Theorem music_pref_cookie_round_trip (cookies later : gmap string string)
    (url : string) (pref : option string)
    (urlparse_url : option Handler.ParseResult)
    (clients details_clients : Handler.MetadataClients)
    (spotify_api itunes_api yt_api : Provider) (p target cookie : string) :
  Handler.set_preference p = inr (Handler.PreferenceResponse p cookie)
  ∨ Handler.redirect_handler cookies url pref urlparse_url clients details_clients
      spotify_api itunes_api yt_api
    = inr (Handler.RedirectResponse target (Some cookie)) →
  cookie ≠ ""
  ∧ Handler.get_preference (<["music_pref" := cookie]> later) None = Some cookie
  ∧ Handler.get_preference (<["music_pref" := cookie]> later) (Some "")
    = Some cookie.
Proof.
  intros H.
  assert (Hc : cookie ≠ "" ∧ Str.lower cookie = cookie).
  { destruct H as [H|H].
    - unfold Handler.set_preference in H.
      destruct (Str.nonempty p) eqn:Hp; [|done]. injection H as <-.
      split; [|apply lower_idem]. by destruct p.
    - destruct urlparse_url as [parsed|]; [|by destruct url].
      apply redirect_handler_redirects in H as [[?|H] _]; [done|].
      symmetry in H. split.
      + by eapply get_preference_nonempty.
      + by eapply get_preference_lower. }
  destruct Hc as [Hne Hl]. split; [done|].
  unfold Handler.get_preference. cbn [Handler.truthy_str Str.nonempty].
  rewrite lookup_insert_eq. cbn [Handler.truthy_str or_empty]. rewrite Hl.
  by destruct cookie.
Qed.

Lemma music_pref_cookie_round_trip_witness :
  Handler.get_preference (<["music_pref" := "spotify"]> ∅) None = Some "spotify".
Proof.
  apply (music_pref_cookie_round_trip ∅ ∅ "" None None
           HandlerSample.offline HandlerSample.offline
           (Sample.answering []) (Sample.answering []) (Sample.answering [])
           "Spotify" "" "spotify").
  left. reflexivity.
Defined.

(** ** The YouTube client *)

Lemma youtube_result_of_shape (item : YouTube.Item) (t : Track) :
  YouTube.result_of item = inr (Some t) →
  track_album t = "" ∧ track_duration t = None ∧ track_number t = None
  ∧ ∃ video_id, video_id ≠ ""
      ∧ track_url t = "https://www.youtube.com/watch?v=" +:+ video_id.
Proof.
  unfold YouTube.result_of. intros H.
  destruct (YouTube.item_id item) as [[video_id]|]; [|done]. simpl in H.
  destruct video_id as [[|c video_id]|]; simpl in H; try done.
  destruct (YouTube.item_snippet item) as [[[title|] [channel|]]|]; try done.
  injection H as <-. simpl. repeat split. by exists (String c video_id).
Qed.

Lemma youtube_results_of_shape (items : list YouTube.Item) (results : list Track) :
  YouTube.results_of items = inr results →
  (length results ≤ length items)%nat
  ∧ Forall (λ t, ∃ item, item ∈ items ∧ YouTube.result_of item = inr (Some t)) results.
Proof.
  revert results. induction items as [|item items IH]; intros results H.
  - injection H as <-. split; [done|constructor].
  - cbn [YouTube.results_of] in H.
    destruct (YouTube.result_of item) as [e|r] eqn:Hr; [done|].
    destruct (YouTube.results_of items) as [e|results'] eqn:Hrs; [done|].
    injection H as <-. destruct (IH _ eq_refl) as [Hlen Hall].
    assert (Hall' : Forall (λ t, ∃ item', item' ∈ item :: items
                                  ∧ YouTube.result_of item' = inr (Some t)) results').
    { eapply Forall_impl; [|exact Hall]. intros t (item' & Hin & Ht).
      exists item'. split; [by right|done]. }
    destruct r as [t|].
    + split; [simpl; lia|]. constructor; [|done].
      exists item. split; [by left|done].
    + split; [simpl; lia|done].
Qed.

Lemma youtube_search_track_shape (api_key : option string)
    (get : string → option (list YouTube.Item)) (title artist : string) (t : Track) :
  t ∈ YouTube.search_track api_key get title artist →
  track_album t = "" ∧ track_duration t = None ∧ track_number t = None
  ∧ ∃ video_id, video_id ≠ ""
      ∧ track_url t = "https://www.youtube.com/watch?v=" +:+ video_id.
Proof.
  unfold YouTube.search_track. intros H.
  destruct (negb _); [by apply elem_of_nil in H|].
  destruct (get _) as [items|]; [|by apply elem_of_nil in H].
  destruct (YouTube.results_of items) as [e|results] eqn:Hr;
    [by apply elem_of_nil in H|].
  apply youtube_results_of_shape in Hr as [_ Hall].
  rewrite list.Forall_forall in Hall. destruct (Hall t H) as (item & _ & Ht).
  by apply youtube_result_of_shape in Ht.
Qed.

(** X26. What [YouTubeAPI.search_track] returns: nothing without an API key,
    when the request fails or when an item lacks a key that the code
    reads; otherwise at most one result per item, each with the url of a
    video that has an id, and none with an album, a duration or a track
    number. *)
Theorem youtube_search_track_results (api_key : option string)
    (get : string → option (list YouTube.Item)) (title artist : string) :
  let results := YouTube.search_track api_key get title artist in
  (Handler.truthy_str api_key = false → results = [])
  ∧ (get (title +:+ " " +:+ artist) = None → results = [])
  ∧ (∀ items, get (title +:+ " " +:+ artist) = Some items →
       (length results ≤ length items)%nat
       ∧ ((∃ item, item ∈ items ∧ YouTube.result_of item = inl YouTube.KeyError) →
          results = []))
  ∧ Forall (λ t, track_album t = "" ∧ track_duration t = None
                 ∧ track_number t = None
                 ∧ ∃ video_id, video_id ≠ ""
                     ∧ track_url t = "https://www.youtube.com/watch?v=" +:+ video_id)
      results.
Proof.
  intros results. split; [|split; [|split]].
  - intros H. subst results. unfold YouTube.search_track. by rewrite H.
  - intros H. subst results. unfold YouTube.search_track. rewrite H.
    by destruct (negb _).
  - intros items H. subst results. unfold YouTube.search_track. rewrite H.
    destruct (negb _); [split; [simpl; lia|done]|].
    destruct (YouTube.results_of items) as [e|results] eqn:Hr.
    + split; [simpl; lia|done].
    + split; [by apply youtube_results_of_shape in Hr as [? _]|].
      intros (item & Hin & Hitem). exfalso.
      clear H. revert results Hr. induction items as [|item' items IH]; intros results Hr.
      * by apply elem_of_nil in Hin.
      * cbn [YouTube.results_of] in Hr.
        destruct (YouTube.result_of item') as [e|r] eqn:Hr'; [done|].
        destruct (YouTube.results_of items) as [e|results'] eqn:Hrs; [done|].
        apply elem_of_cons in Hin as [->|Hin]; [congruence|]. by eapply IH.
  - rewrite list.Forall_forall. intros t. apply youtube_search_track_shape.
Qed.

Lemma youtube_search_track_results_witness :
  YouTube.search_track None (λ _, Some []) "Yellow" "Coldplay" = [].
Proof.
  by apply (proj1 (youtube_search_track_results None (λ _, Some [])
                     "Yellow" "Coldplay")).
Defined.

Lemma trips_debug_output_no_duration (src : Source) (t : Track) (results : list Track) :
  track_duration t = None → trips_debug_output src (t :: results) = true.
Proof. intros H. cbn [trips_debug_output]. rewrite H. simpl. by rewrite andb_false_r. Qed.

Lemma find_equivalent_links_trips (title artist : string)
    (spotify_api itunes_api yt_api : Provider) (sd : option Z)
    (sa : option string) (stn : option Z) :
  let src := {| title := title; artist := artist; source_duration_ms := sd;
                source_album := sa; source_track_number := stn |} in
  Exists (λ p : string * list Track, trips_debug_output src p.2 = true)
    [("spotify", search_track spotify_api title artist);
     ("apple", search_track itunes_api title artist);
     ("youtube", search_track yt_api title artist)] →
  find_equivalent_links title artist spotify_api itunes_api yt_api sd sa stn
  = Raise UnboundLocalError.
Proof.
  intros src H. rewrite find_equivalent_links_eq. by apply run_providers_raises_iff.
Qed.

Lemma youtube_answer_trips (src : Source) (api_key : option string)
    (get : string → option (list YouTube.Item)) (title artist : string) :
  YouTube.search_track api_key get title artist ≠ [] →
  trips_debug_output src (YouTube.search_track api_key get title artist) = true.
Proof.
  intros Hne.
  pose proof (youtube_search_track_shape api_key get title artist) as Hshape.
  destruct (YouTube.search_track api_key get title artist) as [|t results]; [done|].
  apply trips_debug_output_no_duration.
  destruct (Hshape t) as (_ & Hd & _); [by left|done].
Qed.

(** X27. One video in the answer of YouTube is enough for
    [find_equivalent_links] to raise [UnboundLocalError], whatever the
    other services answer: the first result of YouTube has no duration, so
    its iteration reaches line 525 with [exact_duration_tolerance] unbound.
    So the function never returns a link or an alternative of YouTube. *)
Theorem youtube_answer_raises (title artist : string)
    (spotify_api itunes_api : Provider) (api_key : option string)
    (get : string → option (list YouTube.Item)) (sd : option Z)
    (sa : option string) (stn : option Z) :
  let out := find_equivalent_links title artist spotify_api itunes_api
               (YouTube.api api_key get) sd sa stn in
  (YouTube.search_track api_key get title artist ≠ [] →
   out = Raise UnboundLocalError)
  ∧ (∀ links alternatives, out = Return (links, alternatives) →
       links !! "youtube" = None ∧ alternatives !! "youtube" = None).
Proof.
  intros out.
  assert (H1 : YouTube.search_track api_key get title artist ≠ [] →
               out = Raise UnboundLocalError).
  { intros Hne. apply find_equivalent_links_trips.
    do 2 apply Exists_cons_tl. apply Exists_cons_hd.
    by apply youtube_answer_trips. }
  split; [done|]. intros links alternatives Hout.
  destruct (decide (YouTube.search_track api_key get title artist = [])) as [He|Hne];
    [|rewrite H1 in Hout; done].
  subst out. rewrite find_equivalent_links_eq in Hout.
  apply run_providers_origin in Hout as [Hl Ha]. split.
  - destruct (links !! "youtube") as [u|] eqn:E; [|done].
    destruct (Hl _ _ E) as [Hin|(results & t & c & Hin & Ht & _)];
      [by rewrite lookup_empty in Hin|].
    apply elem_of_cons in Hin as [[=]|Hin].
    apply elem_of_cons in Hin as [[=]|Hin].
    apply elem_of_cons in Hin as [[= ->]|Hin]; [|by apply elem_of_nil in Hin].
    cbn [search_track YouTube.api] in Ht. rewrite He in Ht.
    by apply elem_of_nil in Ht.
  - destruct (alternatives !! "youtube") as [items|] eqn:E; [|done].
    destruct (Ha _ _ E) as [Hin|(results & Hin & Hne & Hlen & _)];
      [by rewrite lookup_empty in Hin|].
    apply elem_of_cons in Hin as [[=]|Hin].
    apply elem_of_cons in Hin as [[=]|Hin].
    apply elem_of_cons in Hin as [[= ->]|Hin]; [|by apply elem_of_nil in Hin].
    cbn [search_track YouTube.api] in Hlen. rewrite He in Hlen.
    destruct items; [done|simpl in Hlen; lia].
Qed.

Lemma youtube_answer_raises_witness :
  find_equivalent_links "Yellow" "Coldplay"
    (Sample.answering []) (Sample.answering [Sample.yellow_itunes])
    (YouTube.api (Some "key")
       (λ _, Some [ {| YouTube.item_id := Some {| YouTube.videoId := Some "yKNxeF4KMsY" |};
                       YouTube.item_snippet :=
                         Some {| YouTube.snippet_title := Some "Coldplay - Yellow";
                                 YouTube.channelTitle := Some "Coldplay" |} |} ]))
    (Some 266773) (Some "Parachutes") (Some 1)
  = Raise UnboundLocalError.
Proof.
  by apply (proj1 (youtube_answer_raises "Yellow" "Coldplay"
                     (Sample.answering []) (Sample.answering [Sample.yellow_itunes])
                     (Some "key") _ (Some 266773) (Some "Parachutes") (Some 1))).
Defined.

Lemma trips_debug_output_no_source_duration (src : Source) (results : list Track) :
  truthy (source_duration_ms src) = false →
  trips_debug_output src results = bool_decide (results ≠ []).
Proof.
  intros H. destruct results as [|t results]; [done|].
  cbn [trips_debug_output]. by rewrite H.
Qed.

(** X28. When the source has no duration, or one of 0, [find_equivalent_links]
    finds nothing: as soon as one service answers with a result it raises
    [UnboundLocalError], and when it returns, both of its dictionaries
    are empty. *)
Theorem no_source_duration_no_match (title artist : string)
    (spotify_api itunes_api yt_api : Provider) (sd : option Z)
    (sa : option string) (stn : option Z) :
  truthy sd = false →
  let out := find_equivalent_links title artist spotify_api itunes_api yt_api
               sd sa stn in
  let answers := [search_track spotify_api title artist;
                  search_track itunes_api title artist;
                  search_track yt_api title artist] in
  (out = Raise UnboundLocalError ↔ ∃ results, results ∈ answers ∧ results ≠ [])
  ∧ (out = Return (∅, ∅) ↔ ∀ results, results ∈ answers → results = [])
  ∧ (out = Raise UnboundLocalError ∨ out = Return (∅, ∅)).
Proof.
  intros Hsd out answers.
  set (src := {| title := title; artist := artist; source_duration_ms := sd;
                 source_album := sa; source_track_number := stn |}).
  assert (Hout : out = run_providers src
            [("spotify", search_track spotify_api title artist);
             ("apple", search_track itunes_api title artist);
             ("youtube", search_track yt_api title artist)] ∅ ∅)
    by apply find_equivalent_links_eq.
  assert (Htrips : ∀ results, trips_debug_output src results = bool_decide (results ≠ []))
    by (intros results; by apply trips_debug_output_no_source_duration).
  assert (Hraise : out = Raise UnboundLocalError
                   ↔ ∃ results, results ∈ answers ∧ results ≠ []).
  { rewrite Hout, run_providers_raises_iff, !Exists_cons, Exists_nil. simpl.
    rewrite !Htrips, !bool_decide_eq_true. subst answers. split.
    - intros [H|[H|[H|[]]]]; eexists; (split; [|exact H]).
      + by left.
      + right. by left.
      + do 2 right. by left.
    - intros (results & Hin & Hne).
      apply elem_of_cons in Hin as [->|Hin]; [by left|].
      apply elem_of_cons in Hin as [->|Hin]; [right; by left|].
      apply elem_of_cons in Hin as [->|Hin]; [do 2 right; by left|].
      by apply elem_of_nil in Hin. }
  assert (Hreturn : (∀ results, results ∈ answers → results = []) → out = Return (∅, ∅)).
  { intros Hall. rewrite Hout.
    rewrite (Hall (search_track spotify_api title artist)) by (by left).
    rewrite (Hall (search_track itunes_api title artist)) by (right; by left).
    rewrite (Hall (search_track yt_api title artist)) by (do 2 right; by left).
    reflexivity. }
  split; [done|]. split.
  - split; [|done]. intros Hr results Hin.
    destruct results as [|t results]; [done|].
    assert (out = Raise UnboundLocalError) by (apply Hraise; by eexists).
    congruence.
  - clearbody out. destruct out as [[links alternatives]|[]]; [|by left].
    right. apply Hreturn. intros results Hin.
    destruct results as [|t results]; [done|].
    assert (Return (links, alternatives) = Raise UnboundLocalError) as [=].
    apply Hraise. by eexists.
Qed.

Lemma no_source_duration_no_match_witness :
  find_equivalent_links "Yellow" "Coldplay"
    (Sample.answering []) (Sample.answering [Sample.yellow_itunes])
    (Sample.answering []) None (Some "Parachutes") (Some 1)
  = Raise UnboundLocalError.
Proof.
  apply (no_source_duration_no_match "Yellow" "Coldplay"
           (Sample.answering []) (Sample.answering [Sample.yellow_itunes])
           (Sample.answering []) None (Some "Parachutes") (Some 1) eq_refl).
  exists [Sample.yellow_itunes]. split; [|done]. right. by left.
Defined.

(** X29. Two ways in which a request that reaches the search ends in an
    uncaught [UnboundLocalError]: the YouTube client returns a video, or
    the source has no duration and one of the services returns a result. *)
Theorem redirect_handler_search_raises (cookies : gmap string string)
    (url : string) (pref : option string) (parsed : Handler.ParseResult)
    (clients details_clients : Handler.MetadataClients)
    (spotify_api itunes_api yt_api : Provider)
    (platform user_pref title artist : string) :
  url ≠ "" → Url.detect_platform (Handler.netloc parsed) = Some platform →
  Handler.get_preference cookies pref = Some user_pref → user_pref ≠ platform →
  let track_id := Handler.extract_track_id platform parsed in
  (Handler.get_track_metadata platform track_id clients).1 = (Some title, Some artist) →
  title ≠ "" → artist ≠ "" →
  let details := Handler.source_details platform track_id details_clients in
  ((∃ api_key get, yt_api = YouTube.api api_key get
                   ∧ YouTube.search_track api_key get title artist ≠ [])
   ∨ (truthy details.1.1 = false
      ∧ ∃ api, api ∈ [spotify_api; itunes_api; yt_api]
               ∧ search_track api title artist ≠ [])) →
  Handler.redirect_handler cookies url pref (Some parsed) clients details_clients
    spotify_api itunes_api yt_api
  = inl (Handler.Uncaught UnboundLocalError).
Proof.
  intros Hurl Hp Hpref Hne track_id Hm Ht Ha details H.
  rewrite (redirect_handler_searched _ _ _ _ _ _ _ _ _ platform user_pref title artist)
    by done.
  rewrite redirect_to_preferred_searched by done.
  fold track_id. fold details.
  rewrite find_equivalent_links_trips; [done|].
  destruct H as [(api_key & get & -> & Hne')|(Hsd & api & Hin & Hne')].
  - do 2 apply Exists_cons_tl. apply Exists_cons_hd.
    by apply youtube_answer_trips.
  - assert (Htrips : ∀ results, results ≠ [] →
      trips_debug_output
        (Build_Source title artist details.1.1 details.1.2 details.2) results
      = true).
    { intros results Hr. rewrite trips_debug_output_no_source_duration by done.
      by apply bool_decide_eq_true. }
    apply elem_of_cons in Hin as [->|Hin]; [apply Exists_cons_hd; by apply Htrips|].
    apply elem_of_cons in Hin as [->|Hin];
      [apply Exists_cons_tl, Exists_cons_hd; by apply Htrips|].
    apply elem_of_cons in Hin as [->|Hin]; [|by apply elem_of_nil in Hin].
    do 2 apply Exists_cons_tl. apply Exists_cons_hd. by apply Htrips.
Qed.

Lemma redirect_handler_search_raises_witness :
  Handler.redirect_handler ∅ HandlerSample.yellow_url (Some "apple")
    (Some HandlerSample.yellow_parsed) HandlerSample.clients HandlerSample.offline
    (Sample.answering []) (Sample.answering [Sample.yellow_itunes])
    (Sample.answering [])
  = inl (Handler.Uncaught UnboundLocalError).
Proof.
  apply (redirect_handler_search_raises ∅ HandlerSample.yellow_url (Some "apple")
    HandlerSample.yellow_parsed HandlerSample.clients HandlerSample.offline
    (Sample.answering []) (Sample.answering [Sample.yellow_itunes])
    (Sample.answering []) "spotify" "apple" "Yellow" "Coldplay").
  - discriminate.
  - vm_compute; reflexivity.
  - vm_compute; reflexivity.
  - discriminate.
  - vm_compute; reflexivity.
  - discriminate.
  - discriminate.
  - right. split; [vm_compute; reflexivity|].
    exists (Sample.answering [Sample.yellow_itunes]).
    split; [right; by left|discriminate].
Defined.

(** ** The page of the endpoint *)

Lemma prefix_app_l (x s t : string) :
  String.prefix x s = true → String.prefix x (s +:+ t) = true.
Proof.
  revert s. induction x as [|c x IH]; intros s H; [by destruct (s +:+ t)|].
  destruct s as [|d s]; simpl in H |- *; [done|].
  destruct (ascii_dec c d); [by apply IH|done].
Qed.

Lemma prefix_refl (x : string) : String.prefix x x = true.
Proof. induction x as [|c x IH]; [done|]. simpl. by destruct (ascii_dec c c). Qed.

Lemma contains_here (x t : string) : Str.contains x (x +:+ t) = true.
Proof.
  assert (H : String.prefix x (x +:+ t) = true) by apply prefix_app_l, prefix_refl.
  revert H. generalize (x +:+ t). intros s H.
  destruct s; cbn [Str.contains]; by rewrite H.
Qed.

Lemma contains_app_l (x s t : string) :
  Str.contains x s = true → Str.contains x (s +:+ t) = true.
Proof.
  induction s as [|c s IH]; intros H.
  - simpl in H. rewrite orb_false_r in H. destruct x; [|done].
    destruct t; done.
  - cbn [Str.contains] in H. apply orb_true_iff in H as [H|H].
    + apply (prefix_app_l _ _ t) in H. rewrite app_cons in *.
      cbn [Str.contains]. by rewrite H.
    + rewrite app_cons. cbn [Str.contains]. rewrite (IH H). apply orb_true_r.
Qed.

Lemma contains_app_r (x s t : string) :
  Str.contains x t = true → Str.contains x (s +:+ t) = true.
Proof.
  intros H. induction s as [|c s IH]; [done|].
  rewrite app_cons. cbn [Str.contains]. rewrite IH. apply orb_true_r.
Qed.

Lemma redirect_to_preferred_page (user_pref platform url : string)
    (title artist : option string) (spotify_api itunes_api yt_api : Provider)
    (sd : option Z) (sa : option string) (stn : option Z) (content : string) :
  user_pref ≠ platform →
  Handler.redirect_to_preferred user_pref title artist {[ platform := url ]}
    spotify_api itunes_api yt_api sd sa stn
  = inr (Handler.HTMLResponse content) →
  ∃ equivalent_links items,
    content = Handler.build_fallback_html title artist
                ({[ platform := url ]} ∪ equivalent_links) user_pref
                (Some [(user_pref, items)]).
Proof.
  intros Hne. unfold Handler.redirect_to_preferred.
  rewrite lookup_singleton_ne by done. cbn [Handler.truthy_str negb andb].
  destruct (Handler.truthy_str title && Handler.truthy_str artist); [|done].
  destruct (find_equivalent_links _ _ _ _ _ _ _ _) as [[equivalent_links alt_matches]|e];
    [|done].
  destruct (Handler.truthy_str _); [done|]. intros [= <-]. by eexists _, _.
Qed.

Lemma redirect_handler_page (cookies : gmap string string)
    (url : string) (pref : option string) (parsed : Handler.ParseResult)
    (clients details_clients : Handler.MetadataClients)
    (spotify_api itunes_api yt_api : Provider) (content : string) :
  Handler.redirect_handler cookies url pref (Some parsed) clients details_clients
    spotify_api itunes_api yt_api
  = inr (Handler.HTMLResponse content) →
  ∃ platform user_pref title artist equivalent_links items,
    Url.detect_platform (Handler.netloc parsed) = Some platform
    ∧ Handler.get_preference cookies pref = Some user_pref
    ∧ content = Handler.build_fallback_html title artist
                  ({[ platform := url ]} ∪ equivalent_links) user_pref
                  (Some [(user_pref, items)]).
Proof.
  intros H.
  destruct (decide (url = "")) as [->|Hurl]; [done|].
  destruct (Url.detect_platform (Handler.netloc parsed)) as [platform|] eqn:Hp.
  2:{ unfold Handler.redirect_handler in H. rewrite Hp in H. by destruct url. }
  rewrite (redirect_handler_eq _ _ _ _ _ _ _ _ _ platform) in H by done.
  destruct (Handler.get_preference cookies pref) as [user_pref|] eqn:Hpref; [|done].
  cbn [Handler.truthy_str or_empty] in H.
  destruct (decide (user_pref = platform)) as [->|Hne].
  { by rewrite String.eqb_refl, andb_false_r in H. }
  destruct (Str.nonempty user_pref && negb (user_pref =? platform)%string); [|done].
  apply redirect_to_preferred_page in H as (equivalent_links & items & ->); [|done].
  by eexists platform, user_pref, _, _, _, _.
Qed.

Lemma detect_platform_cases (netloc platform : string) :
  Url.detect_platform netloc = Some platform →
  platform = "spotify" ∨ platform = "apple" ∨ platform = "youtube".
Proof.
  unfold Url.detect_platform. repeat case_match; intros [= <-]; auto.
Qed.

Lemma html_links_anchor (links : gmap string string) (platform url : string) :
  platform = "spotify" ∨ platform = "apple" ∨ platform = "youtube" →
  links !! platform = Some url →
  Str.contains (Handler.anchor url (Handler.str_title platform))
    (Handler.html_links links) = true.
Proof.
  intros Hp Hl. unfold Handler.html_links. apply contains_app_r, contains_app_l.
  cbn [Handler.concat_map foldr].
  destruct Hp as [-> | [-> | ->]]; rewrite Hl.
  - apply contains_here.
  - apply contains_app_r, contains_here.
  - do 2 apply contains_app_r. apply contains_here.
Qed.

(** X30. Whenever the endpoint answers with the page, the page offers the url
    of the request as the link of its platform, and it announces similar
    songs, whether or not the search found an alternative. *)
Theorem redirect_handler_page_contents (cookies : gmap string string)
    (url : string) (pref : option string) (parsed : Handler.ParseResult)
    (clients details_clients : Handler.MetadataClients)
    (spotify_api itunes_api yt_api : Provider) (platform content : string) :
  Url.detect_platform (Handler.netloc parsed) = Some platform →
  Handler.redirect_handler cookies url pref (Some parsed) clients details_clients
    spotify_api itunes_api yt_api
  = inr (Handler.HTMLResponse content) →
  Str.contains (Handler.anchor url (Handler.str_title platform)) content = true
  ∧ Str.contains "<h2>We did find similar songs:</h2><ul>" content = true.
Proof.
  intros Hp H.
  apply redirect_handler_page in H
    as (platform' & user_pref & title & artist & equivalent_links & items
        & Hp' & _ & ->).
  assert (platform' = platform) as -> by congruence.
  unfold Handler.build_fallback_html. split.
  - do 2 apply contains_app_r. apply html_links_anchor.
    + by apply detect_platform_cases in Hp.
    + apply lookup_union_Some_l, lookup_singleton_eq.
  - apply contains_app_r, contains_app_l. cbn [default Handler.html_alternatives].
    apply contains_here.
Qed.

Lemma redirect_handler_page_contents_witness :
  ∃ content,
    Handler.redirect_handler ∅ HandlerSample.yellow_url (Some "apple")
      (Some HandlerSample.yellow_parsed) HandlerSample.clients HandlerSample.clients
      (Sample.answering []) (Sample.answering []) (Sample.answering [])
    = inr (Handler.HTMLResponse content)
    ∧ Str.contains (Handler.anchor HandlerSample.yellow_url "Spotify") content = true
    ∧ Str.contains "<h2>We did find similar songs:</h2><ul>" content = true.
Proof.
  eexists. split; [vm_compute; reflexivity|].
  apply (redirect_handler_page_contents ∅ HandlerSample.yellow_url (Some "apple")
           HandlerSample.yellow_parsed HandlerSample.clients HandlerSample.clients
           (Sample.answering []) (Sample.answering []) (Sample.answering [])
           "spotify");
    vm_compute; reflexivity.
Defined.
